(** * gapp / vgo: the dependency-graph engine of [pkg.go]

    A shallow embedding of [pkg.go] (package main) and the properties of
    its import resolver, graph builder, install orchestrator, version
    controller and manifest store.

    Conventions of the embedding:
    - a [*Pkg] is an index into a heap of [Pkg] records; [parent] and
      [Dependencies] hold such indices, so aliasing is as in the Go code;
    - package-level variables defined in other files of package main
      ([cwd], [gopath], [gosrcpath], [installPath], [vendoring]) and the
      collaborators that live outside [pkg.go] ([repoName], [Logf],
      [native.IsNative], [build.Import], the [vcs] package, the file
      system and the YAML text codec) are parameters of the development;
    - a Go panic and a computation that never returns are outcomes of
      their own ([Panics], [OutOfFuel]);
    - every call the code makes to a collaborator with an effect is
      recorded in a trace of events, in program order. *)

From Stdlib Require Import String Ascii List Bool Arith Lia Permutation Sorted.
From Stdlib Require Import OrderedTypeEx.
From stdpp Require Import base list strings gmap.
Import ListNotations.
Set Warnings "-register-all".
Local Open Scope string_scope.
Local Open Scope list_scope.

(** ** Outcomes *)

Inductive res (A : Type) : Type :=
| Ret (a : A)
| Panics
| OutOfFuel.
Arguments Ret {A} a.
Arguments Panics {A}.
Arguments OutOfFuel {A}.

Definition bind {A B} (m : res A) (k : A -> res B) : res B :=
  match m with
  | Ret a => k a
  | Panics => Panics
  | OutOfFuel => OutOfFuel
  end.

Notation "'do' x <- m ; k" := (bind m (fun x => k))
  (at level 10, x pattern, m at level 99, k at level 200, only parsing).

Definition returns {A} (m : res A) : Prop := exists a, m = Ret a.

Fixpoint mapM {A B} (f : A -> res B) (l : list A) : res (list B) :=
  match l with
  | [] => Ret []
  | a :: t => do b <- f a; do bs <- mapM f t; Ret (b :: bs)
  end.

(** ** The [strings] package, as far as [pkg.go] uses it *)

Module strings.

Definition HasPrefix (s pre : string) : bool := String.prefix pre s.

Fixpoint Contains (s sub : string) : bool :=
  String.prefix sub s ||
  match s with
  | EmptyString => false
  | String _ t => Contains t sub
  end.

(** [Split s sep] for a non-empty [sep]: the pieces of [s] between the
    occurrences of [sep], scanned left to right. [skip] counts the
    characters of a separator still to be dropped and [acc] is the
    piece read so far. *)
Fixpoint SplitFrom (sep : string) (skip : nat) (acc s : string) : list string :=
  match s with
  | EmptyString => [acc]
  | String c t =>
      match skip with
      | S k => SplitFrom sep k acc t
      | O =>
          if String.prefix sep s
          then acc :: SplitFrom sep (String.length sep - 1) EmptyString t
          else SplitFrom sep 0 (acc +:+ String c EmptyString) t
      end
  end.

Definition Split (s sep : string) : list string := SplitFrom sep 0 EmptyString s.

Definition Join (l : list string) (sep : string) : string := String.concat sep l.

Definition TrimPrefix (s pre : string) : string :=
  if String.prefix pre s
  then String.substring (String.length pre) (String.length s - String.length pre) s
  else s.

End strings.

(** ** [sort.Strings]: ascending byte-wise order *)

Definition string_lt (a b : string) : Prop := String.ltb a b = true.
Definition string_le (a b : string) : Prop := String.leb a b = true.

Fixpoint sort_insert (x : string) (l : list string) : list string :=
  match l with
  | [] => [x]
  | y :: t => if String.leb x y then x :: l else y :: sort_insert x t
  end.

Fixpoint sort_Strings (l : list string) : list string :=
  match l with
  | [] => []
  | x :: t => sort_insert x (sort_Strings t)
  end.

(** ** Types of the collaborators *)

(** [build.Package]: the fields [pkg.go] reads. *)
Record Package : Type := mkPackage {
  Dir : string;
  ImportPath : string;
  Imports : list string
}.

(** [vcs.Type] *)
Inductive vcsType : Type := NoVCS | Git | Svn | Bzr | Hg.

(** Go [error] values: those of the collaborators ([*build.NoGoError]
    apart from the rest), and the one [Install] builds with [fmt.Errorf]. *)
Inductive error : Type :=
| ExtErr (msg : string)
| NoGoError (dir : string)
| ResolveErr (name : string) (cause : option error).

(** ** The data model *)

(** A [vcs.Repo] handle: what [NewGitRepo] and its siblings store. The
    state of the checkout itself is part of the world. *)
Record Repo : Type := mkRepo {
  Vcs : vcsType;
  Remote : string;
  LocalPath : string
}.

(** [type Pkg struct]; a [*Pkg] is an index into the heap. The embedded
    mutex is left out: tasks are run one at a time. *)
Record Pkg : Type := mkPkg {
  meta : option Package;
  repo : option Repo;
  parent : option nat;
  hasManifest : bool;
  manifestFile : string;
  installed : bool;
  path : string;
  installPath : string;
  Name : string;
  Version : string;
  Reference : string;
  Dependencies : list nat;
  URL : string
}.

Definition set_meta (v : option Package) (x : Pkg) : Pkg :=
  mkPkg v (repo x) (parent x) (hasManifest x) (manifestFile x) (installed x)
        (path x) (installPath x) (Name x) (Version x) (Reference x)
        (Dependencies x) (URL x).
Definition set_repo (v : option Repo) (x : Pkg) : Pkg :=
  mkPkg (meta x) v (parent x) (hasManifest x) (manifestFile x) (installed x)
        (path x) (installPath x) (Name x) (Version x) (Reference x)
        (Dependencies x) (URL x).
Definition set_parent (v : option nat) (x : Pkg) : Pkg :=
  mkPkg (meta x) (repo x) v (hasManifest x) (manifestFile x) (installed x)
        (path x) (installPath x) (Name x) (Version x) (Reference x)
        (Dependencies x) (URL x).
Definition set_hasManifest (v : bool) (x : Pkg) : Pkg :=
  mkPkg (meta x) (repo x) (parent x) v (manifestFile x) (installed x)
        (path x) (installPath x) (Name x) (Version x) (Reference x)
        (Dependencies x) (URL x).
Definition set_manifestFile (v : string) (x : Pkg) : Pkg :=
  mkPkg (meta x) (repo x) (parent x) (hasManifest x) v (installed x)
        (path x) (installPath x) (Name x) (Version x) (Reference x)
        (Dependencies x) (URL x).
Definition set_installed (v : bool) (x : Pkg) : Pkg :=
  mkPkg (meta x) (repo x) (parent x) (hasManifest x) (manifestFile x) v
        (path x) (installPath x) (Name x) (Version x) (Reference x)
        (Dependencies x) (URL x).
Definition set_path (v : string) (x : Pkg) : Pkg :=
  mkPkg (meta x) (repo x) (parent x) (hasManifest x) (manifestFile x) (installed x)
        v (installPath x) (Name x) (Version x) (Reference x)
        (Dependencies x) (URL x).
Definition set_Name (v : string) (x : Pkg) : Pkg :=
  mkPkg (meta x) (repo x) (parent x) (hasManifest x) (manifestFile x) (installed x)
        (path x) (installPath x) v (Version x) (Reference x)
        (Dependencies x) (URL x).
Definition set_Version (v : string) (x : Pkg) : Pkg :=
  mkPkg (meta x) (repo x) (parent x) (hasManifest x) (manifestFile x) (installed x)
        (path x) (installPath x) (Name x) v (Reference x)
        (Dependencies x) (URL x).
Definition set_Reference (v : string) (x : Pkg) : Pkg :=
  mkPkg (meta x) (repo x) (parent x) (hasManifest x) (manifestFile x) (installed x)
        (path x) (installPath x) (Name x) (Version x) v
        (Dependencies x) (URL x).
Definition set_Dependencies (v : list nat) (x : Pkg) : Pkg :=
  mkPkg (meta x) (repo x) (parent x) (hasManifest x) (manifestFile x) (installed x)
        (path x) (installPath x) (Name x) (Version x) (Reference x)
        v (URL x).
Definition set_URL (v : string) (x : Pkg) : Pkg :=
  mkPkg (meta x) (repo x) (parent x) (hasManifest x) (manifestFile x) (installed x)
        (path x) (installPath x) (Name x) (Version x) (Reference x)
        (Dependencies x) v.

(** The zero value of [Pkg], and [NewPkg]. *)
Definition zeroPkg : Pkg :=
  mkPkg None None None false "" false "" "" "" "" "" [] "".

Definition NewPkg (name : string) : Pkg := set_Name name zeroPkg.

(** A manifest document: the keys [pkg], [ver], [ref], [deps], [url] of
    the struct tags, each present or absent. *)
Inductive Doc : Type :=
| mkDoc (pkg ver ref : option string) (deps : option (list Doc)) (url : option string).

Definition doc_pkg (d : Doc) : option string := let 'mkDoc a _ _ _ _ := d in a.
Definition doc_ver (d : Doc) : option string := let 'mkDoc _ a _ _ _ := d in a.
Definition doc_ref (d : Doc) : option string := let 'mkDoc _ _ a _ _ := d in a.
Definition doc_deps (d : Doc) : option (list Doc) := let 'mkDoc _ _ _ a _ := d in a.
Definition doc_url (d : Doc) : option string := let 'mkDoc _ _ _ _ a := d in a.

(** The lines written through [Logf], one constructor for each call. *)
Inductive LogMsg : Type :=
| LogImportFailed (fqn : string) (e : error)
| LogInstalling (name : string)
| LogInstallFailed (name : string) (e : error) (path : string)
| LogSkipDirty (name : string)
| LogOK (name : string)
| LogCheckoutFailed (e : error).

Inductive Event : Type :=
| EvLog (m : LogMsg)
| EvGet (r : Repo)
| EvUpdateVersion (r : Repo) (v : string)
| EvWriteFile (file : string).

(** ** The environment

    Package-level variables of package main ([cwd], [gopath],
    [gosrcpath], [installPath], [vendoring]); helpers of package main
    defined outside [pkg.go] ([repoName]) and the standard library's path
    functions; [native.IsNative]; go/build, always returning a non-nil
    [*Package], also next to an error; io/ioutil; the text codec of
    yaml.v2; github.com/Masterminds/vcs, where [vcs_New t remote local]
    stands for [NewGitRepo], [NewBzrRepo], [NewHgRepo] and [NewSvnRepo] and
    its first component is the value that the code compares with nil.

    [sched] tells which of the tasks spawned by [Init] run as soon as
    they are spawned (the others run when [Init] waits for them), by the
    name of the dependency. *)

Record Env {World Data : Type} : Type := mkEnv {
  cwd : string;
  gopath : string;
  gosrcpath : string;
  main_installPath : string;
  vendoring : bool;
  repoName : string -> string;
  IsNative : string -> bool;
  filepath_Join : list string -> string;
  path_Join : list string -> string;
  build_Import : World -> string -> string -> Package * option error;
  ioutil_ReadFile : World -> string -> Data * option error;
  ioutil_WriteFile : World -> string -> Data -> World * option error;
  yaml_print : Doc -> Data;
  yaml_parse : Data -> Doc * option error;
  vcs_DetectVcsFromFS : World -> string -> vcsType * option error;
  vcs_New : World -> vcsType -> string -> string -> option Repo * option error;
  vcs_CheckLocal : World -> Repo -> bool;
  vcs_IsDirty : World -> Repo -> bool;
  vcs_IsReference : World -> Repo -> string -> bool;
  vcs_Version : World -> Repo -> string * option error;
  vcs_Get : World -> Repo -> World * option error;
  vcs_UpdateVersion : World -> Repo -> string -> World * option error;
  sched : string -> bool
}.
Arguments Env : clear implicits.

(** The process state: the world, the heap of nodes and the trace. *)
Record State {World : Type} : Type := mkState {
  world : World;
  heap : list Pkg;
  trace : list Event
}.
Arguments State : clear implicits.
Arguments mkState {World} world heap trace.

(** ** The engine *)

Section Engine.

Context {World Data : Type} (E : Env World Data).

Local Abbreviation State := (State World).
Local Abbreviation cwd := (cwd E).
Local Abbreviation gopath := (gopath E).
Local Abbreviation gosrcpath := (gosrcpath E).
Local Abbreviation main_installPath := (main_installPath E).
Local Abbreviation vendoring := (vendoring E).
Local Abbreviation repoName := (repoName E).
Local Abbreviation IsNative := (IsNative E).
Local Abbreviation filepath_Join := (filepath_Join E).
Local Abbreviation path_Join := (path_Join E).
Local Abbreviation build_Import := (build_Import E).
Local Abbreviation ioutil_ReadFile := (ioutil_ReadFile E).
Local Abbreviation ioutil_WriteFile := (ioutil_WriteFile E).
Local Abbreviation yaml_print := (yaml_print E).
Local Abbreviation yaml_parse := (yaml_parse E).
Local Abbreviation vcs_DetectVcsFromFS := (vcs_DetectVcsFromFS E).
Local Abbreviation vcs_New := (vcs_New E).
Local Abbreviation vcs_CheckLocal := (vcs_CheckLocal E).
Local Abbreviation vcs_IsDirty := (vcs_IsDirty E).
Local Abbreviation vcs_IsReference := (vcs_IsReference E).
Local Abbreviation vcs_Version := (vcs_Version E).
Local Abbreviation vcs_Get := (vcs_Get E).
Local Abbreviation vcs_UpdateVersion := (vcs_UpdateVersion E).
Local Abbreviation sched := (sched E).

(** *** The import resolver *)

(** The last loop of [resolveImportsRecursive]: [m] is the map used as a
    set, [u] the slice of first occurrences. *)
Fixpoint unique (m : gset string) (u : list string) (r : list string) : list string :=
  match r with
  | [] => u
  | i :: rest =>
      if decide (i ∈ m) then unique m u rest
      else unique ({[ i ]} ∪ m) (u ++ [i]) rest
  end.

(** The first loop. [rec] is the recursive call; the second component
    of the result lists the paths handed to [build.Import], in order. *)
Fixpoint resolveLoop (rec : string -> list string -> res (list string * list string))
    (w : World) (path : string) (imports : list string)
    (r probes : list string) : res (list string * list string) :=
  match imports with
  | [] => Ret (r, probes)
  | i :: rest =>
      if IsNative i then resolveLoop rec w path rest r probes
      else if negb vendoring || strings.Contains i "vendor"
      then resolveLoop rec w path rest r probes
      else
        let '(m, err) := build_Import w i cwd in
        do sub <- match err with
                  | Some _ => Ret ([], [])
                  | None => rec i (Imports m)
                  end;
        let r1 := r ++ fst sub in
        let probes1 := probes ++ i :: snd sub in
        let name := repoName i in
        if String.eqb name path
        then resolveLoop rec w path rest r1 probes1
        else resolveLoop rec w path rest (r1 ++ [name]) probes1
  end.

Fixpoint resolveImportsRecursive (fuel : nat) (w : World)
    (path : string) (imports : list string) : res (list string * list string) :=
  match fuel with
  | O => OutOfFuel
  | S n =>
      do rp <- resolveLoop (resolveImportsRecursive n w) w path imports [] [];
      Ret (sort_Strings (unique ∅ [] (fst rp)), snd rp)
  end.

(** The imports below [imports] are at most [n] levels deep: the
    recursion of [resolveImportsRecursive] follows an import that is
    neither built-in nor skipped and that [build.Import] finds. *)
Fixpoint import_depth_le (w : World) (n : nat) (imports : list string) : Prop :=
  match n with
  | O => False
  | S k =>
      Forall (fun i =>
                IsNative i = false ->
                negb vendoring || strings.Contains i "vendor" = false ->
                snd (build_Import w i cwd) = None ->
                import_depth_le w k (Imports (fst (build_Import w i cwd))))
             imports
  end.

Definition set_world (w : World) (st : State) : State :=
  mkState w (heap st) (trace st).
Definition set_heap (h : list Pkg) (st : State) : State :=
  mkState (world st) h (trace st).
Definition emit (e : Event) (st : State) : State :=
  mkState (world st) (heap st) (trace st ++ [e]).
Definition Logf (m : LogMsg) (st : State) : State := emit (EvLog m) st.

(** Dereferencing a pointer; a pointer that is not in the heap stands
    for nil. *)
Definition deref (h : list Pkg) (p : nat) : res Pkg :=
  match h !! p with
  | Some x => Ret x
  | None => Panics
  end.

Definition getPkg (st : State) (p : nat) : res Pkg := deref (heap st) p.

(** The node [p] points to is replaced by [f] of it. *)
Definition modPkg (p : nat) (f : Pkg -> Pkg) (st : State) : State :=
  set_heap (alter f p (heap st)) st.

(** *** Walking the parent chain

    A chain of distinct nodes is no longer than the heap, so a walk
    that has not ended after [length heap] steps is on a cycle and
    never ends. *)

Definition IsRoot (x : Pkg) : bool :=
  match parent x with None => true | Some _ => false end.

Fixpoint Root_from (fuel : nat) (h : list Pkg) (p : nat) : res nat :=
  match fuel with
  | O => OutOfFuel
  | S n =>
      do x <- deref h p;
      match parent x with
      | None => Ret p
      | Some q => Root_from n h q
      end
  end.

Definition Root (h : list Pkg) (p : nat) : res nat := Root_from (S (length h)) h p.

Fixpoint IsInGoPath_from (fuel : nat) (h : list Pkg) (x : Pkg) : res bool :=
  match fuel with
  | O => OutOfFuel
  | S n =>
      match parent x with
      | Some q => do y <- deref h q; IsInGoPath_from n h y
      | None => Ret (strings.HasPrefix (path x) gosrcpath)
      end
  end.

Definition IsInGoPath (h : list Pkg) (x : Pkg) : res bool :=
  IsInGoPath_from (S (length h)) h x.

(** [FQN] has a value receiver. The recursive call is on the root,
    which takes the last two branches. *)
Definition FQN (h : list Pkg) (x : Pkg) : res string :=
  do g <- IsInGoPath h x;
  match g, parent x with
  | true, Some q =>
      do r <- Root h q;
      do rx <- deref h r;
      let rootFQN := if String.eqb (Name rx) "" then "." else Name rx in
      Ret (filepath_Join [rootFQN; "vendor"; Name x])
  | _, _ => Ret (if String.eqb (Name x) "" then "." else Name x)
  end.

Definition Meta (p : nat) (st : State) : res (Package * State) :=
  do x <- getPkg st p;
  match meta x with
  | Some m => Ret (m, st)
  | None =>
      do fqn <- FQN (heap st) x;
      let '(m, err) := build_Import (world st) fqn cwd in
      let st1 := match err with
                 | None | Some (NoGoError _) => st
                 | Some e => Logf (LogImportFailed fqn e) st
                 end in
      Ret (m, modPkg p (set_meta (Some m)) st1)
  end.

(** [Find] has a value receiver; it returns a pointer or nil. *)
Fixpoint Find_in (h : list Pkg) (deps : list nat) (name : string) : res (option nat) :=
  match deps with
  | [] => Ret None
  | d :: rest =>
      do y <- deref h d;
      if String.eqb (Name y) name then Ret (Some d) else Find_in h rest name
  end.

Fixpoint Find_from (fuel : nat) (h : list Pkg) (x : Pkg) (name : string) : res (option nat) :=
  match fuel with
  | O => OutOfFuel
  | S n =>
      do found <- Find_in h (Dependencies x) name;
      match found with
      | Some d => Ret (Some d)
      | None =>
          match parent x with
          | Some q => do y <- deref h q; Find_from n h y name
          | None => Ret None
          end
      end
  end.

Definition Find (h : list Pkg) (x : Pkg) (name : string) : res (option nat) :=
  Find_from (S (length h)) h x name.

(** *** Version controller: repository type, URL and handle *)

Definition RepoPath (x : Pkg) : string :=
  let dir := if Nat.eqb (String.length (installPath x)) 0
             then main_installPath else installPath x in
  path_Join [dir; Name x].

Fixpoint repoFromPath (w : World) (paths : list string) : option Repo :=
  match paths with
  | [] => None
  | pth :: rest =>
      match vcs_DetectVcsFromFS w pth with
      | (_, Some _) => repoFromPath w rest
      | (repoType, None) =>
          match repoType with
          | NoVCS => None
          | t =>
              match vcs_New w t "" pth with
              | (_, Some _) => repoFromPath w rest
              | (r, None) => r
              end
          end
      end
  end.

Definition RepoType (w : World) (x : Pkg) : vcsType :=
  match repoFromPath w [RepoPath x; filepath_Join [gopath; "src"; Name x]] with
  | Some r => Vcs r
  | None =>
      match strings.Split (Name x) "/" with
      | [] => NoVCS
      | p0 :: _ =>
          if String.eqb p0 "github.com" then Git
          else if String.eqb p0 "golang.org" then Git
          else if String.eqb p0 "gopkg.in" then Git
          else NoVCS
      end
  end.

(** [RepoURL] has a value receiver: it works on a copy of the node.
    The result is the URL together with the copy as the method leaves
    it. An index or a slice out of range panics. *)
Definition RepoURL (w : World) (p : Pkg) : res (string * Pkg) :=
  if negb (String.eqb (URL p) "") then Ret (URL p, p)
  else
    match repoFromPath w [RepoPath p; filepath_Join [gopath; "src"; Name p]] with
    | Some r => Ret (Remote r, p)
    | None =>
        let parts := strings.Split (Name p) "/" in
        match parts with
        | [] => Panics
        | p0 :: _ =>
            if String.eqb p0 "github.com" then
              if Nat.leb 3 (length parts)
              then Ret ("git@github.com:" +:+ strings.Join (take 2 (drop 1 parts)) "/"
                        +:+ ".git", p)
              else Panics
            else if String.eqb p0 "golang.org" then
              match parts !! 2 with
              | Some p2 => Ret ("git@github.com:golang/" +:+ p2 +:+ ".git", p)
              | None => Panics
              end
            else if String.eqb p0 "gopkg.in" then
              match parts !! 2 with
              | Some p2 =>
                  let nameParts := strings.Split p2 "." in
                  let name :=
                    strings.Join (take (length nameParts - 1) nameParts) "." in
                  match nameParts !! (length nameParts - 1), parts !! 1 with
                  | Some v, Some p1 =>
                      let p' := set_Version v p in
                      Ret ("git@github.com:" +:+ p1 +:+ "/" +:+ name +:+ ".git", p')
                  | _, _ => Panics
                  end
              | None => Panics
              end
            else Ret ("", p)
        end
    end.

(** [VCS]: the handle, memoised in [p.repo]. The copies that [RepoType],
    [RepoURL] and [RepoPath] work on are dropped when they return. *)
Definition VCS (p : nat) (st : State) : res (option Repo * option error * State) :=
  do x <- getPkg st p;
  match repo x with
  | Some r => Ret (Some r, None, st)
  | None =>
      let repoType := RepoType (world st) x in
      do urlp <- RepoURL (world st) x;
      let repoURL := fst urlp in
      let repoPath := RepoPath x in
      let '(r, err) := match repoType with
                       | NoVCS => (None, None)
                       | t => vcs_New (world st) t repoURL repoPath
                       end in
      Ret (r, err, modPkg p (set_repo r) st)
  end.

(** *** Manifest store *)

(** The [omitempty] option of the struct tags. *)
Definition omitempty (s : string) : option string :=
  if Nat.eqb (String.length s) 0 then None else Some s.

Definition MarshalYAML (p : Pkg) : Pkg :=
  let copy := p in
  if hasManifest copy && negb (IsRoot copy)
  then set_Dependencies [] copy
  else copy.

(** What [yaml.Marshal] makes of a [Pkg]: the hook is called on the
    value and on every element of [Dependencies]. A cycle in the
    dependencies never ends. *)
Fixpoint Marshal (fuel : nat) (h : list Pkg) (p : Pkg) : res Doc :=
  match fuel with
  | O => OutOfFuel
  | S n =>
      let c := MarshalYAML p in
      do ds <- mapM (fun d => do y <- deref h d; Marshal n h y) (Dependencies c);
      Ret (mkDoc (omitempty (Name c)) (omitempty (Version c)) (omitempty (Reference c))
                 (match ds with [] => None | _ => Some ds end)
                 (omitempty (URL c)))
  end.

Definition SaveManifest (fuel : nat) (p : Pkg) (st : State) : res (State * option error) :=
  do d <- Marshal fuel (heap st) p;
  let data := yaml_print d in
  let file := filepath_Join [path p; manifestFile p] in
  let '(w, err) := ioutil_WriteFile (world st) file data in
  Ret (emit (EvWriteFile file) (set_world w st), err).

Definition decodeFields (d : Doc) (kids : option (list nat)) (x : Pkg) : Pkg :=
  let x1 := match doc_pkg d with Some v => set_Name v x | None => x end in
  let x2 := match doc_ver d with Some v => set_Version v x1 | None => x1 end in
  let x3 := match doc_ref d with Some v => set_Reference v x2 | None => x2 end in
  let x4 := match kids with Some v => set_Dependencies v x3 | None => x3 end in
  match doc_url d with Some v => set_URL v x4 | None => x4 end.

(** What [yaml.Unmarshal] does to the node [p] points to: a key that
    is present overwrites its field, and [deps] becomes a new slice of
    new nodes. *)
Fixpoint Unmarshal (d : Doc) (p : nat) (h : list Pkg) : list Pkg :=
  let '(kids, h1) :=
    match doc_deps d with
    | None => (None, h)
    | Some ds =>
        let '(ks, h') :=
          (fix elems (l : list Doc) (h0 : list Pkg) : list nat * list Pkg :=
             match l with
             | [] => ([], h0)
             | e :: l' =>
                 let q := length h0 in
                 let '(ks, h2) := elems l' (Unmarshal e q (h0 ++ [zeroPkg])) in
                 (q :: ks, h2)
             end) ds h in
        (Some ks, h')
    end in
  alter (decodeFields d kids) p h1.

Fixpoint updateDepsParents (fuel : nat) (p : nat) (h : list Pkg) : res (list Pkg) :=
  match fuel with
  | O => OutOfFuel
  | S n =>
      do x <- deref h p;
      (fix each (ds : list nat) (h0 : list Pkg) : res (list Pkg) :=
         match ds with
         | [] => Ret h0
         | d :: ds' =>
             do _ <- deref h0 d;
             do h1 <- updateDepsParents n d (alter (set_parent (Some p)) d h0);
             each ds' h1
         end) (Dependencies x) h
  end.

(** A failure of [yaml.Unmarshal] is taken to leave the node as it was. *)
Definition LoadManifest (fuel : nat) (p : nat) (st : State) : res (State * option error) :=
  do _ <- getPkg st p;
  let st1 := modPkg p (set_hasManifest false) st in
  let st2 := modPkg p (fun x => if Nat.eqb (String.length (manifestFile x)) 0
                                then set_manifestFile "vgo.yaml" x else x) st1 in
  do x <- getPkg st2 p;
  let '(data, err) := ioutil_ReadFile (world st2) (filepath_Join [path x; manifestFile x]) in
  match err with
  | Some e => Ret (st2, Some e)
  | None =>
      let '(d, err) := yaml_parse data in
      match err with
      | Some e => Ret (st2, Some e)
      | None =>
          let st3 := set_heap (Unmarshal d p (heap st2)) st2 in
          let st4 := modPkg p (set_hasManifest true) st3 in
          do h <- updateDepsParents fuel p (heap st4);
          Ret (set_heap h st4, None)
      end
  end.

(** *** Checkout and Install

    [init] stands for [Init], which is defined after them. *)

Section Orchestrator.

Variable fuel : nat.
Variable init : nat -> Package -> State -> res State.

(** [Checkout] from [p.Reference, err = repo.Version()] to its end. *)
Definition CheckoutFinish (p : nat) (r : Repo) (st : State) : res (State * option error) :=
  let '(ref, err) := vcs_Version (world st) r in
  let st1 := modPkg p (fun x => set_path (LocalPath r) (set_Reference ref x)) st in
  do l <- LoadManifest fuel p st1;
  let st2 := fst l in
  do x <- getPkg st2 p;
  if negb (hasManifest x) then
    match parent x with
    | None => Panics
    | Some par =>
        do ms <- Meta par st2;
        do st3 <- init par (fst ms) (snd ms);
        Ret (st3, err)
    end
  else Ret (st2, err).

Definition Checkout_ (p : nat) (st : State) : res (State * option error) :=
  do x <- getPkg st p;
  match parent x with
  | None => Ret (st, None)
  | Some _ =>
      do v <- VCS p st;
      let '(orepo, err, st1) := v in
      match err with
      | Some e => Ret (st1, Some e)
      | None =>
          match orepo with
          | None => Panics
          | Some r =>
              do x1 <- getPkg st1 p;
              let st2 := if vcs_IsDirty (world st1) r
                         then Logf (LogSkipDirty (Name x1)) st1 else st1 in
              let version := if negb (String.eqb (Reference x1) "")
                             then Reference x1 else Version x1 in
              let inst := vcs_CheckLocal (world st2) r in
              let st3 := modPkg p (set_installed inst) st2 in
              if inst then
                if vcs_IsReference (world st3) r version
                then Ret (Logf (LogOK (Name x1)) st3, None)
                else
                  let '(w, uerr) := vcs_UpdateVersion (world st3) r version in
                  let st4 := emit (EvUpdateVersion r version) (set_world w st3) in
                  match uerr with
                  | Some e => Ret (Logf (LogCheckoutFailed e) st4, Some e)
                  | None => CheckoutFinish p r st4
                  end
              else CheckoutFinish p r st3
          end
      end
  end.

Definition Install_ (p : nat) (st : State) : res (State * option error) :=
  do x <- getPkg st p;
  match parent x with
  | None => Ret (st, None)
  | Some _ =>
      do v <- VCS p st;
      let '(orepo, err, st1) := v in
      match orepo with
      | None =>
          do x1 <- getPkg st1 p;
          Ret (st1, Some (ResolveErr (Name x1) err))
      | Some r =>
          let inst := vcs_CheckLocal (world st1) r in
          let st2 := modPkg p (fun y => set_path (LocalPath r) (set_installed inst y)) st1 in
          do x2 <- getPkg st2 p;
          let '(st3, err1) :=
            if inst then (st2, err)
            else
              let st' := Logf (LogInstalling (Name x2)) st2 in
              let '(w, gerr) := vcs_Get (world st') r in
              let st'' := emit (EvGet r) (set_world w st') in
              match gerr with
              | Some e => (Logf (LogInstallFailed (Name x2) e (path x2)) st'', gerr)
              | None => (st'', gerr)
              end in
          do c <- Checkout_ p st3;
          Ret (fst c, err1)
      end
  end.

(** *** The graph builder: one turn of the loop of [Init], the loop,
    and the wait for the tasks that have not run yet. *)

Definition InitStep (p : nat) (i : string) (acc : State * list nat)
    : res (State * list nat) :=
  let '(st, pending) := acc in
  let name := repoName i in
  do x <- getPkg st p;
  if strings.HasPrefix name (Name x) then Ret (st, pending)
  else
    do dep <- Find (heap st) x name;
    match dep with
    | Some _ => Ret (st, pending)
    | None =>
        let d := length (heap st) in
        let st1 := set_heap (heap st ++ [set_parent (Some p) (NewPkg name)]) st in
        let st2 := modPkg p (fun y => set_Dependencies (Dependencies y ++ [d]) y) st1 in
        if sched name
        then do r <- Install_ d st2; Ret (fst r, pending)
        else Ret (st2, pending ++ [d])
    end.

Fixpoint InitLoop (p : nat) (names : list string) (acc : State * list nat)
    : res (State * list nat) :=
  match names with
  | [] => Ret acc
  | i :: rest => do acc' <- InitStep p i acc; InitLoop p rest acc'
  end.

Fixpoint Wait (pending : list nat) (st : State) : res State :=
  match pending with
  | [] => Ret st
  | d :: rest => do r <- Install_ d st; Wait rest (fst r)
  end.

End Orchestrator.

Fixpoint Init (fuel : nat) (p : nat) (meta : Package) (st : State) : res State :=
  match fuel with
  | O => OutOfFuel
  | S n =>
      do _ <- getPkg st p;
      let st1 := modPkg p (set_path (Dir meta)) st in
      do x1 <- getPkg st1 p;
      do g <- IsInGoPath (heap st1) x1;
      let st2 := if g then modPkg p (set_Name (repoName (ImportPath meta))) st1 else st1 in
      do x2 <- getPkg st2 p;
      do names <- resolveImportsRecursive (S n) (world st2) (Name x2) (Imports meta);
      do sp <- InitLoop n (Init n) p (fst names) (st2, []);
      Wait n (Init n) (snd sp) (fst sp)
  end.

(** What the fetch step of [Install] yields for a handle: nothing to
    fetch when the checkout is there, else the result of [Get]. *)
Definition fetch_result (w : World) (r : Repo) : option error :=
  if vcs_CheckLocal w r then None else snd (vcs_Get w r).

(** The state in which [Install] calls [Checkout], and the error it
    will return, once the handle [r] is there. *)
Definition fetched (p : nat) (r : Repo) (x : Pkg) (st : State) : State * option error :=
  let inst := vcs_CheckLocal (world st) r in
  let x2 := set_path (LocalPath r) (set_installed inst (set_repo (Some r) x)) in
  let st2 := mkState (world st) (<[p := x2]> (heap st)) (trace st) in
  if inst then (st2, None)
  else
    let st' := Logf (LogInstalling (Name x)) st2 in
    let st'' := emit (EvGet r) (set_world (vcs_Get (world st) r).1 st') in
    match (vcs_Get (world st) r).2 with
    | Some e => (Logf (LogInstallFailed (Name x) e (LocalPath r)) st'', Some e)
    | None => (st'', None)
    end.

(** The target of [Checkout]: the pinned reference if set, else the
    version constraint. *)
Definition target (x : Pkg) : string :=
  if negb (String.eqb (Reference x) "") then Reference x else Version x.

(** The call [p.Init(p.Meta())]. *)
Definition InitMeta (fuel : nat) (p : nat) (st : State) : res State :=
  do ms <- Meta p st;
  Init fuel p (fst ms) (snd ms).

Definition Checkout (fuel : nat) : nat -> State -> res (State * option error) :=
  Checkout_ fuel (Init fuel).

Definition Install (fuel : nat) : nat -> State -> res (State * option error) :=
  Install_ fuel (Init fuel).

End Engine.

(** ** The shape of a graph

    [ancestor h a n]: following [parent] from node [n] reaches node [a]. *)

Inductive ancestor (h : list Pkg) : nat -> nat -> Prop :=
| ancestor_parent n x a :
    h !! n = Some x -> parent x = Some a -> ancestor h a n
| ancestor_step n x q a :
    h !! n = Some x -> parent x = Some q -> ancestor h a q -> ancestor h a n.

(** [name] is a subpackage of [own]: it goes on below it. *)
Definition subpackage (name own : string) : bool :=
  strings.HasPrefix name (own +:+ "/").

(** No node is named as one of its ancestors. *)
Definition no_ancestor_name (h : list Pkg) : Prop :=
  forall n a xn xa,
    ancestor h a n -> h !! n = Some xn -> h !! a = Some xa -> Name xn <> Name xa.

(** No node has, among its dependencies, a node named as itself or as a
    subpackage of itself. *)
Definition no_self_dependency (h : list Pkg) : Prop :=
  forall n xn d xd,
    h !! n = Some xn -> d ∈ Dependencies xn -> h !! d = Some xd ->
    Name xd <> Name xn /\ subpackage (Name xd) (Name xn) = false.

Definition graph_ok (h : list Pkg) : Prop :=
  no_ancestor_name h /\ no_self_dependency h.

(** ** Dependency subtrees

    The subtree below a node, read off the heap: the four fields that a
    manifest records, whether the node owns a manifest of its own and
    is not the root, and the subtrees of its dependencies in order. *)

Inductive Tree : Type :=
| T (name ver ref url : string) (owns : bool) (kids : list Tree).

Definition kids (t : Tree) : list Tree := let 'T _ _ _ _ _ ks := t in ks.

Fixpoint subtree (fuel : nat) (h : list Pkg) (x : Pkg) : res Tree :=
  match fuel with
  | O => OutOfFuel
  | S n =>
      do ks <- mapM (fun d => do y <- deref h d; subtree n h y) (Dependencies x);
      Ret (T (Name x) (Version x) (Reference x) (URL x)
             (hasManifest x && negb (IsRoot x)) ks)
  end.

(** What a manifest is to hold, in the words of the specification: a
    node that owns a manifest of its own and is not the root goes
    without its dependencies, every other node goes with them. *)
Fixpoint prune (t : Tree) : Tree :=
  match t with
  | T n v r u o ks => T n v r u o (if o then [] else map prune ks)
  end.

(** No node of the tree owns a manifest of its own. *)
Fixpoint no_owner (t : Tree) : bool :=
  match t with
  | T _ _ _ _ o ks => negb o && forallb no_owner ks
  end.

Fixpoint depth (t : Tree) : nat :=
  match t with
  | T _ _ _ _ _ ks => S (foldr (fun k acc => Nat.max (depth k) acc) 0 ks)
  end.

(** [repr_from lo h q t]: the graph below address [q] has the names,
    constraints, references, URLs and shape of [t], all of it at
    addresses from [lo] on. *)
Inductive repr_from (lo : nat) (h : list Pkg) : nat -> Tree -> Prop :=
| repr_node q y o ts :
    lo <= q ->
    h !! q = Some y ->
    Forall2 (repr_from lo h) (Dependencies y) ts ->
    repr_from lo h q (T (Name y) (Version y) (Reference y) (URL y) o ts).

Definition repr (h : list Pkg) (q : nat) (t : Tree) : Prop := repr_from 0 h q t.

(** The document of a tree: empty fields are left out. *)
Fixpoint doc_of (t : Tree) : Doc :=
  match t with
  | T n v r u _ ks =>
      mkDoc (if Nat.eqb (String.length n) 0 then None else Some n)
            (if Nat.eqb (String.length v) 0 then None else Some v)
            (if Nat.eqb (String.length r) 0 then None else Some r)
            (match map doc_of ks with [] => None | l => Some l end)
            (if Nat.eqb (String.length u) 0 then None else Some u)
  end.

(** The elements of [deps], decoded one after the other. *)
Definition UnmarshalElems : list Doc -> list Pkg -> list nat * list Pkg :=
  fix elems (l : list Doc) (h0 : list Pkg) : list nat * list Pkg :=
    match l with
    | [] => ([], h0)
    | e :: l' =>
        let q := length h0 in
        let '(ks, h2) := elems l' (Unmarshal e q (h0 ++ [zeroPkg])) in
        (q :: ks, h2)
    end.

(** The loop of [updateDepsParents]. *)
Definition updateEach (n : nat) (p : nat) : list nat -> list Pkg -> res (list Pkg) :=
  fix each (ds : list nat) (h0 : list Pkg) : res (list Pkg) :=
    match ds with
    | [] => Ret h0
    | d :: ds' =>
        do _ <- deref h0 d;
        do h1 <- updateDepsParents n d (alter (set_parent (Some p)) d h0);
        each ds' h1
    end.

(** Two heaps that differ in [parent] fields at most, as far as a
    manifest goes. *)
Definition same_but_parent (h h' : list Pkg) : Prop :=
  forall i y, h !! i = Some y ->
    exists y', h' !! i = Some y' /\ Name y' = Name y /\ Version y' = Version y /\
               Reference y' = Reference y /\ URL y' = URL y /\
               Dependencies y' = Dependencies y /\ hasManifest y' = hasManifest y.

(** The node [y] can take the manifest of the node [x]: where a field
    of [x] is empty, so is that of [y], and [y] has no dependencies
    when the manifest of [x] lists none. A node made by [NewPkg] with
    the name of [x] is such a node, and so is [x] itself unless its own
    dependencies are left out of its manifest. *)
Definition blank_for (x y : Pkg) : Prop :=
  (Name x = "" -> Name y = "") /\ (Version x = "" -> Version y = "") /\
  (Reference x = "" -> Reference y = "") /\ (URL x = "" -> URL y = "") /\
  (hasManifest x && negb (IsRoot x) = true \/ Dependencies x = [] ->
   Dependencies y = []).

(** The node [y] can take the document of [T n v r u o ks]. *)
Definition fits (n v r u : string) (ks : list Tree) (y : Pkg) : Prop :=
  (n = "" -> Name y = "") /\ (v = "" -> Version y = "") /\
  (r = "" -> Reference y = "") /\ (u = "" -> URL y = "") /\
  (ks = [] -> Dependencies y = []).

Section ManifestPaths.

Context {World Data : Type} (E : Env World Data).

(** The file [SaveManifest] writes and the file [LoadManifest] reads. *)
Definition save_file (x : Pkg) : string :=
  filepath_Join E [path x; manifestFile x].

Definition load_file (y : Pkg) : string :=
  filepath_Join E [path y; if Nat.eqb (String.length (manifestFile y)) 0
                           then "vgo.yaml" else manifestFile y].

(** The text codec gives back the document it was given, and a file
    holds what was written to it. *)
Definition codec_ok : Prop :=
  forall d, yaml_parse E (yaml_print E d) = (d, None).

Definition files_ok : Prop :=
  forall (w w' : World) (f : string) (data : Data),
    ioutil_WriteFile E w f data = (w', None) ->
    ioutil_ReadFile E w' f = (data, None).

End ManifestPaths.

(** ** Invariants of the graph builder

    They describe the graphs that [Init] builds from a root at address 0
    when no manifest is loaded on the way: every other node is a child
    of the root, without dependencies of its own, and its name does not
    begin with the name [N] that [Init] gives the root. *)

Section BuilderInvariant.

Context {World Data : Type} (E : Env World Data).
Variable m : Package.
Variable N : string.

(** A change to a node that leaves its place in the graph alone. *)
Definition keeps (f : Pkg -> Pkg) : Prop :=
  forall x, parent (f x) = parent x /\ Dependencies (f x) = Dependencies x /\
            Name (f x) = Name x.

(** The name of the root once [Init] has set it. *)
Definition newName (x : Pkg) : string :=
  if strings.HasPrefix (Dir m) (gosrcpath E) then repoName E (ImportPath m) else Name x.

Definition children_ok (h : list Pkg) : Prop :=
  forall n x, n <> 0 -> h !! n = Some x ->
    parent x = Some 0 /\ Dependencies x = [] /\ strings.HasPrefix (Name x) N = false.

Definition root_ok (x0 : Pkg) : Prop :=
  parent x0 = None /\ meta x0 = Some m /\ (0 ∉ Dependencies x0) /\ newName x0 = N.

(** Before [Init] has set the path and the name of the root. *)
Definition Pre (h : list Pkg) : Prop :=
  exists x0, h !! 0 = Some x0 /\ root_ok x0 /\ children_ok h.

(** After it has. *)
Definition Settled (h : list Pkg) : Prop :=
  exists x0, h !! 0 = Some x0 /\ root_ok x0 /\ path x0 = Dir m /\ Name x0 = N /\
             children_ok h.

(** No manifest can be read, in any world. *)
Definition no_manifest : Prop :=
  forall (w : World) (f : string), (ioutil_ReadFile E w f).2 <> None.

(** What the proofs assume of the [init] that [Checkout] calls. *)
Definition init_ok (init : nat -> Package -> State World -> res (State World)) : Prop :=
  forall st st', Pre (heap st) -> init 0 m st = Ret st' -> Settled (heap st').

End BuilderInvariant.

(** ** Looking a name up

    [first_named h deps name d]: [d] is the first of [deps] that names
    [name]; [none_named h deps name]: none of them does. *)

Definition named_otherwise (h : list Pkg) (name : string) (k : nat) : Prop :=
  exists y, h !! k = Some y /\ Name y <> name.

Definition first_named (h : list Pkg) (deps : list nat) (name : string) (d : nat) : Prop :=
  exists l1 l2 y,
    deps = l1 ++ d :: l2 /\ h !! d = Some y /\ Name y = name /\
    Forall (named_otherwise h name) l1.

Definition none_named (h : list Pkg) (deps : list nat) (name : string) : Prop :=
  Forall (named_otherwise h name) deps.

(** [found_at h name x d]: [d] is the nearest node named [name], looking
    first among the dependencies of [x], then among those of its parent,
    and so on up. *)
Inductive found_at (h : list Pkg) (name : string) : Pkg -> nat -> Prop :=
| found_here x d :
    first_named h (Dependencies x) name d -> found_at h name x d
| found_up x q y d :
    none_named h (Dependencies x) name ->
    parent x = Some q -> h !! q = Some y ->
    found_at h name y d -> found_at h name x d.

(** [absent h name x]: no dependency of [x] or of a node above it is
    named [name]. *)
Inductive absent (h : list Pkg) (name : string) : Pkg -> Prop :=
| absent_top x :
    none_named h (Dependencies x) name -> parent x = None -> absent h name x
| absent_up x q y :
    none_named h (Dependencies x) name ->
    parent x = Some q -> h !! q = Some y ->
    absent h name y -> absent h name x.

(** Every node lies at a higher address than its parent, as in a heap
    where a node is made after the node that introduces it. *)
Definition heap_ordered (h : list Pkg) : Prop :=
  forall i x q, h !! i = Some x -> parent x = Some q -> q < i.

(** ** More of [pkg.go] *)

Section EngineMore.

Context {World Data : Type} (E : Env World Data).

(** [RelativeRepoPath] *)
Definition RelativeRepoPath (x : Pkg) : string :=
  strings.TrimPrefix (RepoPath E x) (main_installPath E).

(** The name does not begin with one of the hosts that [RepoType] and
    [RepoURL] know. *)
Definition unknown_host (p0 : string) : Prop :=
  String.eqb p0 "github.com" = false /\ String.eqb p0 "golang.org" = false /\
  String.eqb p0 "gopkg.in" = false.

Definition known_host (p0 : string) : Prop :=
  p0 = "github.com" \/ p0 = "golang.org" \/ p0 = "gopkg.in".

(** No checkout of the node is found on disk, neither where it is
    installed nor in the GOPATH. *)
Definition not_on_disk (w : World) (x : Pkg) : Prop :=
  repoFromPath E w [RepoPath E x; filepath_Join E [gopath E; "src"; Name x]] = None.

(** [repoFromPath] passes over a path where no checkout is detected
    or where the checkout detected cannot be opened. *)
Definition path_skipped (w : World) (pth : string) : Prop :=
  (vcs_DetectVcsFromFS E w pth).2 <> None \/
  exists t, vcs_DetectVcsFromFS E w pth = (t, None) /\ t <> NoVCS /\
            (vcs_New E w t "" pth).2 <> None.

(** What [LoadManifest] does to a node before it reads the file. *)
Definition manifest_reset (x : Pkg) : Pkg :=
  (fun z => if Nat.eqb (String.length (manifestFile z)) 0
            then set_manifestFile "vgo.yaml" z else z)
    (set_hasManifest false x).

(** The error [Checkout] returns once the handle [r] is there and the
    target is [v]: it comes from the backend alone. *)
Definition checkout_error (w : World) (r : Repo) (v : string) : option error :=
  if vcs_CheckLocal E w r then
    if vcs_IsReference E w r v then None
    else
      match vcs_UpdateVersion E w r v with
      | (_, Some e) => Some e
      | (w', None) => (vcs_Version E w' r).2
      end
  else (vcs_Version E w r).2.

(** An import the resolver does not skip when vendoring is on. *)
Definition followed (i : string) : Prop :=
  IsNative E i = false /\ strings.Contains i "vendor" = false.

(** [reached w path imports from i]: the resolver, called with [path]
    and [imports], meets the import [i] in the call made for [from],
    which is [path] itself or an import it met before and found. *)
Inductive reached (w : World) : string -> list string -> string -> string -> Prop :=
| reached_here path imports i :
    i ∈ imports -> followed i -> reached w path imports path i
| reached_below path imports i from j :
    i ∈ imports -> followed i ->
    (build_Import E w i (cwd E)).2 = None ->
    reached w i (Imports (build_Import E w i (cwd E)).1) from j ->
    reached w path imports from j.

(** What a call of the resolver returns: the names, and the paths
    handed to [build.Import]. *)
Definition resolves (w : World) (path : string) (imports : list string)
    (v : list string * list string) : Prop :=
  (forall name, name ∈ v.1 <->
     exists from i, reached w path imports from i /\ repoName E i = name /\
                    name <> from) /\
  (forall i, i ∈ v.2 <-> exists from, reached w path imports from i).

End EngineMore.

(** Two heaps of the same nodes that differ in [parent] fields only,
    where a new parent is a node that lists the child among its
    dependencies. *)
Definition only_parent (h h' : list Pkg) : Prop :=
  length h' = length h /\
  forall i y, h !! i = Some y ->
    exists q, h' !! i = Some (set_parent q y) /\
      (q = parent y \/
       exists a xa, q = Some a /\ h !! a = Some xa /\ i ∈ Dependencies xa).

(** The graphs [Init] builds when no manifest is read are flat: every
    node but the root at address 0 is a child of the root and has no
    dependencies; the root lists every other node once, in the order
    they were made; and no two of them have the same name. *)
Definition flat (h : list Pkg) : Prop :=
  forall n x, n <> 0 -> h !! n = Some x -> parent x = Some 0 /\ Dependencies x = [].

Definition root_lists_all (h : list Pkg) : Prop :=
  exists x0, h !! 0 = Some x0 /\ Dependencies x0 = seq 1 (length h - 1).

Definition names_distinct (h : list Pkg) : Prop :=
  forall i j xi xj,
    i <> 0 -> j <> 0 -> h !! i = Some xi -> h !! j = Some xj ->
    Name xi = Name xj -> i = j.

Definition distinct (h : list Pkg) : Prop := root_lists_all h /\ names_distinct h.

(** What the proofs of it assume of the [init] that [Checkout] calls. *)
Definition init_distinct {World Data : Type} (E : Env World Data)
    (m : Package) (N : string)
    (init : nat -> Package -> State World -> res (State World)) : Prop :=
  forall st st', Pre E m N (heap st) -> distinct (heap st) -> init 0 m st = Ret st' ->
                 distinct (heap st').

(** No key of the document holds an empty value. *)
Fixpoint doc_clean (d : Doc) : bool :=
  match d with
  | mkDoc pkg ver ref deps url =>
      let full (o : option string) :=
        match o with Some s => negb (String.eqb s "") | None => true end in
      full pkg && full ver && full ref && full url &&
      match deps with
      | None => true
      | Some ds => negb (Nat.eqb (length ds) 0) && forallb doc_clean ds
      end
  end.

(** ** A small concrete world

    Checkouts are kept by local path with the version they are at, files
    hold manifest documents, and a remote can be fetched when it is
    listed. It instantiates the collaborators for the examples below. *)

Module Sample.

Record SWorld : Type := mkSWorld {
  checkouts : list (string * string);
  dirty : list string;
  files : list (string * Doc);
  remotes : list string;
  sources : list (string * Package)
}.

Fixpoint assoc {A} (k : string) (l : list (string * A)) : option A :=
  match l with
  | [] => None
  | (k', v) :: t => if String.eqb k k' then Some v else assoc k t
  end.

Definition member (k : string) (l : list string) : bool :=
  existsb (String.eqb k) l.

Definition Join (l : list string) : string := String.concat "/" l.

Definition build_Import (w : SWorld) (pth srcDir : string) : Package * option error :=
  match assoc pth (sources w) with
  | Some m => (m, None)
  | None => (mkPackage "" pth [], Some (ExtErr "cannot find package"))
  end.

Definition ReadFile (w : SWorld) (f : string) : Doc * option error :=
  match assoc f (files w) with
  | Some d => (d, None)
  | None => (mkDoc None None None None None, Some (ExtErr "no such file"))
  end.

Definition WriteFile (w : SWorld) (f : string) (d : Doc) : SWorld * option error :=
  (mkSWorld (checkouts w) (dirty w) ((f, d) :: files w) (remotes w) (sources w), None).

Definition DetectVcsFromFS (w : SWorld) (pth : string) : vcsType * option error :=
  match assoc pth (checkouts w) with
  | Some _ => (Git, None)
  | None => (NoVCS, Some (ExtErr "cannot detect VCS"))
  end.

Definition New (w : SWorld) (t : vcsType) (remote loc : string) : option Repo * option error :=
  (Some (mkRepo t remote loc), None).

Definition CheckLocal (w : SWorld) (r : Repo) : bool :=
  match assoc (LocalPath r) (checkouts w) with Some _ => true | None => false end.

Definition IsDirty (w : SWorld) (r : Repo) : bool := member (LocalPath r) (dirty w).

Definition IsReference (w : SWorld) (r : Repo) (v : string) : bool :=
  match assoc (LocalPath r) (checkouts w) with
  | Some cur => String.eqb cur v
  | None => false
  end.

Definition CurrentVersion (w : SWorld) (r : Repo) : string * option error :=
  match assoc (LocalPath r) (checkouts w) with
  | Some cur => (cur, None)
  | None => ("", Some (ExtErr "unable to retrieve checked out version"))
  end.

Definition Get (w : SWorld) (r : Repo) : SWorld * option error :=
  if member (Remote r) (remotes w)
  then (mkSWorld ((LocalPath r, "master") :: checkouts w) (dirty w) (files w)
                 (remotes w) (sources w), None)
  else (w, Some (ExtErr "unable to get repository")).

(** Checking out the empty version changes nothing, and the version
    [no-such-ref] is unknown. *)
Definition UpdateVersion (w : SWorld) (r : Repo) (v : string) : SWorld * option error :=
  if String.eqb v "" then (w, None)
  else if String.eqb v "no-such-ref"
  then (w, Some (ExtErr "unable to update checked out version"))
  else (mkSWorld ((LocalPath r, v) :: checkouts w) (dirty w) (files w)
                 (remotes w) (sources w), None).

Definition isStd (s : string) : bool := member s ["fmt"; "os"; "strings"].

(** The first three segments of an import path. *)
Definition repoName (s : string) : string := Join (take 3 (strings.Split s "/")).

Definition env (vendor : bool) (eager : string -> bool) : Env SWorld Doc :=
  mkEnv SWorld Doc "/work" "/go" "/go/src" "/work/vendor" vendor repoName isStd
        Join Join build_Import ReadFile WriteFile (fun d => d) (fun d => (d, None))
        DetectVcsFromFS New CheckLocal IsDirty IsReference CurrentVersion Get UpdateVersion
        eager.

(** *** Scenarios *)

Definition appMeta : Package :=
  mkPackage "/work" "github.com/a/app" ["fmt"; "github.com/b/x"].

(** The root, as [NewPkg] and [Meta] leave it. *)
Definition app : Pkg := set_meta (Some appMeta) (NewPkg "github.com/a/app").

Definition eager (name : string) : bool := true.
Definition lazy (name : string) : bool := false.

Definition xPath : string := "/work/vendor/github.com/b/x".
Definition xRepo : Repo := mkRepo Git "git@github.com:b/x.git" xPath.

(** The handle made from the checkout on disk. *)
Definition xLocalRepo : Repo := mkRepo Git "" xPath.

(** A dependency [github.com/b/x] of the root, already in the graph. *)
Definition depX (ver ref : string) : Pkg :=
  set_Reference ref (set_Version ver (set_parent (Some 0) (NewPkg "github.com/b/x"))).

Definition appWithX : Pkg := set_Dependencies [1] app.

(** The repository of [github.com/b/x] can be fetched, and its
    manifest names the root and a subpackage of itself among its
    dependencies. *)
Definition xManifest : Doc :=
  mkDoc (Some "github.com/b/x") None None
        (Some [mkDoc (Some "github.com/a/app") None None None None;
               mkDoc (Some "github.com/b/x/sub") None None None None])
        None.

Definition wManifest : SWorld :=
  mkSWorld [] [] [("/work/vendor/github.com/b/x/vgo.yaml", xManifest)]
           ["git@github.com:b/x.git"] [].

(** The same repository, without a manifest. *)
Definition wPlain : SWorld :=
  mkSWorld [] [] [] ["git@github.com:b/x.git"] [].

(** Nothing can be fetched. *)
Definition wOffline : SWorld := mkSWorld [] [] [] [] [].

(** [github.com/b/x] is checked out at [v1]; it may have local changes. *)
Definition wInstalled (isDirty : bool) : SWorld :=
  mkSWorld [(xPath, "v1")] (if isDirty then [xPath] else []) [] [] [].

(** Sources in which [github.com/b/x] imports [github.com/c/y/sub]. *)
Definition wSources : SWorld :=
  mkSWorld [] [] [] []
           [("github.com/b/x", mkPackage "" "github.com/b/x" ["github.com/c/y/sub"; "os"]);
            ("github.com/c/y/sub", mkPackage "" "github.com/c/y/sub" [])].

(** A graph of three nodes: the middle one owns a manifest. *)
Definition treeHeap : list Pkg :=
  [set_manifestFile "vgo.yaml" (set_path "/work" (set_Version "1.*" appWithX));
   set_hasManifest true (set_Dependencies [2] (depX "~1.0.0" "v1.0.3"));
   set_URL "https://example.org/z.git"
     (set_parent (Some 1) (NewPkg "github.com/c/z"))].

(** The same graph where no node owns a manifest. *)
Definition plainHeap : list Pkg :=
  [set_manifestFile "vgo.yaml" (set_path "/work" (set_Version "1.*" appWithX));
   set_Dependencies [2] (depX "~1.0.0" "v1.0.3");
   set_URL "https://example.org/z.git"
     (set_parent (Some 1) (NewPkg "github.com/c/z"))].

(** A new node for the root, in a later run. *)
Definition freshApp : Pkg := set_path "/work" (NewPkg "github.com/a/app").

(** An environment in which no file can be read. *)
Definition ReadNothing (w : SWorld) (f : string) : Doc * option error :=
  (mkDoc None None None None None, Some (ExtErr "no such file")).

Definition envSealed (vendor : bool) (eager : string -> bool) : Env SWorld Doc :=
  mkEnv SWorld Doc "/work" "/go" "/go/src" "/work/vendor" vendor repoName isStd
        Join Join build_Import ReadNothing WriteFile (fun d => d) (fun d => (d, None))
        DetectVcsFromFS New CheckLocal IsDirty IsReference CurrentVersion Get UpdateVersion
        eager.

(** States of the scenarios. *)
Definition stFresh (w : SWorld) : State SWorld := mkState w [app] [].
Definition stPinned : State SWorld :=
  mkState wOffline [appWithX; depX "" "v1.2.0"] [].
Definition stDirty : State SWorld :=
  mkState (wInstalled true) [appWithX; depX "v2" ""] [].
Definition stUnknownRef : State SWorld :=
  mkState (wInstalled false) [appWithX; depX "no-such-ref" ""] [].
Definition stAtTarget : State SWorld :=
  mkState (wInstalled false) [appWithX; depX "v1" ""] [].
Definition stGopkg : State SWorld :=
  mkState wPlain [set_Dependencies [1] app;
                  set_parent (Some 0) (NewPkg "gopkg.in/user/pkg.v3")] [].
Definition stTree (h : list Pkg) : State SWorld := mkState wOffline h [].

(** The leaf of [treeHeap]. *)
Definition zNode : Pkg :=
  set_URL "https://example.org/z.git" (set_parent (Some 1) (NewPkg "github.com/c/z")).

(** A dependency whose name has two segments, and one on a host that
    [RepoType] does not know. *)
Definition stShort : State SWorld :=
  mkState wPlain [appWithX; set_parent (Some 0) (NewPkg "gopkg.in/yaml.v2")] [].
Definition stOther : State SWorld :=
  mkState wPlain [appWithX; set_URL "https://example.org/a/b.git"
                              (set_parent (Some 0) (NewPkg "example.org/a/b"))] [].

(** [github.com/b/x] with its handle resolved, checked out at [v1]. *)
Definition xCached (ver : string) : Pkg := set_repo (Some xLocalRepo) (depX ver "").
Definition stCached (ver : string) : State SWorld :=
  mkState (wInstalled false) [appWithX; xCached ver] [].

(** [github.com/b/x] where its manifest can be read. *)
Definition stManifest : State SWorld :=
  mkState wManifest [appWithX; set_path xPath (depX "" "")] [].

End Sample.


(** * Properties *)

(** ** Outcomes *)

Lemma bind_Ret {A B} (m : res A) (k : A -> res B) b :
  bind m k = Ret b -> exists a, m = Ret a /\ k a = Ret b.
Proof. destruct m; simpl; intros H; try discriminate. eauto. Qed.

Lemma bind_Ret_l {A B} (m : res A) (k : A -> res B) a :
  m = Ret a -> bind m k = k a.
Proof. intros ->. reflexivity. Qed.

(** Inverts a hypothesis [bind m k = Ret b]. *)
Ltac inv_bind H :=
  let a := fresh "a" in
  let Ha := fresh "Ha" in
  apply bind_Ret in H; destruct H as (a & Ha & H).

(** ** The order of [sort.Strings] *)

Lemma string_le_iff a b : string_le a b <-> a = b \/ String_as_OT.lt a b.
Proof.
  unfold string_le, String.leb.
  rewrite <- String_as_OT.cmp_lt, <- String_as_OT.cmp_eq.
  unfold String_as_OT.cmp. destruct (String.compare a b); intuition congruence.
Qed.

Lemma string_lt_iff a b : string_lt a b <-> String_as_OT.lt a b.
Proof.
  unfold string_lt, String.ltb. rewrite <- String_as_OT.cmp_lt.
  unfold String_as_OT.cmp. destruct (String.compare a b); intuition congruence.
Qed.

Lemma string_le_trans a b c : string_le a b -> string_le b c -> string_le a c.
Proof.
  rewrite !string_le_iff. intros [-> | H1] [-> | H2]; auto.
  right. eapply String_as_OT.lt_trans; eauto.
Qed.

Lemma string_le_total a b : string_le a b \/ string_le b a.
Proof. apply String.leb_total. Qed.

Lemma string_le_lt a b : string_le a b -> a <> b -> string_lt a b.
Proof. rewrite string_le_iff, string_lt_iff. intuition. Qed.

Lemma string_lt_irrefl a : ~ string_lt a a.
Proof.
  rewrite string_lt_iff. intros H. exact (String_as_OT.lt_not_eq _ _ H eq_refl).
Qed.

Lemma sort_insert_Permutation x l : Permutation (sort_insert x l) (x :: l).
Proof.
  induction l as [| y t IH]; simpl; [reflexivity |].
  destruct (String.leb x y); [reflexivity |].
  rewrite IH. apply perm_swap.
Qed.

Lemma sort_Strings_Permutation l : Permutation (sort_Strings l) l.
Proof.
  induction l as [| x t IH]; simpl; [reflexivity |].
  rewrite sort_insert_Permutation. now constructor.
Qed.

Lemma sort_insert_sorted x l :
  StronglySorted string_le l -> StronglySorted string_le (sort_insert x l).
Proof.
  induction 1 as [| y t Hs IH Hall]; simpl.
  - constructor; constructor.
  - destruct (String.leb x y) eqn:Hxy.
    + constructor; [constructor; assumption |].
      constructor; [exact Hxy |].
      eapply Forall_impl; [exact Hall |].
      intros z Hz. eapply string_le_trans; eauto.
    + assert (Hyx : string_le y x).
      { destruct (string_le_total x y) as [H | H]; [| exact H].
        unfold string_le in H. congruence. }
      constructor; [exact IH |].
      eapply Permutation_Forall; [symmetry; apply sort_insert_Permutation |].
      constructor; assumption.
Qed.

Lemma sort_Strings_sorted l : StronglySorted string_le (sort_Strings l).
Proof.
  induction l as [| x t IH]; simpl; [constructor |].
  now apply sort_insert_sorted.
Qed.

Lemma sorted_NoDup_strict l :
  StronglySorted string_le l -> NoDup l -> StronglySorted string_lt l.
Proof.
  induction 1 as [| x t Hs IH Hall]; intros Hnd; [constructor |].
  apply NoDup_cons in Hnd as [Hx Hnd].
  constructor; [auto |].
  rewrite Forall_forall in Hall |- *.
  intros y Hy. apply string_le_lt; [auto |].
  intros ->. now apply Hx.
Qed.

Lemma strict_sorted_NoDup l : StronglySorted string_lt l -> NoDup l.
Proof.
  induction 1 as [| x t Hs IH Hall]; constructor; [| assumption].
  intros Hx. rewrite Forall_forall in Hall.
  exact (string_lt_irrefl _ (Hall _ Hx)).
Qed.


(** ** The import resolver *)

Section ResolverFacts.

Context {World Data : Type} (E : Env World Data).

Lemma unique_NoDup (r : list string) : forall (m : gset string) (u : list string),
  (forall x, x ∈ m <-> x ∈ u) -> NoDup u -> NoDup (unique m u r).
Proof.
  induction r as [| i rest IH]; intros m u Hm Hu; simpl; [exact Hu |].
  destruct (decide (i ∈ m)) as [Hin | Hnin]; [now apply IH |].
  apply IH.
  - intros x. rewrite elem_of_union, elem_of_singleton, elem_of_app, list_elem_of_singleton.
    rewrite Hm. tauto.
  - apply NoDup_app. repeat split; [exact Hu | | apply NoDup_singleton].
    intros x Hx Hx'. apply list_elem_of_singleton in Hx'. subst x.
    apply Hnin. now apply Hm.
Qed.

Lemma resolveLoop_vendoring_off rec (w : World) path imports :
  vendoring E = false ->
  forall r probes, resolveLoop E rec w path imports r probes = Ret (r, probes).
Proof.
  intros Hv. induction imports as [| i rest IH]; intros r probes; simpl; [reflexivity |].
  rewrite Hv. simpl. destruct (IsNative E i); apply IH.
Qed.

Lemma resolveLoop_mono rec rec' (w : World) path :
  (forall i l v, rec i l = Ret v -> rec' i l = Ret v) ->
  forall imports r probes v,
    resolveLoop E rec w path imports r probes = Ret v ->
    resolveLoop E rec' w path imports r probes = Ret v.
Proof.
  intros Hrec. induction imports as [| i rest IH]; intros r probes v; simpl; [auto |].
  destruct (IsNative E i); [apply IH |].
  destruct (negb (vendoring E) || strings.Contains i "vendor"); [apply IH |].
  destruct (build_Import E w i (cwd E)) as [m [e |]]; simpl.
  - destruct (String.eqb (repoName E i) path); apply IH.
  - intros H. inv_bind H. rewrite (Hrec _ _ _ Ha). simpl.
    destruct (String.eqb (repoName E i) path); now apply IH.
Qed.

Lemma resolveImportsRecursive_S (w : World) path imports : forall n v,
  resolveImportsRecursive E n w path imports = Ret v ->
  resolveImportsRecursive E (S n) w path imports = Ret v.
Proof.
  intros n. revert path imports.
  induction n as [| n IH]; intros path imports v H; [discriminate |].
  cbn [resolveImportsRecursive] in H |- *.
  inv_bind H.
  erewrite resolveLoop_mono; [exact H | | exact Ha].
  intros i l v' Hv'. now apply IH.
Qed.

Lemma resolveImportsRecursive_mono (w : World) path imports n m v :
  n <= m ->
  resolveImportsRecursive E n w path imports = Ret v ->
  resolveImportsRecursive E m w path imports = Ret v.
Proof.
  induction 1 as [| m Hle IH]; [auto |].
  intros H. apply resolveImportsRecursive_S. auto.
Qed.

Lemma resolveImportsRecursive_sorted (w : World) path imports n u probes :
  resolveImportsRecursive E n w path imports = Ret (u, probes) ->
  StronglySorted string_lt u.
Proof.
  destruct n as [| n]; [discriminate |].
  cbn [resolveImportsRecursive]. intros H. inv_bind H.
  injection H as <- _.
  apply sorted_NoDup_strict; [apply sort_Strings_sorted |].
  rewrite sort_Strings_Permutation.
  apply unique_NoDup; [| constructor].
  intros x. rewrite elem_of_empty, elem_of_nil. tauto.
Qed.

Lemma resolveLoop_returns rec (w : World) path k :
  (forall i l, import_depth_le E w k l -> returns (rec i l)) ->
  forall imports, import_depth_le E w (S k) imports ->
  forall r probes, returns (resolveLoop E rec w path imports r probes).
Proof.
  intros Hrec imports Hd. cbn [import_depth_le] in Hd.
  induction Hd as [| i rest Hi Hrest IH]; intros r probes; simpl.
  - eexists; reflexivity.
  - destruct (IsNative E i); [apply IH |].
    destruct (negb (vendoring E) || strings.Contains i "vendor"); [apply IH |].
    specialize (Hi eq_refl eq_refl).
    destruct (build_Import E w i (cwd E)) as [m [e |]]; simpl in *.
    + destruct (String.eqb (repoName E i) path); apply IH.
    + destruct (Hrec i (Imports m) (Hi eq_refl)) as [v ->]. simpl.
      destruct (String.eqb (repoName E i) path); apply IH.
Qed.

Lemma resolveImportsRecursive_returns (w : World) : forall n path imports,
  import_depth_le E w n imports ->
  returns (resolveImportsRecursive E n w path imports).
Proof.
  induction n as [| n IH]; intros path imports Hd; [destruct Hd |].
  cbn [resolveImportsRecursive].
  destruct (resolveLoop_returns (resolveImportsRecursive E n w) w path n
              (fun i l => IH i l) imports Hd [] []) as [v ->].
  eexists; reflexivity.
Qed.

(** The bound on the depth is what it takes for the resolver to
    return at all. *)
Lemma resolveLoop_depth rec (w : World) path k :
  (forall i l v, rec i l = Ret v -> import_depth_le E w k l) ->
  forall imports r probes v,
    resolveLoop E rec w path imports r probes = Ret v ->
    import_depth_le E w (S k) imports.
Proof.
  intros Hrec. induction imports as [| i rest IH]; intros r probes v; simpl.
  - constructor.
  - intros H. constructor.
    + intros Hn Hv He.
      rewrite Hn, Hv in H.
      destruct (build_Import E w i (cwd E)) as [m [e |]]; simpl in *; [discriminate |].
      inv_bind H. eapply Hrec; eauto.
    + destruct (IsNative E i); [eapply IH; eauto |].
      destruct (negb (vendoring E) || strings.Contains i "vendor"); [eapply IH; eauto |].
      destruct (build_Import E w i (cwd E)) as [m [e |]]; simpl in *.
      * destruct (String.eqb (repoName E i) path); eapply IH; eauto.
      * inv_bind H. destruct (String.eqb (repoName E i) path); eapply IH; eauto.
Qed.

Lemma resolveImportsRecursive_depth (w : World) : forall n path imports v,
  resolveImportsRecursive E n w path imports = Ret v ->
  import_depth_le E w n imports.
Proof.
  induction n as [| n IH]; intros path imports v H; [discriminate |].
  cbn [resolveImportsRecursive] in H. inv_bind H.
  eapply resolveLoop_depth; [| exact Ha].
  intros i l v' Hv'. eapply IH; eauto.
Qed.

(** C6. With vendoring disabled the resolver skips every import: it
    returns no name at all and never asks [build.Import] for the
    imports of an import. *)
Theorem vendoring_gate (w : World) (path : string) (imports : list string) (n : nat) :
  vendoring E = false ->
  resolveImportsRecursive E (S n) w path imports = Ret ([], []).
Proof.
  intros Hv. cbn [resolveImportsRecursive].
  rewrite resolveLoop_vendoring_off by exact Hv. reflexivity.
Qed.

(** C7. Whenever the imports are finitely deep, the resolver returns
    a list in strictly ascending order, hence sorted and without a
    repeated name, and every run returns that same list. *)
Theorem resolveImports_sorted_unique_deterministic
    (w : World) (path : string) (imports : list string) (n : nat) :
  import_depth_le E w n imports ->
  exists u probes,
    resolveImportsRecursive E n w path imports = Ret (u, probes) /\
    (forall fuel r, resolveImportsRecursive E fuel w path imports = Ret r ->
                    r = (u, probes)) /\
    StronglySorted string_lt u /\ NoDup u.
Proof.
  intros Hd.
  destruct (resolveImportsRecursive_returns w n path imports Hd) as [[u probes] Hr].
  exists u, probes. split; [exact Hr |]. split.
  - intros fuel r Hf.
    pose proof (resolveImportsRecursive_mono w path imports n (Nat.max n fuel) _
                  (Nat.le_max_l _ _) Hr) as H1.
    pose proof (resolveImportsRecursive_mono w path imports fuel (Nat.max n fuel) _
                  (Nat.le_max_r _ _) Hf) as H2.
    congruence.
  - pose proof (resolveImportsRecursive_sorted _ _ _ _ _ _ Hr) as Hs.
    split; [exact Hs | now apply strict_sorted_NoDup].
Qed.

End ResolverFacts.


(** ** The heap and the state *)

Section EngineFacts.

Context {World Data : Type} (E : Env World Data).

Local Abbreviation State := (State World).

Lemma deref_Some (h : list Pkg) p x : h !! p = Some x -> deref h p = Ret x.
Proof. unfold deref. now intros ->. Qed.

Lemma deref_Ret (h : list Pkg) p x : deref h p = Ret x -> h !! p = Some x.
Proof. unfold deref. destruct (h !! p); intros H; now inversion H. Qed.

Lemma getPkg_Some (st : State) p x : heap st !! p = Some x -> getPkg st p = Ret x.
Proof. apply deref_Some. Qed.

Lemma getPkg_Ret (st : State) p x : getPkg st p = Ret x -> heap st !! p = Some x.
Proof. apply deref_Ret. Qed.

Lemma lookup_modPkg_eq (st : State) p f x :
  heap st !! p = Some x -> heap (modPkg p f st) !! p = Some (f x).
Proof. intros H. simpl. rewrite list_lookup_alter_eq, H. reflexivity. Qed.

Lemma lookup_modPkg_ne (st : State) p q f :
  p <> q -> heap (modPkg p f st) !! q = heap st !! q.
Proof. intros H. simpl. now rewrite list_lookup_alter_ne. Qed.

Lemma set_repo_same r x : repo x = r -> set_repo r x = x.
Proof. destruct x; simpl; now intros ->. Qed.

Lemma modPkg_id (st : State) p f x :
  heap st !! p = Some x -> f x = x -> modPkg p f st = st.
Proof.
  intros H Hf. destruct st as [w h t]. unfold modPkg, set_heap. simpl in *. f_equal.
  apply list_eq. intros i. destruct (decide (p = i)) as [<- | Hne].
  - rewrite list_lookup_alter_eq, H. simpl. now rewrite Hf.
  - now rewrite list_lookup_alter_ne.
Qed.

(** *** The handle *)

Lemma VCS_cached (st : State) p x r :
  heap st !! p = Some x -> repo x = Some r -> VCS E p st = Ret (Some r, None, st).
Proof.
  intros H Hr. unfold VCS. rewrite (getPkg_Some _ _ _ H). simpl. now rewrite Hr.
Qed.

(** [VCS] touches nothing but the [repo] field of its node. *)
Lemma VCS_inv (st st1 : State) p r e :
  VCS E p st = Ret (r, e, st1) ->
  exists x, heap st !! p = Some x /\ st1 = modPkg p (set_repo r) st.
Proof.
  unfold VCS. intros H. inv_bind H. apply getPkg_Ret in Ha.
  exists a. split; [exact Ha |].
  destruct (repo a) as [r0 |] eqn:Hr.
  - injection H as <- <- <-. symmetry. eapply modPkg_id; eauto.
    now apply set_repo_same.
  - inv_bind H.
    destruct (RepoType E (world st) a); simpl in H;
      try (destruct (vcs_New E _ _ _ _) as [r1 e1]);
      now injection H as <- <- <-.
Qed.

(** *** The root is left alone *)

(** C9. On the root, [Install] and [Checkout] return at once, without
    an error, and the state they return is the one they were given. *)
Theorem root_is_never_touched (fuel : nat) (p : nat) (st : State) (x : Pkg) :
  heap st !! p = Some x ->
  parent x = None ->
  Install E fuel p st = Ret (st, None) /\ Checkout E fuel p st = Ret (st, None).
Proof.
  intros H Hp. unfold Install, Install_, Checkout, Checkout_.
  rewrite (getPkg_Some _ _ _ H). simpl. rewrite Hp. split; reflexivity.
Qed.

(** *** Install *)

Lemma alter_as_insert (h : list Pkg) p f x :
  h !! p = Some x -> alter f p h = <[p := f x]> h.
Proof.
  intros H. apply list_eq. intros i. destruct (decide (p = i)) as [<- | Hne].
  - rewrite list_lookup_alter_eq, H, list_lookup_insert_eq; [reflexivity |].
    eapply lookup_lt_Some; eauto.
  - now rewrite list_lookup_alter_ne, list_lookup_insert_ne.
Qed.

Lemma lookup_insert_same (h : list Pkg) p x y :
  h !! p = Some x -> <[p := y]> h !! p = Some y.
Proof. intros H. apply list_lookup_insert_eq. eapply lookup_lt_Some; eauto. Qed.

Lemma modPkg_insert (st : State) p f x :
  heap st !! p = Some x ->
  modPkg p f st = mkState (world st) (<[p := f x]> (heap st)) (trace st).
Proof.
  intros H. unfold modPkg, set_heap. now rewrite (alter_as_insert _ _ _ _ H).
Qed.

Lemma fetched_error p r x (st : State) :
  (fetched E p r x st).2 = fetch_result E (world st) r.
Proof.
  unfold fetched, fetch_result.
  destruct (vcs_CheckLocal E (world st) r); [reflexivity |].
  destruct (vcs_Get E (world st) r) as [w [e |]]; reflexivity.
Qed.

Lemma Install_resolved fuel init p (st st1 : State) x par r :
  heap st !! p = Some x ->
  parent x = Some par ->
  VCS E p st = Ret (Some r, None, st1) ->
  Install_ E fuel init p st =
    bind (Checkout_ E fuel init p (fetched E p r x st).1)
         (fun c => Ret (c.1, fetch_result E (world st) r)).
Proof.
  intros H Hp Hv. rewrite <- (fetched_error p r x st).
  unfold Install_. rewrite (getPkg_Some _ _ _ H). simpl. rewrite Hp, Hv. simpl.
  destruct (VCS_inv _ _ _ _ _ Hv) as (x' & Hx' & ->).
  assert (x' = x) by congruence. subst x'.
  rewrite (modPkg_insert st p _ x H).
  rewrite (modPkg_insert _ p _ (set_repo (Some r) x))
    by (simpl; eapply lookup_insert_same; eauto).
  simpl. rewrite list_insert_insert_eq.
  unfold getPkg. simpl.
  rewrite (deref_Some _ _ _ (lookup_insert_same _ _ _ _ H)). simpl.
  unfold fetched. simpl.
  destruct (vcs_CheckLocal E (world st) r); [reflexivity |].
  unfold modPkg, set_heap, Logf, emit, set_world. simpl.
  destruct (vcs_Get E (world st) r) as [w [e |]]; reflexivity.
Qed.

(** C10. Once the handle is resolved, [Install] returns the result of
    the fetch step whatever [Checkout] returns, and it returns exactly
    when that [Checkout] does. *)
Theorem Install_returns_fetch_result
    (fuel : nat) (p : nat) (st st1 : State) (x : Pkg) (par : nat) (r : Repo) :
  heap st !! p = Some x ->
  parent x = Some par ->
  VCS E p st = Ret (Some r, None, st1) ->
  exists st3 : State,
    heap st3 = <[p := set_path (LocalPath r)
                         (set_installed (vcs_CheckLocal E (world st) r)
                            (set_repo (Some r) x))]> (heap st) /\
    (forall st' ce, Checkout E fuel p st3 = Ret (st', ce) ->
                    Install E fuel p st = Ret (st', fetch_result E (world st) r)) /\
    (forall st' e, Install E fuel p st = Ret (st', e) ->
                   e = fetch_result E (world st) r /\
                   exists ce, Checkout E fuel p st3 = Ret (st', ce)).
Proof.
  intros H Hp Hv. exists (fetched E p r x st).1. split; [| split].
  - unfold fetched. destruct (vcs_CheckLocal E (world st) r); [reflexivity |].
    destruct (vcs_Get E (world st) r) as [w [e |]]; reflexivity.
  - intros st' ce Hc. unfold Install.
    rewrite (Install_resolved _ _ _ _ _ _ _ _ H Hp Hv).
    unfold Checkout in Hc. rewrite Hc. reflexivity.
  - intros st' e Hi. unfold Install in Hi.
    rewrite (Install_resolved _ _ _ _ _ _ _ _ H Hp Hv) in Hi.
    inv_bind Hi. destruct a as [sa ce]. injection Hi as <- <-.
    split; [reflexivity |]. exists ce. exact Ha.
Qed.

(** *** Checkout *)

Lemma Checkout_cached fuel init p (st : State) x par r :
  heap st !! p = Some x ->
  parent x = Some par ->
  repo x = Some r ->
  Checkout_ E fuel init p st =
    let tr := if vcs_IsDirty E (world st) r
              then trace st ++ [EvLog (LogSkipDirty (Name x))] else trace st in
    let inst := vcs_CheckLocal E (world st) r in
    let st3 := mkState (world st) (<[p := set_installed inst x]> (heap st)) tr in
    if inst then
      if vcs_IsReference E (world st) r (target x)
      then Ret (Logf (LogOK (Name x)) st3, None)
      else
        let st4 := emit (EvUpdateVersion r (target x))
                        (set_world (vcs_UpdateVersion E (world st) r (target x)).1 st3) in
        match (vcs_UpdateVersion E (world st) r (target x)).2 with
        | Some e => Ret (Logf (LogCheckoutFailed e) st4, Some e)
        | None => CheckoutFinish E fuel init p r st4
        end
    else CheckoutFinish E fuel init p r st3.
Proof.
  intros H Hp Hr. unfold Checkout_.
  rewrite (getPkg_Some _ _ _ H). simpl. rewrite Hp.
  rewrite (VCS_cached _ _ _ _ H Hr). simpl.
  rewrite (getPkg_Some _ _ _ H). simpl.
  fold (target x).
  unfold modPkg, set_heap, Logf, emit, set_world.
  destruct (vcs_IsDirty E (world st) r); simpl;
    rewrite (alter_as_insert _ _ _ _ H);
    (destruct (vcs_CheckLocal E (world st) r); [| reflexivity]);
    (destruct (vcs_IsReference E (world st) r (target x)); [reflexivity |]);
    destruct (vcs_UpdateVersion E (world st) r (target x)) as [w [e |]]; reflexivity.
Qed.

Lemma fetched_lookup p r x (st : State) :
  heap st !! p = Some x ->
  heap (fetched E p r x st).1 !! p =
    Some (set_path (LocalPath r)
            (set_installed (vcs_CheckLocal E (world st) r) (set_repo (Some r) x))).
Proof.
  intros H. unfold fetched.
  destruct (vcs_CheckLocal E (world st) r); simpl.
  - eapply lookup_insert_same; eauto.
  - destruct (vcs_Get E (world st) r) as [w [e |]]; simpl;
      eapply lookup_insert_same; eauto.
Qed.

(** C8. On a node whose checkout is there, clean and already at the
    target, [Install] fetches nothing and updates nothing: the world
    is the same, the only event is the line [OK], and the node keeps
    its pinned reference. *)
Theorem Install_idempotent
    (fuel : nat) (p : nat) (st st1 : State) (x : Pkg) (par : nat) (r : Repo) :
  heap st !! p = Some x ->
  parent x = Some par ->
  VCS E p st = Ret (Some r, None, st1) ->
  vcs_CheckLocal E (world st) r = true ->
  vcs_IsDirty E (world st) r = false ->
  vcs_IsReference E (world st) r (target x) = true ->
  exists (st' : State) (x' : Pkg),
    Install E fuel p st = Ret (st', None) /\
    world st' = world st /\
    trace st' = trace st ++ [EvLog (LogOK (Name x))] /\
    heap st' = <[p := x']> (heap st) /\
    x' = set_path (LocalPath r) (set_installed true (set_repo (Some r) x)) /\
    Reference x' = Reference x /\ Version x' = Version x.
Proof.
  intros H Hp Hv Hl Hd Hr.
  unfold Install. rewrite (Install_resolved _ _ _ _ _ _ _ _ H Hp Hv).
  pose proof (fetched_lookup p r x st H) as Hf.
  unfold fetch_result. unfold fetched in *. rewrite Hl in *. simpl in *.
  erewrite Checkout_cached; [| exact Hf | exact Hp | reflexivity].
  simpl. rewrite Hd, Hl.
  replace (target (set_path (LocalPath r) (set_installed true (set_repo (Some r) x))))
    with (target x) by reflexivity.
  rewrite Hr. simpl.
  eexists _, _. split; [reflexivity |]. simpl.
  rewrite list_insert_insert_eq.
  repeat split; reflexivity.
Qed.

(** *** Loading a manifest that cannot be read *)

Lemma manifest_reset_fields x :
  path (manifest_reset x) = path x /\
  manifestFile (manifest_reset x)
  = (if Nat.eqb (String.length (manifestFile x)) 0 then "vgo.yaml" else manifestFile x) /\
  hasManifest (manifest_reset x) = false /\
  Name (manifest_reset x) = Name x /\ Version (manifest_reset x) = Version x /\
  Reference (manifest_reset x) = Reference x /\ URL (manifest_reset x) = URL x /\
  Dependencies (manifest_reset x) = Dependencies x.
Proof.
  unfold manifest_reset. cbn [manifestFile set_hasManifest].
  destruct (Nat.eqb (String.length (manifestFile x)) 0); simpl; auto 10.
Qed.

Lemma LoadManifest_reset p (st : State) x :
  heap st !! p = Some x ->
  modPkg p (fun x => if Nat.eqb (String.length (manifestFile x)) 0
                     then set_manifestFile "vgo.yaml" x else x)
         (modPkg p (set_hasManifest false) st)
  = mkState (world st) (<[p := manifest_reset x]> (heap st)) (trace st).
Proof.
  intros Hx. rewrite (modPkg_insert st p _ x Hx).
  erewrite modPkg_insert by (cbn [heap]; eapply lookup_insert_same; eauto).
  cbn [world heap trace]. now rewrite list_insert_insert_eq.
Qed.

Lemma LoadManifest_unreadable fuel p (st : State) x er :
  heap st !! p = Some x ->
  (ioutil_ReadFile E (world st) (load_file E x)).2 = Some er ->
  LoadManifest E fuel p st
  = Ret (mkState (world st) (<[p := manifest_reset x]> (heap st)) (trace st), Some er).
Proof.
  intros Hx Hr. unfold LoadManifest. rewrite (getPkg_Some _ _ _ Hx). cbn [bind].
  rewrite (LoadManifest_reset p st x Hx).
  erewrite getPkg_Some by (cbn [heap]; eapply lookup_insert_same; eauto).
  cbn [bind world].
  destruct (manifest_reset_fields x) as (Hp & Hm & _). rewrite Hp, Hm.
  fold (load_file E x).
  destruct (ioutil_ReadFile E (world st) (load_file E x)) as [data [er' |]];
    cbn [snd] in Hr; [| discriminate].
  now injection Hr as ->.
Qed.

(** C3, as the code has it. When the initial fetch fails, [Install]
    logs the failure and calls [Checkout] on a node whose [installed]
    flag is false. That [Checkout] asks the backend for no update (the
    trace gains no such event), but it is no no-op: it overwrites the
    pinned reference of the node with what [repo.Version()] reports
    and its path with the local path of the backend, and in that state
    it calls [LoadManifest]; when the node then has no manifest, it
    runs [Init] of the parent again, on the parent's [Meta]. Whatever
    comes of this, [Install] returns the error of the fetch. Where the
    manifest file cannot be read, [LoadManifest] leaves the node with
    [hasManifest] false and the file name filled in, and the parent's
    [Init] is run again from exactly that state. *)
Theorem Install_fetch_failure
    (fuel : nat) (p : nat) (st st1 : State) (x : Pkg) (par : nat) (r : Repo)
    (w' : World) (e : error) :
  heap st !! p = Some x ->
  parent x = Some par ->
  VCS E p st = Ret (Some r, None, st1) ->
  vcs_CheckLocal E (world st) r = false ->
  vcs_Get E (world st) r = (w', Some e) ->
  vcs_CheckLocal E w' r = false ->
  let x4 := set_path (LocalPath r)
              (set_Reference (vcs_Version E w' r).1
                 (set_path (LocalPath r) (set_installed false (set_repo (Some r) x)))) in
  let tr4 := trace st ++ [EvLog (LogInstalling (Name x)); EvGet r;
                          EvLog (LogInstallFailed (Name x) e (LocalPath r))]
                      ++ (if vcs_IsDirty E w' r then [EvLog (LogSkipDirty (Name x))]
                          else []) in
  let st4 := mkState w' (<[p := x4]> (heap st)) tr4 in
  installed x4 = false /\
  Install E fuel p st =
    (do l <- LoadManifest E fuel p st4;
     do y <- getPkg l.1 p;
     if hasManifest y then Ret (l.1, Some e)
     else match parent y with
          | None => Panics
          | Some q =>
              do ms <- Meta E q l.1;
              do st5 <- Init E fuel q ms.1 ms.2;
              Ret (st5, Some e)
          end) /\
  (forall er,
     (ioutil_ReadFile E w' (load_file E x4)).2 = Some er ->
     Install E fuel p st =
       (do ms <- Meta E par (mkState w' (<[p := manifest_reset x4]> (heap st)) tr4);
        do st5 <- Init E fuel par ms.1 ms.2;
        Ret (st5, Some e))).
Proof.
  intros H Hp Hv Hl Hg Hl' x4 tr4 st4.
  assert (Heq : Install E fuel p st =
    (do l <- LoadManifest E fuel p st4;
     do y <- getPkg l.1 p;
     if hasManifest y then Ret (l.1, Some e)
     else match parent y with
          | None => Panics
          | Some q =>
              do ms <- Meta E q l.1;
              do st5 <- Init E fuel q ms.1 ms.2;
              Ret (st5, Some e)
          end)).
  { subst st4 tr4 x4.
    unfold Install. rewrite (Install_resolved _ _ _ _ _ _ _ _ H Hp Hv).
    pose proof (fetched_lookup p r x st H) as Hf.
    unfold fetch_result. unfold fetched in *. rewrite Hl, Hg in *. simpl in Hf |- *.
    erewrite Checkout_cached; [| exact Hf | exact Hp | reflexivity].
    simpl. rewrite Hl'. rewrite list_insert_insert_eq.
    unfold CheckoutFinish. cbn [world].
    destruct (vcs_Version E w' r) as [ref verr]. cbn [fst].
    match goal with
    | |- bind (bind (LoadManifest E fuel p ?s) _) _ = bind (LoadManifest E fuel p ?s4) _ =>
        assert (Hs : s = s4); [| rewrite Hs]
    end.
    { unfold modPkg, set_heap. cbn [world heap trace]. f_equal.
      - erewrite alter_as_insert by (eapply lookup_insert_same; exact H).
        rewrite list_insert_insert_eq. reflexivity.
      - destruct (vcs_IsDirty E w' r); rewrite <- ?app_assoc; simpl;
          rewrite ?app_nil_r; reflexivity. }
    match goal with
    | |- bind (bind ?m _) _ = _ => destruct m as [[l le] | |]
    end; cbn [bind fst]; try reflexivity.
    destruct (getPkg l p) as [y | |]; cbn [bind]; try reflexivity.
    destruct (hasManifest y); cbn [negb]; [reflexivity |].
    destruct (parent y) as [q |]; [| reflexivity].
    destruct (Meta E q l) as [[mm sm] | |]; cbn [bind fst snd]; try reflexivity.
    destruct (Init E fuel q mm sm); reflexivity. }
  split; [reflexivity |]. split; [exact Heq |].
  intros er Hr. rewrite Heq.
  assert (H4 : heap st4 !! p = Some x4) by (eapply lookup_insert_same; eauto).
  rewrite (LoadManifest_unreadable fuel p st4 x4 er H4 Hr).
  cbn [bind fst].
  erewrite getPkg_Some by (cbn [heap]; eapply lookup_insert_same; exact H4).
  subst st4. cbn [bind world heap trace]. destruct (manifest_reset_fields x4) as (_ & _ & Hm & _). rewrite Hm.
  assert (Hpar : parent (manifest_reset x4) = Some par).
  { unfold manifest_reset. cbn [manifestFile set_hasManifest].
    destruct (Nat.eqb _ 0); exact Hp. }
  rewrite Hpar, list_insert_insert_eq. reflexivity.
Qed.

End EngineFacts.


(** ** The graph builder *)

Lemma prefix_refl s : String.prefix s s = true.
Proof.
  induction s as [| c s IH]; simpl; [reflexivity |].
  destruct (ascii_dec c c); [exact IH | congruence].
Qed.

Lemma prefix_append_l a b : forall s,
  String.prefix (a +:+ b) s = true -> String.prefix a s = true.
Proof.
  induction a as [| c a IH]; intros s H; [now destruct s |].
  destruct s as [| c' s]; [discriminate |].
  simpl in *. destruct (ascii_dec c c'); [now apply IH | discriminate].
Qed.

Lemma keeps_id : keeps (fun x => x).
Proof. intros x. auto. Qed.

Lemma keeps_compose f g : keeps f -> keeps g -> keeps (fun x => f (g x)).
Proof.
  intros Hf Hg x. destruct (Hf (g x)) as (? & ? & ?), (Hg x) as (? & ? & ?).
  repeat split; congruence.
Qed.

Lemma keeps_if (b : Pkg -> bool) f g :
  keeps f -> keeps g -> keeps (fun x => if b x then f x else g x).
Proof. intros Hf Hg x. destruct (b x); [apply Hf | apply Hg]. Qed.

Lemma keeps_set_repo v : keeps (set_repo v).
Proof. intros x. repeat split. Qed.
Lemma keeps_set_installed v : keeps (set_installed v).
Proof. intros x. repeat split. Qed.
Lemma keeps_set_path v : keeps (set_path v).
Proof. intros x. repeat split. Qed.
Lemma keeps_set_Reference v : keeps (set_Reference v).
Proof. intros x. repeat split. Qed.
Lemma keeps_set_hasManifest v : keeps (set_hasManifest v).
Proof. intros x. repeat split. Qed.
Lemma keeps_set_manifestFile v : keeps (set_manifestFile v).
Proof. intros x. repeat split. Qed.

Create HintDb keeps.
#[export] Hint Resolve keeps_id keeps_set_repo keeps_set_installed keeps_set_path
  keeps_set_Reference keeps_set_hasManifest keeps_set_manifestFile : keeps.
#[export] Hint Extern 2 (keeps (fun x => if _ then _ else _)) =>
  apply (keeps_if (fun x => _)) : keeps.
#[export] Hint Extern 3 (keeps (fun x => _ (_ x))) =>
  apply (keeps_compose _ (fun x => _)) : keeps.

Section GraphBuilderFacts.

Context {World Data : Type} (E : Env World Data).
Variable m : Package.
Variable N : string.

Local Abbreviation State := (State World).
Local Abbreviation Settled := (Settled E m N).
Local Abbreviation Pre := (Pre E m N).

Lemma Settled_Pre h : Settled h -> Pre h.
Proof. intros (x0 & H0 & Hr & _ & _ & Hc). exists x0. auto. Qed.

Lemma Settled_alter f d h : keeps f -> d <> 0 -> Settled h -> Settled (alter f d h).
Proof.
  intros Hf Hd (x0 & H0 & Hr & Hp & Hn & Hc).
  exists x0. rewrite list_lookup_alter_ne by exact Hd.
  do 4 (split; [assumption |]).
  intros n x Hn0. destruct (decide (d = n)) as [<- | Hne].
  - rewrite list_lookup_alter_eq. destruct (h !! d) as [y |] eqn:Hy; [| discriminate].
    simpl. intros [= <-]. destruct (Hf y) as (-> & -> & ->). now apply (Hc d).
  - rewrite list_lookup_alter_ne by exact Hne. now apply Hc.
Qed.

Lemma Settled_modPkg f d (st : State) :
  keeps f -> d <> 0 -> Settled (heap st) -> Settled (heap (modPkg d f st)).
Proof. intros. now apply Settled_alter. Qed.

Lemma Settled_child d (st : State) x q :
  Settled (heap st) -> heap st !! d = Some x -> parent x = Some q ->
  d <> 0 /\ q = 0.
Proof.
  intros (x0 & H0 & (Hp0 & _) & _ & _ & Hc) Hx Hq.
  assert (d <> 0) by (intros ->; congruence).
  split; [assumption |]. destruct (Hc d x) as (Hp & _); [assumption .. |]. congruence.
Qed.

Lemma Settled_Meta (st : State) :
  Settled (heap st) -> Meta E 0 st = Ret (m, st).
Proof.
  intros (x0 & H0 & (_ & Hm & _) & _). unfold Meta.
  rewrite (getPkg_Some _ _ _ H0). simpl. now rewrite Hm.
Qed.

(** *** Checkout and Install keep the shape *)

Hypothesis Hnm : no_manifest E.

Lemma LoadManifest_no_manifest fuel p (st st' : State) e :
  LoadManifest E fuel p st = Ret (st', e) ->
  st' = modPkg p (fun x => if Nat.eqb (String.length (manifestFile x)) 0
                           then set_manifestFile "vgo.yaml" x else x)
          (modPkg p (set_hasManifest false) st).
Proof.
  unfold LoadManifest. intros H. inv_bind H. inv_bind H.
  match type of H with
  | context [ioutil_ReadFile E ?w ?f] =>
      pose proof (Hnm w f) as Hf; destruct (ioutil_ReadFile E w f) as [data [er |]]
  end; simpl in *; [| congruence].
  now injection H as <- _.
Qed.

Section WithInit.

Variable fuel : nat.
Variable init : nat -> Package -> State -> res State.
Hypothesis Hinit : init_ok E m N init.

Lemma CheckoutFinish_Settled d r (st st' : State) e :
  d <> 0 -> Settled (heap st) ->
  CheckoutFinish E fuel init d r st = Ret (st', e) ->
  Settled (heap st').
Proof.
  intros Hd Hs. unfold CheckoutFinish.
  destruct (vcs_Version E (world st) r) as [ref err].
  intros H. inv_bind H. destruct a as [sl el].
  apply LoadManifest_no_manifest in Ha. simpl in H.
  assert (Hs1 : Settled (heap sl)).
  { subst sl. repeat apply Settled_modPkg; auto with keeps. }
  inv_bind H. apply getPkg_Ret in Ha0.
  assert (Hm : hasManifest a = false).
  { subst sl. simpl in Ha0. rewrite !list_lookup_alter_eq in Ha0.
    destruct (heap st !! d) as [y |]; [| discriminate].
    simpl in Ha0. injection Ha0 as <-.
    destruct (Nat.eqb _ 0); reflexivity. }
  rewrite Hm in H. simpl in H.
  destruct (parent a) as [par |] eqn:Hpar; [| discriminate].
  destruct (Settled_child _ _ _ _ Hs1 Ha0 Hpar) as [_ ->].
  rewrite (Settled_Meta _ Hs1) in H. simpl in H.
  inv_bind H. injection H as <- _.
  eapply Hinit; [| exact Ha1]. now apply Settled_Pre.
Qed.

Lemma Checkout_Settled d (st st' : State) e :
  Settled (heap st) ->
  Checkout_ E fuel init d st = Ret (st', e) ->
  Settled (heap st').
Proof.
  intros Hs. unfold Checkout_. intros H. inv_bind H. apply getPkg_Ret in Ha.
  destruct (parent a) as [q |] eqn:Hq; [| now injection H as <- _].
  destruct (Settled_child _ _ _ _ Hs Ha Hq) as [Hd ->].
  inv_bind H. destruct a0 as [[orepo err] st1].
  destruct (VCS_inv _ _ _ _ _ _ Ha0) as (x & Hx & ->).
  assert (Hs1 : Settled (heap (modPkg d (set_repo orepo) st)))
    by (apply Settled_modPkg; auto with keeps).
  destruct err as [er |]; [now injection H as <- _ |].
  destruct orepo as [r |]; [| discriminate].
  inv_bind H.
  match type of H with
  | context [modPkg d (set_installed ?b) ?s] =>
      assert (Hs3 : Settled (heap (modPkg d (set_installed b) s)))
  end.
  { apply Settled_modPkg; auto with keeps.
    destruct (vcs_IsDirty E _ r); exact Hs1. }
  match type of H with
  | (if ?c then _ else _) = _ => destruct c
  end; [| eapply CheckoutFinish_Settled; eauto].
  match type of H with
  | (if ?c then _ else _) = _ => destruct c
  end; [injection H as <- _; exact Hs3 |].
  match type of H with
  | context [vcs_UpdateVersion E ?w ?r ?v] =>
      destruct (vcs_UpdateVersion E w r v) as [w' [er |]]
  end; [injection H as <- _; exact Hs3 |].
  eapply CheckoutFinish_Settled; [exact Hd | | exact H]. exact Hs3.
Qed.

Lemma Install_Settled d (st st' : State) e :
  Settled (heap st) ->
  Install_ E fuel init d st = Ret (st', e) ->
  Settled (heap st').
Proof.
  intros Hs. unfold Install_. intros H. inv_bind H. apply getPkg_Ret in Ha.
  destruct (parent a) as [q |] eqn:Hq; [| now injection H as <- _].
  destruct (Settled_child _ _ _ _ Hs Ha Hq) as [Hd ->].
  inv_bind H. destruct a0 as [[orepo err] st1].
  destruct (VCS_inv _ _ _ _ _ _ Ha0) as (x & Hx & ->).
  assert (Hs1 : Settled (heap (modPkg d (set_repo orepo) st)))
    by (apply Settled_modPkg; auto with keeps).
  destruct orepo as [r |]; [| inv_bind H; now injection H as <- _].
  inv_bind H.
  assert (Hs2 : forall b,
             Settled (heap (modPkg d (fun y => set_path (LocalPath r) (set_installed b y))
                              (modPkg d (set_repo (Some r)) st))))
    by (intros b; apply Settled_modPkg; auto with keeps).
  match type of H with
  | context [if ?c then _ else _] => destruct c
  end.
  - inv_bind H. destruct a1 as [sc ec]. injection H as <- _.
    eapply Checkout_Settled; [| exact Ha2]. apply Hs2.
  - match type of H with
    | context [vcs_Get E ?w ?r] => destruct (vcs_Get E w r) as [w' [er |]]
    end; inv_bind H; destruct a1 as [sc ec]; injection H as <- _;
      (eapply Checkout_Settled; [| exact Ha2]); apply Hs2.
Qed.

End WithInit.

(** *** The loop of [Init] *)

Lemma Settled_append h name :
  Settled h -> strings.HasPrefix name N = false ->
  Settled (alter (fun y => set_Dependencies (Dependencies y ++ [length h]) y) 0
             (h ++ [set_parent (Some 0) (NewPkg name)])).
Proof.
  intros (x0 & H0 & (Hp0 & Hm0 & Hd0 & Hn0) & Hpath & Hname & Hc) Hpre.
  assert (Hlen : 0 < length h) by (eapply lookup_lt_Some; eauto).
  exists (set_Dependencies (Dependencies x0 ++ [length h]) x0).
  split.
  { rewrite list_lookup_alter_eq, lookup_app_l, H0 by exact Hlen. reflexivity. }
  split.
  { repeat split; try assumption. simpl.
    rewrite elem_of_app, list_elem_of_singleton. intros [? | ?]; [auto | lia]. }
  do 2 (split; [assumption |]).
  intros n x Hn. rewrite list_lookup_alter_ne by auto.
  intros Hx. apply lookup_app_Some in Hx as [Hx | [Hge Hx]]; [exact (Hc n x Hn Hx) |].
  apply list_lookup_singleton_Some in Hx as [_ <-]. auto.
Qed.

Section WithInitLoop.

Variable fuel : nat.
Variable init : nat -> Package -> State -> res State.
Hypothesis Hinit : init_ok E m N init.

Lemma InitStep_Settled i (st st' : State) pending pending' :
  Settled (heap st) ->
  InitStep E fuel init 0 i (st, pending) = Ret (st', pending') ->
  Settled (heap st').
Proof.
  intros Hs. unfold InitStep. intros H. inv_bind H. apply getPkg_Ret in Ha.
  assert (Hname : Name a = N).
  { destruct Hs as (x0 & H0 & _ & _ & Hname & _). congruence. }
  rewrite Hname in H.
  destruct (strings.HasPrefix (repoName E i) N) eqn:Hpre; [now injection H as <- _ |].
  inv_bind H. destruct a0 as [found |]; [now injection H as <- _ |].
  pose proof (Settled_append _ _ Hs Hpre) as Hs2.
  destruct (sched E (repoName E i)).
  - inv_bind H. destruct a0 as [si ei]. injection H as <- _.
    eapply Install_Settled; [exact Hinit | | exact Ha1]. exact Hs2.
  - injection H as <- _. exact Hs2.
Qed.

Lemma InitLoop_Settled names : forall (st st' : State) pending pending',
  Settled (heap st) ->
  InitLoop E fuel init 0 names (st, pending) = Ret (st', pending') ->
  Settled (heap st').
Proof.
  induction names as [| i rest IH]; intros st st' pending pending' Hs H; simpl in H.
  - now injection H as <- _.
  - inv_bind H. destruct a as [s1 p1].
    eapply IH; [| exact H]. eapply InitStep_Settled; eauto.
Qed.

Lemma Wait_Settled pending : forall (st st' : State),
  Settled (heap st) ->
  Wait E fuel init pending st = Ret st' ->
  Settled (heap st').
Proof.
  induction pending as [| d rest IH]; intros st st' Hs H; simpl in H.
  - now injection H as <-.
  - inv_bind H. destruct a as [s1 e1].
    eapply IH; [| exact H].
    eapply Install_Settled; [exact Hinit | exact Hs | exact Ha].
Qed.

End WithInitLoop.

Lemma prelude_Settled (st : State) x0 :
  heap st !! 0 = Some x0 -> Pre (heap st) ->
  Settled (heap (if strings.HasPrefix (Dir m) (gosrcpath E)
                 then modPkg 0 (set_Name (repoName E (ImportPath m)))
                        (modPkg 0 (set_path (Dir m)) st)
                 else modPkg 0 (set_path (Dir m)) st)).
Proof.
  intros H0 (x0' & H0' & (Hp0 & Hm0 & Hd0 & Hn0) & Hc).
  assert (x0' = x0) by congruence. subst x0'.
  unfold newName in Hn0.
  destruct (strings.HasPrefix (Dir m) (gosrcpath E)) eqn:Hg; simpl;
    (eexists; split; [rewrite !list_lookup_alter_eq, H0; reflexivity |]);
    (split; [unfold root_ok, newName; rewrite Hg; simpl; auto |]);
    (do 2 (split; [auto |]));
    intros n x Hn; rewrite !list_lookup_alter_ne by auto; apply (Hc n x Hn).
Qed.

Lemma IsInGoPath_root (h : list Pkg) x :
  parent x = None -> IsInGoPath E h x = Ret (strings.HasPrefix (path x) (gosrcpath E)).
Proof. intros Hp. unfold IsInGoPath. simpl. now rewrite Hp. Qed.

(** [Init] on the root, whatever it is given to burn. *)
Lemma Init_Settled : forall fuel, init_ok E m N (Init E fuel).
Proof.
  induction fuel as [| n IH]; intros st st' Hpre H; [discriminate |].
  cbn [Init] in H.
  pose proof Hpre as (x0 & H0 & (Hp0 & _) & _).
  rewrite (getPkg_Some _ _ _ H0) in H. cbn [bind] in H.
  rewrite (getPkg_Some _ _ (set_path (Dir m) x0)) in H
    by (apply lookup_modPkg_eq; exact H0).
  cbn [bind] in H.
  rewrite IsInGoPath_root in H by exact Hp0. cbn [bind path set_path] in H.
  pose proof (prelude_Settled _ _ H0 Hpre) as Hs2.
  inv_bind H. inv_bind H. inv_bind H. destruct a1 as [s3 pend].
  cbn [fst snd] in H.
  eapply Wait_Settled; [exact IH | | exact H].
  eapply InitLoop_Settled; [exact IH | | exact Ha1]. exact Hs2.
Qed.

(** *** What the shape gives *)

Lemma Settled_ancestor h a n : Settled h -> ancestor h a n -> a = 0 /\ n <> 0.
Proof.
  intros (x0 & H0 & (Hp0 & _) & _ & _ & Hc).
  induction 1 as [n x a Hx Hp | n x q a Hx Hp Hanc IH].
  - assert (n <> 0) by (intros ->; congruence).
    destruct (Hc n x) as (Hq & _); [assumption .. |]. split; congruence.
  - destruct IH as [-> Hq].
    assert (n <> 0) by (intros ->; congruence).
    destruct (Hc n x) as (Hq' & _); [assumption .. |]. congruence.
Qed.

Lemma Settled_graph_ok h : Settled h -> graph_ok h.
Proof.
  intros Hs. pose proof Hs as (x0 & H0 & (Hp0 & _ & Hd0 & _) & _ & Hname & Hc).
  assert (Hne : forall n x, n <> 0 -> h !! n = Some x ->
                  Name x <> N /\ subpackage (Name x) N = false).
  { intros n x Hn Hx. destruct (Hc n x Hn Hx) as (_ & _ & Hpre). split.
    - intros Heq. rewrite Heq in Hpre. unfold strings.HasPrefix in Hpre.
      now rewrite prefix_refl in Hpre.
    - unfold subpackage, strings.HasPrefix in *.
      destruct (String.prefix (N +:+ "/") (Name x)) eqn:Hsub; [| reflexivity].
      apply prefix_append_l in Hsub. congruence. }
  split.
  - intros n a xn xa Hanc Hxn Hxa.
    destruct (Settled_ancestor _ _ _ Hs Hanc) as [-> Hn].
    assert (xa = x0) by congruence. subst xa. rewrite Hname.
    now apply (Hne n).
  - intros n xn d xd Hxn Hd Hxd.
    destruct (decide (n = 0)) as [-> | Hn].
    + assert (xn = x0) by congruence. subst xn. rewrite Hname.
      apply (Hne d); [| assumption]. intros ->. contradiction.
    + destruct (Hc n xn Hn Hxn) as (_ & Hdeps & _). rewrite Hdeps in Hd.
      now apply elem_of_nil in Hd.
Qed.

End GraphBuilderFacts.

(** C4, as the code has it. [Init] checks a name only where it makes a
    node. When no manifest is read on the way, the graph built from a
    root without dependencies is as claimed: no node is named as an
    ancestor, and no node has among its dependencies a node named as
    itself or as a subpackage of itself. *)
Theorem Init_without_manifest_graph_ok
    {World Data : Type} (E : Env World Data)
    (fuel : nat) (st0 st' : State World) (root : Pkg) :
  no_manifest E ->
  heap st0 = [root] ->
  parent root = None ->
  Dependencies root = [] ->
  InitMeta E fuel 0 st0 = Ret st' ->
  graph_ok (heap st').
Proof.
  intros Hnm Hh Hp Hd H. unfold InitMeta in H. inv_bind H. destruct a as [m st1].
  simpl in H.
  assert (Hpre : exists x0, heap st1 = [x0] /\ parent x0 = None /\ meta x0 = Some m /\
                            Dependencies x0 = []).
  { unfold Meta in Ha. unfold getPkg in Ha. rewrite Hh in Ha. simpl in Ha.
    destruct (meta root) as [m0 |] eqn:Hm.
    - injection Ha as <- <-. exists root. auto.
    - inv_bind Ha.
      destruct (build_Import E (world st0) a (cwd E)) as [m1 err].
      injection Ha as <- <-.
      exists (set_meta (Some m1) root).
      split; [| auto].
      destruct err as [[] |]; simpl; rewrite Hh; reflexivity. }
  destruct Hpre as (x0 & Hh1 & Hp1 & Hm1 & Hd1).
  apply (Settled_graph_ok E m (newName E m x0)).
  eapply (Init_Settled E m (newName E m x0) Hnm fuel st1 st'); [| exact H].
  exists x0. rewrite Hh1. split; [reflexivity |]. split.
  - repeat split; auto. rewrite Hd1. apply not_elem_of_nil.
  - intros n x Hn Hx. destruct n; [congruence | discriminate].
Qed.


(** ** The manifest store *)

Lemma Tree_ind' (P : Tree -> Prop) :
  (forall n v r u o ks, Forall P ks -> P (T n v r u o ks)) ->
  forall t, P t.
Proof.
  intros H. fix IH 1. intros [n v r u o ks]. apply H.
  induction ks as [| k ks IHks]; constructor; [apply IH | exact IHks].
Qed.

Lemma length_0_empty s : Nat.eqb (String.length s) 0 = true <-> s = "".
Proof.
  destruct s; simpl; split; intros H; try reflexivity; discriminate.
Qed.

Lemma mapM_Ret {A B} (f : A -> res B) l : forall bs,
  mapM f l = Ret bs -> Forall2 (fun a b => f a = Ret b) l bs.
Proof.
  induction l as [| a l IH]; intros bs H; simpl in H.
  - injection H as <-. constructor.
  - inv_bind H. inv_bind H. injection H as <-. constructor; auto.
Qed.

Lemma mapM_Forall2 {A B} (f : A -> res B) l bs :
  Forall2 (fun a b => f a = Ret b) l bs -> mapM f l = Ret bs.
Proof.
  induction 1 as [| a b l bs Hab _ IH]; simpl; [reflexivity |].
  now rewrite Hab, IH.
Qed.

Lemma foldr_max_le (ks : list Tree) n :
  foldr (fun k acc => Nat.max (depth k) acc) 0 ks <= n <->
  Forall (fun k => depth k <= n) ks.
Proof.
  induction ks as [| k ks IH]; simpl.
  - split; [constructor | lia].
  - rewrite Forall_cons, <- IH. lia.
Qed.

Lemma subtree_depth : forall fuel h x t,
  subtree fuel h x = Ret t -> depth t <= fuel.
Proof.
  induction fuel as [| n IH]; intros h x t H; [discriminate |].
  cbn [subtree] in H. inv_bind H. injection H as <-.
  cbn [depth]. apply le_n_S, foldr_max_le.
  apply mapM_Ret in Ha.
  induction Ha as [| d k ds ks Hd _ IHks]; constructor; [| exact IHks].
  inv_bind Hd. eauto.
Qed.

(** Pruning changes nothing where no node owns a manifest. *)
Lemma prune_no_owner : forall t, no_owner t = true -> prune t = t.
Proof.
  induction t as [n v r u o ks IH] using Tree_ind'. cbn [no_owner prune].
  intros H. apply andb_true_iff in H as [Ho Hks].
  destruct o; [discriminate |]. f_equal.
  induction IH as [| k ks Hk _ IHks]; [reflexivity |].
  simpl in Hks. apply andb_true_iff in Hks as [H1 H2].
  simpl. rewrite Hk by exact H1. f_equal. now apply IHks.
Qed.

Section MarshalFacts.

Context {World Data : Type} (E : Env World Data).

(** [yaml.Marshal] writes the pruned subtree. *)
Lemma Marshal_subtree : forall fuel h x t,
  subtree fuel h x = Ret t -> Marshal fuel h x = Ret (doc_of (prune t)).
Proof.
  induction fuel as [| n IH]; intros h x t H; [discriminate |].
  cbn [subtree] in H. inv_bind H. injection H as <-.
  apply mapM_Ret in Ha. cbn [Marshal]. unfold MarshalYAML.
  destruct (hasManifest x && negb (IsRoot x)) eqn:Ho; simpl; [reflexivity |].
  assert (Hm : mapM (fun d => do y <- deref h d; Marshal n h y) (Dependencies x)
               = Ret (map doc_of (map prune a))).
  { apply mapM_Forall2.
    induction Ha as [| d k ds ks Hd _ IHks]; simpl; constructor; [| exact IHks].
    inv_bind Hd. rewrite Ha. simpl. now apply IH. }
  rewrite Hm. simpl. unfold omitempty.
  destruct (map doc_of (map prune a)); reflexivity.
Qed.

End MarshalFacts.

(** *** Heaps that hold a tree *)

Lemma repr_from_transport lo lo' h h' :
  lo' <= lo ->
  (forall i y, lo <= i -> h !! i = Some y ->
     exists y', h' !! i = Some y' /\ Name y' = Name y /\ Version y' = Version y /\
                Reference y' = Reference y /\ URL y' = URL y /\
                Dependencies y' = Dependencies y) ->
  forall t q, repr_from lo h q t -> repr_from lo' h' q t.
Proof.
  intros Hlo Hh. induction t as [n v r u o ks IH] using Tree_ind'.
  intros q H. inversion H as [q' y o' ts Hq Hy Hks]; subst.
  destruct (Hh q y Hq Hy) as (y' & Hy' & <- & <- & <- & <- & Hd).
  constructor; [lia | exact Hy' |].
  rewrite Hd. clear Hd H Hy.
  induction Hks as [| d k ds ks Hdk _ IHks]; constructor.
  - apply Forall_cons in IH as [Hk _]. now apply Hk.
  - apply Forall_cons in IH as [_ Hks']. now apply IHks.
Qed.

Lemma repr_from_weaken lo lo' h q t :
  lo' <= lo -> repr_from lo h q t -> repr_from lo' h q t.
Proof.
  intros Hlo. apply repr_from_transport; [exact Hlo |].
  intros i y _ Hy. exists y. auto 10.
Qed.

Lemma repr_from_app lo h ext q t :
  repr_from lo h q t -> repr_from lo (h ++ ext) q t.
Proof.
  apply repr_from_transport; [lia |].
  intros i y _ Hy. exists y. split; [now apply lookup_app_l_Some | auto 10].
Qed.

Lemma repr_from_insert lo h p z q t :
  p < lo -> repr_from lo h q t -> repr_from lo (<[p := z]> h) q t.
Proof.
  intros Hp. apply repr_from_transport; [lia |].
  intros i y Hi Hy. exists y. split; [| auto 10].
  rewrite list_lookup_insert_ne by lia. exact Hy.
Qed.

Lemma repr_from_same_but_parent lo h h' q t :
  same_but_parent h h' -> repr_from lo h q t -> repr_from lo h' q t.
Proof.
  intros Hs. apply repr_from_transport; [lia |].
  intros i y _ Hy. destruct (Hs i y Hy) as (y' & ? & ? & ? & ? & ? & ? & ?).
  exists y'. auto 10.
Qed.

Lemma same_but_parent_refl h : same_but_parent h h.
Proof. intros i y Hy. exists y. auto 10. Qed.

Lemma same_but_parent_trans h1 h2 h3 :
  same_but_parent h1 h2 -> same_but_parent h2 h3 -> same_but_parent h1 h3.
Proof.
  intros H12 H23 i y Hy.
  destruct (H12 i y Hy) as (y2 & Hy2 & ? & ? & ? & ? & ? & ?).
  destruct (H23 i y2 Hy2) as (y3 & Hy3 & ? & ? & ? & ? & ? & ?).
  exists y3. repeat split; congruence.
Qed.

Lemma same_but_parent_alter h d v :
  same_but_parent h (alter (set_parent v) d h).
Proof.
  intros i y Hy. destruct (decide (d = i)) as [<- | Hne].
  - exists (set_parent v y). rewrite list_lookup_alter_eq, Hy. auto 10.
  - exists y. rewrite list_lookup_alter_ne by exact Hne. auto 10.
Qed.

(** *** Decoding a manifest *)

Lemma Unmarshal_eq d q h :
  Unmarshal d q h =
    let '(kids, h1) :=
      match doc_deps d with
      | None => (None, h)
      | Some ds => let '(ks, h') := UnmarshalElems ds h in (Some ks, h')
      end in
    alter (decodeFields d kids) q h1.
Proof. destruct d; reflexivity. Qed.

Lemma decodeFields_fields d k y :
  let y' := decodeFields d k y in
  Name y' = default (Name y) (doc_pkg d) /\
  Version y' = default (Version y) (doc_ver d) /\
  Reference y' = default (Reference y) (doc_ref d) /\
  URL y' = default (URL y) (doc_url d) /\
  Dependencies y' = default (Dependencies y) k /\
  parent y' = parent y /\ hasManifest y' = hasManifest y /\
  manifestFile y' = manifestFile y /\ path y' = path y.
Proof.
  unfold decodeFields.
  destruct (doc_pkg d), (doc_ver d), (doc_ref d), (doc_url d), k; simpl; auto 10.
Qed.

Lemma default_omit (s old : string) :
  (s = "" -> old = "") ->
  default old (if Nat.eqb (String.length s) 0 then None else Some s) = s.
Proof.
  intros H. destruct (Nat.eqb (String.length s) 0) eqn:Hs; simpl; [| reflexivity].
  apply length_0_empty in Hs. subst s. now apply H.
Qed.

Lemma Unmarshal_repr : forall t q h y,
  h !! q = Some y ->
  fits (let 'T n _ _ _ _ _ := t in n) (let 'T _ v _ _ _ _ := t in v)
       (let 'T _ _ r _ _ _ := t in r) (let 'T _ _ _ u _ _ := t in u) (kids t) y ->
  exists ext y',
    Unmarshal (doc_of t) q h = <[q := y']> h ++ ext /\
    T (Name y') (Version y') (Reference y') (URL y')
      (let 'T _ _ _ _ o _ := t in o) (kids t) = t /\
    Forall2 (repr_from (length h) (<[q := y']> h ++ ext)) (Dependencies y') (kids t) /\
    parent y' = parent y /\ hasManifest y' = hasManifest y /\
    manifestFile y' = manifestFile y /\ path y' = path y.
Proof.
  induction t as [n v r u o ks IH] using Tree_ind'.
  intros q h y Hy (Hn & Hv & Hr & Hu & Hk). cbn [kids] in *.
  assert (Hq : q < length h) by (eapply lookup_lt_Some; eauto).
  assert (Helems : forall h0, exists ext ps,
             UnmarshalElems (map doc_of ks) h0 = (ps, h0 ++ ext) /\
             Forall2 (repr_from (length h0) (h0 ++ ext)) ps ks).
  { clear Hk Hy Hq. induction IH as [| k ks Hk _ IHks]; intros h0.
    - exists [], []. rewrite app_nil_r. split; [reflexivity | constructor].
    - destruct k as [kn kv kr ku ko kks].
      destruct (Hk (length h0) (h0 ++ [zeroPkg]) zeroPkg) as
        (ext1 & y1 & He1 & Ht1 & Hk1 & _).
      { rewrite lookup_app_r, Nat.sub_diag by lia. reflexivity. }
      { repeat split; reflexivity. }
      cbn [kids] in *.
      assert (Hh1 : <[length h0 := y1]> (h0 ++ [zeroPkg]) ++ ext1 = h0 ++ y1 :: ext1).
      { replace (length h0) with (length h0 + 0) at 1 by lia.
        rewrite insert_app_r. simpl. now rewrite <- app_assoc. }
      rewrite Hh1 in *.
      destruct (IHks (h0 ++ y1 :: ext1)) as (ext2 & ps & He2 & Hks2).
      exists (y1 :: ext1 ++ ext2), (length h0 :: ps).
      split.
      { cbn [map UnmarshalElems]. fold UnmarshalElems. rewrite He1.
        rewrite He2. rewrite <- app_assoc. reflexivity. }
      replace (h0 ++ y1 :: ext1 ++ ext2) with ((h0 ++ y1 :: ext1) ++ ext2)
        by (now rewrite <- app_assoc).
      constructor.
      + apply repr_from_app. rewrite <- Ht1.
        constructor; [lia | |].
        * rewrite lookup_app_r, Nat.sub_diag by lia. reflexivity.
        * eapply Forall2_impl; [exact Hk1 |].
          intros d k'. apply repr_from_weaken. rewrite length_app. simpl. lia.
      + eapply Forall2_impl; [exact Hks2 |].
        intros d k'. apply repr_from_weaken. rewrite length_app. lia. }
  rewrite Unmarshal_eq. cbn [doc_of doc_deps].
  destruct ks as [| k ks'].
  - simpl. exists [], (decodeFields (doc_of (T n v r u o [])) None y).
    rewrite app_nil_r, (alter_as_insert _ _ _ _ Hy).
    split; [reflexivity |].
    destruct (decodeFields_fields (doc_of (T n v r u o [])) None y)
      as (-> & -> & -> & -> & -> & -> & -> & -> & ->).
    cbn [doc_of doc_pkg doc_ver doc_ref doc_url map].
    rewrite !default_omit by assumption. simpl.
    rewrite (Hk eq_refl). repeat split; constructor.
  - destruct (Helems h) as (ext & ps & He & Hps).
    remember (k :: ks') as ks eqn:Hks.
    assert (Hmap : match map doc_of ks with [] => None | l => Some l end
                   = Some (map doc_of ks)) by (subst ks; reflexivity).
    rewrite Hmap, He.
    set (d := doc_of (T n v r u o ks)).
    exists ext, (decodeFields d (Some ps) y).
    rewrite alter_app_l by exact Hq.
    rewrite (alter_as_insert _ _ _ _ Hy).
    split; [reflexivity |].
    destruct (decodeFields_fields d (Some ps) y)
      as (-> & -> & -> & -> & -> & -> & -> & -> & ->).
    subst d. cbn [doc_of doc_pkg doc_ver doc_ref doc_url].
    rewrite !default_omit by assumption. simpl.
    repeat split.
    eapply Forall2_impl; [exact Hps |].
    intros p t Hpt.
    replace (<[q := decodeFields (doc_of (T n v r u o ks)) (Some ps) y]> h ++ ext)
      with (<[q := decodeFields (doc_of (T n v r u o ks)) (Some ps) y]> (h ++ ext))
      by (apply insert_app_l; exact Hq).
    apply repr_from_insert; [exact Hq | exact Hpt].
Qed.

(** *** Patching the parent links *)

Lemma updateDepsParents_S n p h :
  updateDepsParents (S n) p h = do x <- deref h p; updateEach n p (Dependencies x) h.
Proof. reflexivity. Qed.

Lemma updateDepsParents_repr lo : forall t fuel q h,
  depth t <= fuel ->
  repr_from lo h q t ->
  exists h', updateDepsParents fuel q h = Ret h' /\ same_but_parent h h'.
Proof.
  induction t as [n v r u o ks IH] using Tree_ind'.
  intros fuel q h Hd H.
  destruct fuel as [| m]; [cbn [depth] in Hd; lia |].
  cbn [depth] in Hd. apply le_S_n, foldr_max_le in Hd.
  inversion H as [q' y o' ts Hq Hy Hks]; subst.
  rewrite updateDepsParents_S, (deref_Some _ _ _ Hy). cbn [bind].
  clear H Hy. revert h Hks.
  generalize (Dependencies y) as ds.
  induction IH as [| k ks Hk _ IHks]; intros ds h Hks.
  - inversion Hks; subst. exists h. split; [reflexivity | apply same_but_parent_refl].
  - inversion Hks as [| d k' ds' ks' Hdk Hrest]; subst.
    apply Forall_cons in Hd as [Hdk1 Hdks].
    assert (Hd_lookup : exists yd, h !! d = Some yd).
    { inversion Hdk; subst; eauto. }
    destruct Hd_lookup as [yd Hyd].
    cbn [updateEach]. fold (updateEach m q).
    rewrite (deref_Some _ _ _ Hyd). cbn [bind].
    pose proof (same_but_parent_alter h d (Some q)) as Hs0.
    destruct (Hk m d (alter (set_parent (Some q)) d h) Hdk1) as (h1 & Hu1 & Hs1).
    { eapply repr_from_same_but_parent; eauto. }
    rewrite Hu1. cbn [bind].
    assert (Hs01 : same_but_parent h h1) by (eapply same_but_parent_trans; eauto).
    destruct (IHks Hdks ds' h1) as (h' & Hu' & Hs').
    { eapply Forall2_impl; [exact Hrest |].
      intros p t. now apply repr_from_same_but_parent. }
    exists h'. split; [exact Hu' | eapply same_but_parent_trans; eauto].
Qed.

Lemma depth_prune : forall t, depth (prune t) <= depth t.
Proof.
  induction t as [n v r u o ks IH] using Tree_ind'. cbn [prune depth].
  apply le_n_S. destruct o; [simpl; lia |].
  induction IH as [| k ks Hk _ IHks]; simpl; lia.
Qed.

Lemma subtree_root fuel h x t :
  subtree fuel h x = Ret t ->
  exists ks, t = T (Name x) (Version x) (Reference x) (URL x)
                   (hasManifest x && negb (IsRoot x)) ks /\
             length ks = length (Dependencies x).
Proof.
  destruct fuel as [| n]; [discriminate |]. cbn [subtree].
  intros H. inv_bind H. injection H as <-. exists a. split; [reflexivity |].
  apply mapM_Ret, Forall2_length in Ha. congruence.
Qed.

Section RoundTrip.

Context {World Data : Type} (E : Env World Data).

Local Abbreviation State := (State World).

Lemma SaveManifest_inv fuel x (st st1 : State) t :
  files_ok E ->
  subtree fuel (heap st) x = Ret t ->
  SaveManifest E fuel x st = Ret (st1, None) ->
  ioutil_ReadFile E (world st1) (save_file E x)
    = (yaml_print E (doc_of (prune t)), None).
Proof.
  intros Hfs Ht. unfold SaveManifest.
  rewrite (Marshal_subtree _ _ _ _ Ht). cbn [bind].
  fold (save_file E x).
  destruct (ioutil_WriteFile E (world st) (save_file E x)
              (yaml_print E (doc_of (prune t)))) as [w err] eqn:Hw.
  intros [= <- ->]. simpl. eapply Hfs; eauto.
Qed.

(** C5. Save, then load into a node that is blank where the saved one
    is: the four fields come back as they were, and the graph below
    the loaded node is the pruned subtree of the saved one, that is
    the whole subtree where no node in it owns a manifest. *)
Theorem manifest_round_trip
    (fuel : nat) (st st1 sl : State) (x : Pkg) (t : Tree) (q : nat) (y : Pkg) :
  codec_ok E ->
  files_ok E ->
  subtree fuel (heap st) x = Ret t ->
  SaveManifest E fuel x st = Ret (st1, None) ->
  world sl = world st1 ->
  heap sl !! q = Some y ->
  blank_for x y ->
  load_file E y = save_file E x ->
  exists (st2 : State) (y2 : Pkg),
    LoadManifest E fuel q sl = Ret (st2, None) /\
    heap st2 !! q = Some y2 /\
    Name y2 = Name x /\ Version y2 = Version x /\
    Reference y2 = Reference x /\ URL y2 = URL x /\
    hasManifest y2 = true /\
    repr (heap st2) q (prune t) /\
    (no_owner t = true -> repr (heap st2) q t).
Proof.
  intros Hcodec Hfs Ht Hsave Hw Hy (Hbn & Hbv & Hbr & Hbu & Hbd) Hfile.
  pose proof (SaveManifest_inv _ _ _ _ _ Hfs Ht Hsave) as Hread.
  pose proof (subtree_depth _ _ _ _ Ht) as Hdepth.
  destruct (subtree_root _ _ _ _ Ht) as (ks & -> & Hlenks).
  set (o := hasManifest x && negb (IsRoot x)) in *.
  set (t := T (Name x) (Version x) (Reference x) (URL x) o ks) in *.
  set (g := fun z : Pkg => if Nat.eqb (String.length (manifestFile z)) 0
                           then set_manifestFile "vgo.yaml" z else z).
  set (yb := g (set_hasManifest false y)).
  assert (Hyb : path yb = path y /\ Dependencies yb = Dependencies y /\
                Name yb = Name y /\ Version yb = Version y /\
                Reference yb = Reference y /\ URL yb = URL y /\
                filepath_Join E [path yb; manifestFile yb] = load_file E y).
  { unfold yb, g, load_file. simpl.
    destruct (Nat.eqb (String.length (manifestFile y)) 0); simpl; auto 10. }
  destruct Hyb as (Hp & Hd & Hn & Hv & Hr & Hu & Hf).
  set (hb := <[q := yb]> (heap sl)).
  assert (Hhb : hb !! q = Some yb) by (eapply lookup_insert_same; eauto).
  destruct (Unmarshal_repr (prune t) q hb yb Hhb) as
    (ext & y' & Hum & Hroot & Hkids & Hpar & Hhm & _ & _).
  { cbn [prune t kids]. repeat split; intros H0.
    - rewrite Hn. auto.
    - rewrite Hv. auto.
    - rewrite Hr. auto.
    - rewrite Hu. auto.
    - rewrite Hd. apply Hbd. destruct o; [now left | right].
      destruct ks; [| discriminate].
      destruct (Dependencies x); [reflexivity | discriminate]. }
  set (y4 := set_hasManifest true y').
  set (h4 := <[q := y4]> hb ++ ext).
  assert (Hlen : q < length hb) by (eapply lookup_lt_Some; eauto).
  assert (Hrepr4 : repr_from 0 h4 q (prune t)).
  { rewrite <- Hroot.
    replace (Name y') with (Name y4) by reflexivity.
    replace (Version y') with (Version y4) by reflexivity.
    replace (Reference y') with (Reference y4) by reflexivity.
    replace (URL y') with (URL y4) by reflexivity.
    constructor; [lia | |].
    - unfold h4. rewrite lookup_app_l by (now rewrite length_insert).
      eapply lookup_insert_same; eauto.
    - change (Dependencies y4) with (Dependencies y').
      eapply Forall2_impl; [exact Hkids |].
      intros p k Hpk. apply (repr_from_weaken (length hb)); [lia |].
      unfold h4.
      replace (<[q := y4]> hb ++ ext) with (<[q := y4]> (<[q := y']> hb ++ ext)).
      + apply repr_from_insert; [exact Hlen | exact Hpk].
      + rewrite insert_app_l by (now rewrite length_insert).
        now rewrite list_insert_insert_eq. }
  destruct (updateDepsParents_repr 0 (prune t) fuel q h4) as (h' & Hudp & Hsbp);
    [pose proof (depth_prune t); lia | exact Hrepr4 |].
  assert (Hy4 : h4 !! q = Some y4).
  { unfold h4. rewrite lookup_app_l by (now rewrite length_insert).
    eapply lookup_insert_same; eauto. }
  destruct (Hsbp q y4 Hy4) as (y2 & Hy2 & Hn2 & Hv2 & Hr2 & Hu2 & _ & Hm2).
  exists (mkState (world sl) h' (trace sl)), y2.
  assert (Hfields : Name y' = Name x /\ Version y' = Version x /\
                    Reference y' = Reference x /\ URL y' = URL x).
  { cbn [prune t] in Hroot. injection Hroot as H1 H2 H3 H4. auto. }
  destruct Hfields as (Hn' & Hv' & Hr' & Hu').
  assert (Hrepr : repr h' q (prune t)).
  { eapply repr_from_same_but_parent; eauto. }
  split; [| split; [exact Hy2 |]].
  - unfold LoadManifest. rewrite (getPkg_Some _ _ _ Hy). cbn [bind].
    rewrite (modPkg_insert sl q _ y Hy).
    rewrite (modPkg_insert _ q g (set_hasManifest false y))
      by (simpl; eapply lookup_insert_same; eauto).
    cbn [world heap trace]. rewrite list_insert_insert_eq.
    fold yb. fold hb.
    unfold getPkg. cbn [heap]. rewrite (deref_Some _ _ _ Hhb). cbn [bind].
    cbn [world]. rewrite Hf, Hfile, Hw, Hread, Hcodec.
    unfold set_heap, modPkg. cbn [world heap trace set_heap].
    rewrite Hum.
    rewrite alter_app_l by (now rewrite length_insert).
    rewrite (alter_as_insert _ _ _ y') by (eapply lookup_insert_same; eauto).
    rewrite list_insert_insert_eq.
    fold y4. fold h4. rewrite Hudp. reflexivity.
  - cbn [heap].
    split; [rewrite Hn2; exact Hn' |]. split; [rewrite Hv2; exact Hv' |].
    split; [rewrite Hr2; exact Hr' |]. split; [rewrite Hu2; exact Hu' |].
    split; [rewrite Hm2; reflexivity |].
    split; [exact Hrepr |].
    intros Hno. rewrite <- (prune_no_owner t Hno). exact Hrepr.
Qed.

End RoundTrip.


(** ** The properties on the sample world *)

Section VCSFrame.

Context {World Data : Type} (E : Env World Data).

(** [VCS] leaves the version constraint of every node as it is: what
    [RepoURL] writes into its copy of the node is lost. *)
Lemma VCS_keeps_Version (st st1 : State World) p r e q x :
  VCS E p st = Ret (r, e, st1) ->
  heap st !! q = Some x ->
  exists x1, heap st1 !! q = Some x1 /\ Version x1 = Version x.
Proof.
  intros Hv Hq. destruct (VCS_inv _ _ _ _ _ _ Hv) as (y & Hy & ->).
  destruct (decide (p = q)) as [<- | Hne].
  - exists (set_repo r x). rewrite (lookup_modPkg_eq _ _ _ _ Hq). auto.
  - exists x. rewrite lookup_modPkg_ne by exact Hne. auto.
Qed.

End VCSFrame.

Module SampleFacts.

Import Sample.

Lemma assoc_head {A} k (v : A) l : assoc k ((k, v) :: l) = Some v.
Proof. simpl. now rewrite String.eqb_refl. Qed.

Lemma sample_codec_ok vendor sch : codec_ok (env vendor sch).
Proof. intros d. reflexivity. Qed.

Lemma sample_files_ok vendor sch : files_ok (env vendor sch).
Proof.
  intros w w' f data H. simpl in H. unfold WriteFile in H. injection H as <-.
  simpl. unfold ReadFile. simpl. now rewrite String.eqb_refl.
Qed.

Lemma sealed_no_manifest vendor sch : no_manifest (envSealed vendor sch).
Proof. intros w f. discriminate. Qed.

(** C1. A dirty checkout is not skipped: after the warning, [Checkout]
    goes on, tells the backend to update the working copy and pins
    the node to the new reference. *)
Theorem Checkout_dirty_is_not_skipped :
  vcs_IsDirty (env true eager) (world stDirty) xLocalRepo = true /\
  Reference <$> heap stDirty !! 1 = Some "" /\
  exists st',
    Checkout (env true eager) 3 1 stDirty = Ret (st', None) /\
    trace st' = [EvLog (LogSkipDirty "github.com/b/x");
                 EvUpdateVersion xLocalRepo "v2"] /\
    checkouts (world st') = (xPath, "v2") :: checkouts (world stDirty) /\
    Reference <$> heap st' !! 1 = Some "v2".
Proof.
  split; [reflexivity |]. split; [reflexivity |].
  eexists. split; [vm_compute; reflexivity |].
  split; [reflexivity |]. split; reflexivity.
Qed.

(** C2. For [gopkg.in/user/pkg.v3] the URL is built and the suffix
    [v3] is written into the copy that [RepoURL] works on, but the
    node keeps its empty version constraint, through [VCS] and
    through a whole [Install]. *)
Theorem RepoURL_suffix_is_lost :
  let p := set_parent (Some 0) (NewPkg "gopkg.in/user/pkg.v3") in
  RepoURL (env true eager) wPlain p
    = Ret ("git@github.com:user/pkg.git", set_Version "v3" p) /\
  (exists r st', VCS (env true eager) 1 stGopkg = Ret (Some r, None, st') /\
                 Remote r = "git@github.com:user/pkg.git" /\
                 Version <$> heap st' !! 1 = Some "") /\
  (exists st' e, Install (env true eager) 3 1 stGopkg = Ret (st', e) /\
                 Version <$> heap st' !! 1 = Some "").
Proof.
  split; [reflexivity |]. split.
  - eexists _, _. split; [vm_compute; reflexivity |]. split; reflexivity.
  - eexists _, _. split; [vm_compute; reflexivity |]. reflexivity.
Qed.

(** C3 fails as stated: after a failed fetch, [Checkout] is no no-op.
    Here it erases the pinned reference of the node and sets its
    manifest file name. *)
Lemma Checkout_after_failed_fetch_is_no_noop :
  exists st3 st4 ce e,
    st3 = (fetched (env true eager) 1 xRepo (depX "" "v1.2.0") stPinned).1 /\
    trace st3 = [EvLog (LogInstalling "github.com/b/x"); EvGet xRepo;
                 EvLog (LogInstallFailed "github.com/b/x" e xPath)] /\
    Install (env true eager) 3 1 stPinned = Ret (st4, Some e) /\
    Checkout (env true eager) 3 1 st3 = Ret (st4, ce) /\
    Reference <$> heap st3 !! 1 = Some "v1.2.0" /\
    Reference <$> heap st4 !! 1 = Some "" /\
    heap st4 !! 1 <> heap st3 !! 1.
Proof.
  eexists _, _, _, _. split; [reflexivity |].
  split; [vm_compute; reflexivity |].
  split; [vm_compute; reflexivity |].
  split; [vm_compute; reflexivity |].
  split; [reflexivity |]. split; [reflexivity |].
  vm_compute. discriminate.
Qed.

(** C4 fails as stated: a manifest loaded during [Checkout] brings in
    a node named as the root and a node named as a subpackage of the
    node that depends on it. *)
Lemma Init_with_manifest_breaks_graph :
  exists st',
    InitMeta (env true eager) 3 0 (stFresh wManifest) = Ret st' /\
    ~ no_ancestor_name (heap st') /\ ~ no_self_dependency (heap st') /\
    ~ graph_ok (heap st').
Proof.
  eexists. split; [vm_compute; reflexivity |].
  match goal with
  | |- ~ no_ancestor_name ?g /\ _ => set (h := g)
  end.
  vm_compute in h.
  assert (H1 : ~ no_ancestor_name h).
  { intros H. eapply (H 2 0); [| reflexivity | reflexivity | reflexivity].
    eapply ancestor_step; [reflexivity | reflexivity |].
    eapply ancestor_parent; reflexivity. }
  assert (H2 : ~ no_self_dependency h).
  { intros H.
    assert (Hx : exists xn xd, h !! 1 = Some xn /\ 3 ∈ Dependencies xn /\
                               h !! 3 = Some xd /\
                               subpackage (Name xd) (Name xn) = true).
    { eexists _, _. split; [reflexivity |].
      split; [apply list_elem_of_In; right; left; reflexivity |].
      split; reflexivity. }
    destruct Hx as (xn & xd & Hn & Hd & Hxd & Hs).
    destruct (H 1 xn 3 xd Hn Hd Hxd) as [_ Hf]. congruence. }
  split; [exact H1 |]. split; [exact H2 |]. intros [H _]. exact (H1 H).
Qed.

End SampleFacts.


(** ** The theorems at work on the sample world *)

Module SampleRuns.

Import Sample.

Lemma vendoring_gate_witness :
  vendoring (env false eager) = false /\
  resolveImportsRecursive (env false eager) 3 wSources "github.com/a/app"
    ["fmt"; "github.com/b/x"] = Ret ([], []).
Proof.
  split; [reflexivity |].
  apply (vendoring_gate (env false eager)). reflexivity.
Defined.

Lemma resolveImports_witness :
  import_depth_le (env true eager) wSources 3 ["fmt"; "github.com/b/x"] /\
  exists u probes,
    resolveImportsRecursive (env true eager) 3 wSources "github.com/a/app"
      ["fmt"; "github.com/b/x"] = Ret (u, probes) /\
    (forall fuel r,
        resolveImportsRecursive (env true eager) fuel wSources "github.com/a/app"
          ["fmt"; "github.com/b/x"] = Ret r -> r = (u, probes)) /\
    StronglySorted string_lt u /\ NoDup u.
Proof.
  assert (H : import_depth_le (env true eager) wSources 3 ["fmt"; "github.com/b/x"]).
  { repeat first [discriminate | progress simpl | constructor | progress intros]. }
  split; [exact H |].
  exact (resolveImports_sorted_unique_deterministic (env true eager) wSources
           "github.com/a/app" ["fmt"; "github.com/b/x"] 3 H).
Defined.

Lemma root_is_never_touched_witness :
  heap (stFresh wPlain) !! 0 = Some app /\
  parent app = None /\
  Install (env true eager) 3 0 (stFresh wPlain) = Ret (stFresh wPlain, None) /\
  Checkout (env true eager) 3 0 (stFresh wPlain) = Ret (stFresh wPlain, None).
Proof.
  split; [reflexivity |]. split; [reflexivity |].
  apply (root_is_never_touched (env true eager) 3 0 (stFresh wPlain) app); reflexivity.
Defined.

Lemma Install_returns_fetch_result_witness :
  VCS (env true eager) 1 stUnknownRef
    = Ret (Some xLocalRepo, None,
           mkState (wInstalled false)
             [appWithX; set_repo (Some xLocalRepo) (depX "no-such-ref" "")] []) /\
  exists st3 : State SWorld,
    heap st3 = <[1 := set_path (LocalPath xLocalRepo)
                        (set_installed
                           (vcs_CheckLocal (env true eager) (world stUnknownRef) xLocalRepo)
                           (set_repo (Some xLocalRepo) (depX "no-such-ref" "")))]>
                 (heap stUnknownRef) /\
    (forall st' ce,
        Checkout (env true eager) 3 1 st3 = Ret (st', ce) ->
        Install (env true eager) 3 1 stUnknownRef
          = Ret (st', fetch_result (env true eager) (world stUnknownRef) xLocalRepo)) /\
    (forall st' e,
        Install (env true eager) 3 1 stUnknownRef = Ret (st', e) ->
        e = fetch_result (env true eager) (world stUnknownRef) xLocalRepo /\
        exists ce, Checkout (env true eager) 3 1 st3 = Ret (st', ce)).
Proof.
  assert (Hv : VCS (env true eager) 1 stUnknownRef
               = Ret (Some xLocalRepo, None,
                      mkState (wInstalled false)
                        [appWithX; set_repo (Some xLocalRepo) (depX "no-such-ref" "")] []))
    by reflexivity.
  split; [exact Hv |].
  exact (Install_returns_fetch_result (env true eager) 3 1 stUnknownRef _
           (depX "no-such-ref" "") 0 xLocalRepo eq_refl eq_refl Hv).
Defined.

(** On that input [Checkout] fails and [Install] returns no error. *)
Example Install_hides_checkout_failure :
  exists st' st'' e,
    Checkout (env true eager) 3 1 stUnknownRef = Ret (st', Some e) /\
    Install (env true eager) 3 1 stUnknownRef = Ret (st'', None).
Proof. eexists _, _, _. split; vm_compute; reflexivity. Qed.

Lemma Install_idempotent_witness :
  vcs_CheckLocal (env true eager) (world stAtTarget) xLocalRepo = true /\
  vcs_IsDirty (env true eager) (world stAtTarget) xLocalRepo = false /\
  vcs_IsReference (env true eager) (world stAtTarget) xLocalRepo (target (depX "v1" ""))
    = true /\
  exists (st' : State SWorld) (x' : Pkg),
    Install (env true eager) 3 1 stAtTarget = Ret (st', None) /\
    world st' = world stAtTarget /\
    trace st' = trace stAtTarget ++ [EvLog (LogOK (Name (depX "v1" "")))] /\
    heap st' = <[1 := x']> (heap stAtTarget) /\
    x' = set_path (LocalPath xLocalRepo)
           (set_installed true (set_repo (Some xLocalRepo) (depX "v1" ""))) /\
    Reference x' = Reference (depX "v1" "") /\
    Version x' = Version (depX "v1" "").
Proof.
  split; [reflexivity |]. split; [reflexivity |]. split; [reflexivity |].
  refine (Install_idempotent (env true eager) 3 1 stAtTarget _ (depX "v1" "") 0
            xLocalRepo eq_refl eq_refl _ eq_refl eq_refl eq_refl).
  reflexivity.
Defined.

Lemma Install_fetch_failure_witness :
  vcs_CheckLocal (env true eager) (world stPinned) xRepo = false /\
  vcs_Get (env true eager) (world stPinned) xRepo
    = (wOffline, Some (ExtErr "unable to get repository")) /\
  let e := ExtErr "unable to get repository" in
  let x4 := set_path xPath
              (set_Reference ""
                 (set_installed false (set_repo (Some xRepo) (depX "" "v1.2.0")))) in
  let tr4 := [EvLog (LogInstalling "github.com/b/x"); EvGet xRepo;
              EvLog (LogInstallFailed "github.com/b/x" e xPath)] in
  installed x4 = false /\
  Install (env true eager) 3 1 stPinned =
    (do l <- LoadManifest (env true eager) 3 1 (mkState wOffline [appWithX; x4] tr4);
     do y <- getPkg l.1 1;
     if hasManifest y then Ret (l.1, Some e)
     else match parent y with
          | None => Panics
          | Some q =>
              do ms <- Meta (env true eager) q l.1;
              do st5 <- Init (env true eager) 3 q ms.1 ms.2;
              Ret (st5, Some e)
          end) /\
  (forall er,
     (ioutil_ReadFile (env true eager) wOffline (load_file (env true eager) x4)).2
     = Some er ->
     Install (env true eager) 3 1 stPinned =
       (do ms <- Meta (env true eager) 0
                   (mkState wOffline [appWithX; manifest_reset x4] tr4);
        do st5 <- Init (env true eager) 3 0 ms.1 ms.2;
        Ret (st5, Some e))).
Proof.
  split; [reflexivity |]. split; [reflexivity |].
  refine (Install_fetch_failure (env true eager) 3 1 stPinned _ (depX "" "v1.2.0") 0
            xRepo wOffline (ExtErr "unable to get repository")
            eq_refl eq_refl _ eq_refl eq_refl eq_refl).
  reflexivity.
Defined.

Lemma Init_without_manifest_witness :
  no_manifest (envSealed true lazy) /\
  exists st',
    InitMeta (envSealed true lazy) 3 0 (stFresh wPlain) = Ret st' /\
    length (heap st') = 2 /\
    graph_ok (heap st').
Proof.
  split; [apply SampleFacts.sealed_no_manifest |].
  eexists. split; [vm_compute; reflexivity |]. split; [reflexivity |].
  apply (Init_without_manifest_graph_ok (envSealed true lazy) 3 (stFresh wPlain) _ app
           (SampleFacts.sealed_no_manifest true lazy) eq_refl eq_refl eq_refl).
  vm_compute. reflexivity.
Defined.

Lemma manifest_round_trip_witness :
  exists (t : Tree) (st1 st2 : State SWorld) (y2 : Pkg),
    subtree 3 treeHeap (set_manifestFile "vgo.yaml"
                          (set_path "/work" (set_Version "1.*" appWithX))) = Ret t /\
    SaveManifest (env true eager) 3
      (set_manifestFile "vgo.yaml" (set_path "/work" (set_Version "1.*" appWithX)))
      (stTree treeHeap) = Ret (st1, None) /\
    LoadManifest (env true eager) 3 0 (mkState (world st1) [freshApp] [])
      = Ret (st2, None) /\
    heap st2 !! 0 = Some y2 /\
    Name y2 = "github.com/a/app" /\ Version y2 = "1.*" /\
    Reference y2 = "" /\ URL y2 = "" /\
    hasManifest y2 = true /\
    repr (heap st2) 0 (prune t) /\
    (no_owner t = true -> repr (heap st2) 0 t).
Proof.
  set (x := set_manifestFile "vgo.yaml"
              (set_path "/work" (set_Version "1.*" appWithX))).
  assert (Ht : exists t, subtree 3 treeHeap x = Ret t)
    by (eexists; vm_compute; reflexivity).
  destruct Ht as [t Ht].
  assert (Hs : exists st1, SaveManifest (env true eager) 3 x (stTree treeHeap)
                           = Ret (st1, None))
    by (eexists; vm_compute; reflexivity).
  destruct Hs as [st1 Hs].
  destruct (manifest_round_trip (env true eager) 3 (stTree treeHeap) st1
              (mkState (world st1) [freshApp] []) x t 0 freshApp
              (SampleFacts.sample_codec_ok true eager)
              (SampleFacts.sample_files_ok true eager)
              Ht Hs eq_refl eq_refl) as (st2 & y2 & H).
  - repeat split; intros; try reflexivity; discriminate.
  - reflexivity.
  - exists t, st1, st2, y2. split; [exact Ht |]. split; [exact Hs |]. exact H.
Defined.

(** On that graph the middle node owns a manifest: what comes back
    stops at it, and the node below it is gone. *)
Example manifest_round_trip_pruned :
  exists st1 st2,
    SaveManifest (env true eager) 3
      (set_manifestFile "vgo.yaml" (set_path "/work" (set_Version "1.*" appWithX)))
      (stTree treeHeap) = Ret (st1, None) /\
    LoadManifest (env true eager) 3 0 (mkState (world st1) [freshApp] [])
      = Ret (st2, None) /\
    Name <$> heap st2 = ["github.com/a/app"; "github.com/b/x"] /\
    Dependencies <$> heap st2 = [[1]; []].
Proof.
  eexists _, _. split; [vm_compute; reflexivity |].
  split; [vm_compute; reflexivity |]. split; reflexivity.
Qed.

(** Where no node owns a manifest the whole subtree comes back. *)
Example manifest_round_trip_full :
  exists st1 st2,
    SaveManifest (env true eager) 3
      (set_manifestFile "vgo.yaml" (set_path "/work" (set_Version "1.*" appWithX)))
      (stTree plainHeap) = Ret (st1, None) /\
    LoadManifest (env true eager) 3 0 (mkState (world st1) [freshApp] [])
      = Ret (st2, None) /\
    Name <$> heap st2 = ["github.com/a/app"; "github.com/b/x"; "github.com/c/z"] /\
    Dependencies <$> heap st2 = [[1]; [2]; []].
Proof.
  eexists _, _. split; [vm_compute; reflexivity |].
  split; [vm_compute; reflexivity |]. split; reflexivity.
Qed.

End SampleRuns.


(** * Further properties of [pkg.go] *)

(** ** [Find] *)

Section FindFacts.

Variable h : list Pkg.
Variable name : string.

Lemma Find_in_Some deps d :
  Find_in h deps name = Ret (Some d) -> first_named h deps name d.
Proof.
  induction deps as [| k rest IH]; simpl; [discriminate |].
  intros H. inv_bind H. apply deref_Ret in Ha.
  destruct (String.eqb (Name a) name) eqn:Hn.
  - injection H as <-. apply String.eqb_eq in Hn.
    exists [], rest, a. repeat split; auto.
  - destruct (IH H) as (l1 & l2 & y & -> & Hy & Hname & Hl1).
    exists (k :: l1), l2, y. repeat split; auto.
    constructor; [| exact Hl1]. exists a. split; [exact Ha |].
    now apply String.eqb_neq.
Qed.

Lemma Find_in_None deps :
  Find_in h deps name = Ret None -> none_named h deps name.
Proof.
  induction deps as [| k rest IH]; simpl; [constructor |].
  intros H. inv_bind H. apply deref_Ret in Ha.
  destruct (String.eqb (Name a) name) eqn:Hn; [discriminate |].
  constructor; [| now apply IH]. exists a. split; [exact Ha |].
  now apply String.eqb_neq.
Qed.

Lemma first_named_Find_in deps d :
  first_named h deps name d -> Find_in h deps name = Ret (Some d).
Proof.
  intros (l1 & l2 & y & -> & Hy & Hname & Hl1).
  induction Hl1 as [| k l1 (yk & Hk & Hne) _ IH]; simpl.
  - rewrite (deref_Some _ _ _ Hy). simpl.
    apply String.eqb_eq in Hname. now rewrite Hname.
  - rewrite (deref_Some _ _ _ Hk). simpl.
    apply String.eqb_neq in Hne. now rewrite Hne.
Qed.

Lemma none_named_Find_in deps :
  none_named h deps name -> Find_in h deps name = Ret None.
Proof.
  induction 1 as [| k l (yk & Hk & Hne) _ IH]; simpl; [reflexivity |].
  rewrite (deref_Some _ _ _ Hk). simpl.
  apply String.eqb_neq in Hne. now rewrite Hne.
Qed.

Lemma Find_from_Some : forall fuel x d,
  Find_from fuel h x name = Ret (Some d) -> found_at h name x d.
Proof.
  induction fuel as [| n IH]; intros x d H; [discriminate |].
  cbn [Find_from] in H. inv_bind H.
  destruct a as [d' |].
  - injection H as <-. apply found_here. now apply Find_in_Some.
  - apply Find_in_None in Ha.
    destruct (parent x) as [q |] eqn:Hq; [| discriminate].
    inv_bind H. apply deref_Ret in Ha0.
    eapply found_up; eauto.
Qed.

Lemma Find_from_None : forall fuel x,
  Find_from fuel h x name = Ret None -> absent h name x.
Proof.
  induction fuel as [| n IH]; intros x H; [discriminate |].
  cbn [Find_from] in H. inv_bind H.
  destruct a as [d' |]; [discriminate |].
  apply Find_in_None in Ha.
  destruct (parent x) as [q |] eqn:Hq.
  - inv_bind H. apply deref_Ret in Ha0. eapply absent_up; eauto.
  - now apply absent_top.
Qed.

(** X1. What [Find] returns is the nearest node of that name: the first
    such dependency of the node itself if there is one, else of its
    parent, and so on up; every dependency passed over has another
    name. *)
Theorem Find_returns_nearest (x : Pkg) (d : nat) :
  Find h x name = Ret (Some d) -> found_at h name x d.
Proof. apply Find_from_Some. Qed.

(** X2. When [Find] returns nil, no dependency of the node, of its
    parent or of any node further up has that name. *)
Theorem Find_nil_means_absent (x : Pkg) :
  Find h x name = Ret None -> absent h name x.
Proof. apply Find_from_None. Qed.

Lemma found_at_Find_from (Hord : heap_ordered h) : forall y d,
  found_at h name y d ->
  forall q fuel, h !! q = Some y -> q < fuel ->
  Find_from fuel h y name = Ret (Some d).
Proof.
  induction 1 as [x d Hf | x q' y d Hn Hp Hy _ IH]; intros q fuel Hq Hlt.
  - destruct fuel as [| n]; [lia |]. cbn [Find_from].
    now rewrite (first_named_Find_in _ _ Hf).
  - destruct fuel as [| n]; [lia |]. cbn [Find_from].
    rewrite (none_named_Find_in _ Hn). cbn [bind]. rewrite Hp.
    rewrite (deref_Some _ _ _ Hy). cbn [bind].
    apply (IH q'); [exact Hy |].
    pose proof (Hord q x q' Hq Hp). lia.
Qed.

Lemma absent_Find_from (Hord : heap_ordered h) : forall y,
  absent h name y ->
  forall q fuel, h !! q = Some y -> q < fuel ->
  Find_from fuel h y name = Ret None.
Proof.
  induction 1 as [x Hn Hp | x q' y Hn Hp Hy _ IH]; intros q fuel Hq Hlt.
  - destruct fuel as [| n]; [lia |]. cbn [Find_from].
    rewrite (none_named_Find_in _ Hn). cbn [bind]. now rewrite Hp.
  - destruct fuel as [| n]; [lia |]. cbn [Find_from].
    rewrite (none_named_Find_in _ Hn). cbn [bind]. rewrite Hp.
    rewrite (deref_Some _ _ _ Hy). cbn [bind].
    apply (IH q'); [exact Hy |].
    pose proof (Hord q x q' Hq Hp). lia.
Qed.

(** X3. In a heap where every node lies above its parent, [Find] on a
    node of the heap returns the nearest node of that name whenever
    there is one, and nil whenever there is none: it neither panics nor
    runs for ever. *)
Theorem Find_complete_on_ordered_heap (p : nat) (x : Pkg) :
  heap_ordered h ->
  h !! p = Some x ->
  (forall d, found_at h name x d -> Find h x name = Ret (Some d)) /\
  (absent h name x -> Find h x name = Ret None).
Proof.
  intros Hord Hp.
  assert (Hlt : p < S (length h)) by (apply lookup_lt_Some in Hp; lia).
  split.
  - intros d Hf. exact (found_at_Find_from Hord _ _ Hf p _ Hp Hlt).
  - intros Ha. exact (absent_Find_from Hord _ Ha p _ Hp Hlt).
Qed.

End FindFacts.

(** ** [Root] and [IsInGoPath] *)

Lemma Root_from_spec h : forall fuel p r,
  Root_from fuel h p = Ret r ->
  (exists xr, h !! r = Some xr /\ parent xr = None) /\ (r = p \/ ancestor h r p).
Proof.
  induction fuel as [| n IH]; intros p r H; [discriminate |].
  cbn [Root_from] in H. inv_bind H. apply deref_Ret in Ha.
  destruct (parent a) as [q |] eqn:Hq.
  - destruct (IH _ _ H) as [Hr [-> | Hanc]].
    + split; [exact Hr |]. right. eapply ancestor_parent; eauto.
    + split; [exact Hr |]. right. eapply ancestor_step; eauto.
  - injection H as <-. split; [eauto | now left].
Qed.

(** X4. The node [Root] returns has no parent, and it is the node
    itself or one of its ancestors. *)
Theorem Root_is_parentless_ancestor (h : list Pkg) (p r : nat) :
  Root h p = Ret r ->
  (exists xr, h !! r = Some xr /\ parent xr = None) /\ (r = p \/ ancestor h r p).
Proof. apply Root_from_spec. Qed.

Section GoPathFacts.

Context {World Data : Type} (E : Env World Data).

Lemma IsInGoPath_from_Root h : forall fuel p r x xr,
  Root_from fuel h p = Ret r ->
  h !! p = Some x -> h !! r = Some xr ->
  IsInGoPath_from E fuel h x = Ret (strings.HasPrefix (path xr) (gosrcpath E)).
Proof.
  induction fuel as [| n IH]; intros p r x xr H Hp Hr; [discriminate |].
  cbn [Root_from] in H. rewrite (deref_Some _ _ _ Hp) in H. cbn [bind] in H.
  cbn [IsInGoPath_from].
  destruct (parent x) as [q |] eqn:Hq.
  - destruct n as [| n']; [discriminate |].
    assert (Hq' : exists y, h !! q = Some y).
    { cbn [Root_from] in H. destruct (h !! q) eqn:Hy; [eauto |].
      unfold deref in H. rewrite Hy in H. discriminate. }
    destruct Hq' as [y Hy]. rewrite (deref_Some _ _ _ Hy). cbn [bind].
    eapply IH; eauto.
  - injection H as <-. assert (xr = x) by congruence. now subst.
Qed.

(** X5. Whether a node is in the GOPATH is decided by its root alone:
    [IsInGoPath] tells whether the path of the node that [Root] returns
    begins with the source directory of the GOPATH. *)
Theorem IsInGoPath_is_that_of_Root (h : list Pkg) (p r : nat) (x xr : Pkg) :
  Root h p = Ret r ->
  h !! p = Some x ->
  h !! r = Some xr ->
  IsInGoPath E h x = Ret (strings.HasPrefix (path xr) (gosrcpath E)).
Proof. apply IsInGoPath_from_Root. Qed.

End GoPathFacts.

Lemma Root_from_ordered h (Hord : heap_ordered h) : forall fuel p x,
  h !! p = Some x -> p < fuel ->
  exists r, Root_from fuel h p = Ret r /\ r <= p.
Proof.
  induction fuel as [| n IH]; intros p x Hp Hlt; [lia |].
  cbn [Root_from]. rewrite (deref_Some _ _ _ Hp). cbn [bind].
  destruct (parent x) as [q |] eqn:Hq; [| eauto].
  pose proof (Hord p x q Hp Hq) as Hqp.
  assert (Hq' : exists y, h !! q = Some y).
  { apply lookup_lt_is_Some. apply lookup_lt_Some in Hp. lia. }
  destruct Hq' as [y Hy].
  destruct (IH q y Hy) as (r & Hr & Hle); [lia |].
  exists r. split; [exact Hr | lia].
Qed.

(** X6. In a heap where every node lies above its parent, [Root]
    returns for every node of the heap. *)
Theorem Root_returns_on_ordered_heap (h : list Pkg) (p : nat) (x : Pkg) :
  heap_ordered h ->
  h !! p = Some x ->
  exists r, Root h p = Ret r /\ r <= p.
Proof.
  intros Hord Hp. apply (Root_from_ordered h Hord _ p x Hp).
  apply lookup_lt_Some in Hp. lia.
Qed.

(** ** [Meta] and [VCS]: memoised lookups *)

Section MemoFacts.

Context {World Data : Type} (E : Env World Data).

Local Abbreviation State := (State World).

Lemma set_meta_same v x : meta x = v -> set_meta v x = x.
Proof. destruct x; simpl; now intros ->. Qed.

(** X7. [Meta] is memoised: once it has returned a package, a second
    call returns the same package and leaves the state as it is. The
    first call changes nothing but the [meta] field of its node, and it
    logs at most one line, never for a [NoGoError]. *)
Theorem Meta_is_memoised (p : nat) (st st1 : State) (m : Package) :
  Meta E p st = Ret (m, st1) ->
  Meta E p st1 = Ret (m, st1) /\
  world st1 = world st /\
  (exists x, heap st !! p = Some x /\ heap st1 = <[p := set_meta (Some m) x]> (heap st)) /\
  (trace st1 = trace st \/
   exists fqn e, trace st1 = trace st ++ [EvLog (LogImportFailed fqn e)] /\
                 forall d, e <> NoGoError d).
Proof.
  unfold Meta. intros H. inv_bind H. apply getPkg_Ret in Ha.
  destruct (meta a) as [m0 |] eqn:Hm.
  - injection H as <- <-. rewrite (getPkg_Some _ _ _ Ha). cbn [bind]. rewrite Hm.
    repeat split; auto.
    exists a. split; [exact Ha |].
    rewrite (set_meta_same _ _ Hm). symmetry. now apply list_insert_id.
  - inv_bind H.
    destruct (build_Import E (world st) a0 (cwd E)) as [m1 err].
    injection H as <- <-.
    assert (Hh : forall s : State, heap s = heap st ->
               heap (modPkg p (set_meta (Some m1)) s)
               = <[p := set_meta (Some m1) a]> (heap st)).
    { intros s Hs. simpl. rewrite Hs. now apply alter_as_insert. }
    assert (Hget : forall s : State, heap s = heap st ->
               getPkg (modPkg p (set_meta (Some m1)) s) p = Ret (set_meta (Some m1) a)).
    { intros s Hs. unfold getPkg. rewrite (Hh s Hs).
      apply deref_Some. eapply lookup_insert_same; eauto. }
    destruct err as [[msg | dir | nm cause] |]; cbn [bind];
      (rewrite Hget by reflexivity; cbn [bind meta set_meta];
       split; [reflexivity |]; split; [reflexivity |];
       split; [exists a; split; [exact Ha | now apply Hh] |]).
    + right. exists a0, (ExtErr msg). split; [reflexivity | discriminate].
    + now left.
    + right. exists a0, (ResolveErr nm cause). split; [reflexivity | discriminate].
    + now left.
Qed.

(** X8. [VCS] fetches nothing and logs nothing: it leaves the world and
    the trace alone and changes the [repo] field of its node only. A
    handle it has returned is memoised: the next call returns it again,
    with a nil error, and changes nothing. A failure to resolve is not
    memoised: the state is left as it was. *)
Theorem VCS_is_memoised (p : nat) (st st1 : State) (r : option Repo) (e : option error) :
  VCS E p st = Ret (r, e, st1) ->
  world st1 = world st /\ trace st1 = trace st /\
  (exists x, heap st !! p = Some x /\ heap st1 = <[p := set_repo r x]> (heap st)) /\
  match r with
  | Some r0 => VCS E p st1 = Ret (Some r0, None, st1)
  | None => st1 = st
  end.
Proof.
  intros H. destruct (VCS_inv _ _ _ _ _ _ H) as (x & Hx & ->).
  split; [reflexivity |]. split; [reflexivity |].
  split; [exists x; split; [exact Hx | now apply alter_as_insert] |].
  destruct r as [r0 |].
  - eapply VCS_cached; [apply lookup_modPkg_eq; exact Hx | reflexivity].
  - eapply modPkg_id; [exact Hx |]. apply set_repo_same.
    unfold VCS in H. rewrite (getPkg_Some _ _ _ Hx) in H. cbn [bind] in H.
    destruct (repo x); [discriminate | reflexivity].
Qed.

End MemoFacts.

(** ** Resolving the handle: names that cannot be resolved *)

Section ResolveFacts.

Context {World Data : Type} (E : Env World Data).

Local Abbreviation State := (State World).

Lemma RepoURL_short_name (w : World) (x : Pkg) (p0 : string) (rest : list string) :
  URL x = "" -> not_on_disk E w x ->
  strings.Split (Name x) "/" = p0 :: rest -> known_host p0 -> length rest < 2 ->
  RepoURL E w x = Panics.
Proof.
  intros Hu Hd Hs Hk Hl. unfold RepoURL. rewrite Hu.
  change (negb (String.eqb "" "")) with false. cbv iota zeta.
  unfold not_on_disk in Hd. rewrite Hd, Hs.
  assert (Hlen : Nat.leb 3 (length (p0 :: rest)) = false).
  { apply Nat.leb_gt. simpl. lia. }
  assert (H2 : (p0 :: rest) !! 2 = None).
  { apply lookup_ge_None. simpl. lia. }
  destruct Hk as [-> | [-> | ->]]; simpl String.eqb; cbv iota.
  - now rewrite Hlen.
  - now rewrite H2.
  - now rewrite H2.
Qed.

(** X9. A node that is not the root, has no URL of its own and no
    checkout on disk, and whose name begins with github.com, golang.org
    or gopkg.in but has fewer than three segments, cannot be installed:
    [RepoURL] indexes the segments out of range, so [RepoURL], [Install]
    and [Checkout] all panic. *)
Theorem Install_short_name_panics
    (fuel p par : nat) (st : State) (x : Pkg) (p0 : string) (rest : list string) :
  heap st !! p = Some x -> parent x = Some par -> repo x = None ->
  URL x = "" -> not_on_disk E (world st) x ->
  strings.Split (Name x) "/" = p0 :: rest -> known_host p0 -> length rest < 2 ->
  RepoURL E (world st) x = Panics /\
  Install E fuel p st = Panics /\ Checkout E fuel p st = Panics.
Proof.
  intros Hx Hp Hr Hu Hd Hs Hk Hl.
  pose proof (RepoURL_short_name _ _ _ _ Hu Hd Hs Hk Hl) as HU.
  assert (HV : VCS E p st = Panics).
  { unfold VCS. rewrite (getPkg_Some _ _ _ Hx). cbn [bind]. rewrite Hr, HU. reflexivity. }
  split; [exact HU |].
  unfold Install, Checkout, Install_, Checkout_.
  rewrite (getPkg_Some _ _ _ Hx). cbn [bind]. rewrite Hp, HV. split; reflexivity.
Qed.

Lemma VCS_unknown_host (p : nat) (st : State) (x : Pkg) (p0 : string) (rest : list string) :
  heap st !! p = Some x -> repo x = None ->
  not_on_disk E (world st) x ->
  strings.Split (Name x) "/" = p0 :: rest -> unknown_host p0 ->
  VCS E p st = Ret (None, None, st).
Proof.
  intros Hx Hr Hd Hs (H1 & H2 & H3).
  unfold VCS. rewrite (getPkg_Some _ _ _ Hx). cbn [bind]. rewrite Hr.
  unfold not_on_disk in Hd.
  assert (HT : RepoType E (world st) x = NoVCS).
  { unfold RepoType. now rewrite Hd, Hs, H1, H2, H3. }
  assert (HU : exists u, RepoURL E (world st) x = Ret (u, x)).
  { unfold RepoURL. destruct (negb (String.eqb (URL x) "")); [eauto |].
    rewrite Hd, Hs, H1, H2, H3. eauto. }
  destruct HU as [u HU]. rewrite HU, HT. cbn [bind fst].
  f_equal. f_equal. eapply modPkg_id; [exact Hx |]. now apply set_repo_same.
Qed.

(** X10. A node that is not the root, has no checkout on disk and
    whose name begins with a host other than github.com, golang.org and
    gopkg.in is not installed, whether it has a URL of its own or not:
    [Install] returns the error that the repository could not be
    resolved, with a nil cause, and leaves the state as it was. *)
Theorem Install_unknown_host
    (fuel p par : nat) (st : State) (x : Pkg) (p0 : string) (rest : list string) :
  heap st !! p = Some x -> parent x = Some par -> repo x = None ->
  not_on_disk E (world st) x ->
  strings.Split (Name x) "/" = p0 :: rest -> unknown_host p0 ->
  Install E fuel p st = Ret (st, Some (ResolveErr (Name x) None)).
Proof.
  intros Hx Hp Hr Hd Hs Hh.
  unfold Install, Install_.
  rewrite (getPkg_Some _ _ _ Hx). cbn [bind]. rewrite Hp.
  rewrite (VCS_unknown_host _ _ _ _ _ Hx Hr Hd Hs Hh). cbn [bind].
  rewrite (getPkg_Some _ _ _ Hx). reflexivity.
Qed.

(** X11. For the same node [Checkout] panics: [VCS] returns a nil
    handle and a nil error, and [Checkout], which tests the error only,
    calls [IsDirty] on the nil handle. *)
Theorem Checkout_unknown_host_panics
    (fuel p par : nat) (st : State) (x : Pkg) (p0 : string) (rest : list string) :
  heap st !! p = Some x -> parent x = Some par -> repo x = None ->
  not_on_disk E (world st) x ->
  strings.Split (Name x) "/" = p0 :: rest -> unknown_host p0 ->
  Checkout E fuel p st = Panics.
Proof.
  intros Hx Hp Hr Hd Hs Hh.
  unfold Checkout, Checkout_.
  rewrite (getPkg_Some _ _ _ Hx). cbn [bind]. rewrite Hp.
  rewrite (VCS_unknown_host _ _ _ _ _ Hx Hr Hd Hs Hh). reflexivity.
Qed.

End ResolveFacts.

(** ** Checkout: what it returns and what a failed update leaves *)

Section CheckoutFacts.

Context {World Data : Type} (E : Env World Data).

Local Abbreviation State := (State World).

(** X12. When the backend fails to update the checkout to the target,
    [Checkout] returns that error, whatever the fuel: the update is
    recorded and the failure logged (after the warning for a dirty
    checkout, if any), the node is marked installed, and nothing else
    changes; its reference and path are kept, no manifest is read and
    the parent is not initialised again. *)
Theorem Checkout_update_failure
    (fuel p par : nat) (st : State) (x : Pkg) (r : Repo) (w' : World) (e : error) :
  heap st !! p = Some x -> parent x = Some par -> repo x = Some r ->
  vcs_CheckLocal E (world st) r = true ->
  vcs_IsReference E (world st) r (target x) = false ->
  vcs_UpdateVersion E (world st) r (target x) = (w', Some e) ->
  Checkout E fuel p st =
    Ret (mkState w' (<[p := set_installed true x]> (heap st))
                 ((if vcs_IsDirty E (world st) r
                   then trace st ++ [EvLog (LogSkipDirty (Name x))] else trace st)
                  ++ [EvUpdateVersion r (target x); EvLog (LogCheckoutFailed e)]),
         Some e).
Proof.
  intros Hx Hp Hr Hc Hi Hu. unfold Checkout.
  rewrite (Checkout_cached E _ _ _ _ _ _ _ Hx Hp Hr). cbv zeta.
  rewrite Hc, Hi, Hu. cbn [fst snd].
  unfold Logf, emit, set_world. cbn [world heap trace].
  now rewrite <- app_assoc.
Qed.

Lemma CheckoutFinish_error fuel init p r (st st' : State) oe :
  CheckoutFinish E fuel init p r st = Ret (st', oe) ->
  oe = (vcs_Version E (world st) r).2.
Proof.
  unfold CheckoutFinish. destruct (vcs_Version E (world st) r) as [ref err].
  intros H. inv_bind H. inv_bind H.
  destruct (negb (hasManifest a0)).
  - destruct (parent a0); [| discriminate].
    inv_bind H. inv_bind H. now injection H as _ <-.
  - now injection H as _ <-.
Qed.

(** X13. The error that [Checkout] returns comes from the backend
    alone: it is nil when the checkout is at the target, the error of
    the update when that fails, and else the error of [repo.Version()].
    A manifest that cannot be read or parsed and whatever the renewed
    [Init] of the parent does never show in the result. *)
Theorem Checkout_error_is_from_backend
    (fuel p par : nat) (st st' : State) (x : Pkg) (r : Repo) (oe : option error) :
  heap st !! p = Some x -> parent x = Some par -> repo x = Some r ->
  Checkout E fuel p st = Ret (st', oe) ->
  oe = checkout_error E (world st) r (target x).
Proof.
  intros Hx Hp Hr. unfold Checkout.
  rewrite (Checkout_cached E _ _ _ _ _ _ _ Hx Hp Hr). cbv zeta.
  unfold checkout_error.
  destruct (vcs_CheckLocal E (world st) r).
  - destruct (vcs_IsReference E (world st) r (target x)).
    + now intros [= _ <-].
    + destruct (vcs_UpdateVersion E (world st) r (target x)) as [w1 [e |]]; cbn [fst snd].
      * now intros [= _ <-].
      * intros H. apply CheckoutFinish_error in H. exact H.
  - intros H. apply CheckoutFinish_error in H. exact H.
Qed.

End CheckoutFacts.

(** ** The manifest store: what loading changes *)

Lemma Doc_ind' (P : Doc -> Prop) :
  (forall a b c u, P (mkDoc a b c None u)) ->
  (forall a b c ds u, Forall P ds -> P (mkDoc a b c (Some ds) u)) ->
  forall d, P d.
Proof.
  intros H0 H1. fix IH 1. intros [a b c [ds |] u]; [apply H1 | apply H0].
  induction ds as [| k ks IHks]; constructor; [apply IH | exact IHks].
Qed.

(** Decoding into the node at [q] leaves the other nodes of the heap
    alone, adds nodes at its end, and sets the fields of the node at
    [q] that the document has a key for. *)
Lemma Unmarshal_frame : forall d q h,
  q < length h ->
  length h <= length (Unmarshal d q h) /\
  (forall i, i < length h -> i <> q -> Unmarshal d q h !! i = h !! i) /\
  exists kids, Unmarshal d q h !! q = decodeFields d kids <$> h !! q /\
               (doc_deps d = None -> kids = None).
Proof.
  induction d as [a b c u | a b c ds u IH] using Doc_ind'; intros q h Hq;
    rewrite Unmarshal_eq; cbn [doc_deps].
  - rewrite length_alter. split; [lia |]. split.
    + intros i _ Hne. now rewrite list_lookup_alter_ne.
    + exists None. split; [apply list_lookup_alter_eq | reflexivity].
  - assert (HE : forall h0, length h0 <= length (UnmarshalElems ds h0).2 /\
                   forall i, i < length h0 -> (UnmarshalElems ds h0).2 !! i = h0 !! i).
    { clear q h Hq. induction IH as [| e l He _ IHl]; intros h0; cbn [UnmarshalElems].
      - simpl. auto.
      - fold UnmarshalElems.
        destruct (He (length h0) (h0 ++ [zeroPkg])) as (Hlen & Hfr & _).
        { rewrite length_app. simpl. lia. }
        rewrite length_app in Hlen, Hfr. simpl in Hlen, Hfr.
        destruct (IHl (Unmarshal e (length h0) (h0 ++ [zeroPkg]))) as (Hlen2 & Hfr2).
        destruct (UnmarshalElems l (Unmarshal e (length h0) (h0 ++ [zeroPkg])))
          as [ks h2]. cbn [snd] in *.
        split; [lia |]. intros i Hi.
        rewrite Hfr2 by lia. rewrite Hfr by lia. now apply lookup_app_l. }
    destruct (HE h) as (Hlen & Hfr).
    destruct (UnmarshalElems ds h) as [ks h1]. cbn [snd] in *.
    rewrite length_alter. split; [exact Hlen |]. split.
    + intros i Hi Hne. rewrite list_lookup_alter_ne by congruence. now apply Hfr.
    + exists (Some ks). split; [| discriminate].
      rewrite list_lookup_alter_eq. now rewrite Hfr.
Qed.

Lemma only_parent_refl h : only_parent h h.
Proof.
  split; [reflexivity |]. intros i y Hy. exists (parent y).
  split; [| now left]. rewrite Hy. now destruct y.
Qed.

Lemma set_parent_twice q1 q2 y : set_parent q2 (set_parent q1 y) = set_parent q2 y.
Proof. reflexivity. Qed.

Lemma only_parent_trans h1 h2 h3 :
  only_parent h1 h2 -> only_parent h2 h3 -> only_parent h1 h3.
Proof.
  intros [L12 H12] [L23 H23]. split; [congruence |].
  intros i y Hy.
  destruct (H12 i y Hy) as (q1 & Hy2 & Hq1).
  destruct (H23 i _ Hy2) as (q2 & Hy3 & Hq2).
  exists q2. rewrite set_parent_twice in Hy3. split; [exact Hy3 |].
  destruct Hq2 as [-> | (a & xa & -> & Ha & Hin)].
  - exact Hq1.
  - right. destruct (lookup_lt_is_Some_2 h1 a) as [xa1 Hxa1].
    { rewrite <- L12. eapply lookup_lt_Some; eauto. }
    destruct (H12 a xa1 Hxa1) as (qa & Hxa2 & _).
    assert (xa = set_parent qa xa1) by congruence. subst xa.
    exists a, xa1. auto.
Qed.

Lemma only_parent_alter h p x d :
  h !! p = Some x -> d ∈ Dependencies x ->
  only_parent h (alter (set_parent (Some p)) d h).
Proof.
  intros Hx Hd. split; [apply length_alter |].
  intros i y Hy. destruct (decide (d = i)) as [<- | Hne].
  - exists (Some p). rewrite list_lookup_alter_eq, Hy. split; [reflexivity |].
    right. exists p, x. auto.
  - exists (parent y). rewrite list_lookup_alter_ne by exact Hne.
    split; [| now left]. rewrite Hy. now destruct y.
Qed.

Lemma updateDepsParents_only_parent : forall fuel p h h',
  updateDepsParents fuel p h = Ret h' -> only_parent h h'.
Proof.
  induction fuel as [| n IH]; intros p h h' H; [discriminate |].
  rewrite updateDepsParents_S in H. inv_bind H. apply deref_Ret in Ha.
  assert (Hsub : forall d, d ∈ Dependencies a -> d ∈ Dependencies a) by auto.
  revert Hsub H. generalize (Dependencies a) at 1 3 as ds.
  revert Ha. generalize a as x. clear a. revert h.
  intros h x Hx ds. revert h x Hx.
  induction ds as [| d ds IHds]; intros h x Hx Hsub H.
  - injection H as <-. apply only_parent_refl.
  - cbn [updateEach] in H. fold (updateEach n p) in H.
    inv_bind H. inv_bind H.
    assert (Hd : d ∈ Dependencies x) by (apply Hsub; left).
    pose proof (only_parent_alter h p x d Hx Hd) as H0.
    pose proof (IH _ _ _ Ha0) as H1.
    pose proof (only_parent_trans _ _ _ H0 H1) as H01.
    destruct H01 as [L01 F01].
    destruct (F01 p x Hx) as (q & Hx1 & _).
    eapply only_parent_trans; [split; [exact L01 | exact F01] |].
    eapply (IHds a0 (set_parent q x) Hx1); [| exact H].
    intros d' Hd'. simpl. apply Hsub. now right.
Qed.

(** X14. [updateDepsParents] changes parent links and nothing else:
    the heap keeps its length, every node keeps all its other fields,
    and a node whose parent has changed is listed among the
    dependencies of its new parent. *)
Theorem updateDepsParents_changes_parents_only
    (fuel p : nat) (h h' : list Pkg) :
  updateDepsParents fuel p h = Ret h' -> only_parent h h'.
Proof. apply updateDepsParents_only_parent. Qed.

Section LoadFacts.

Context {World Data : Type} (E : Env World Data).

Local Abbreviation State := (State World).


(** X16. When [LoadManifest] succeeds, the file was read and parsed,
    the node has [hasManifest] true, and each of its fields [Name],
    [Version], [Reference] and [URL] is the value of its key in the
    manifest, or what it was before where the key is missing; without
    a [deps] key the dependencies are kept. No node is removed from the
    heap, and the world and the trace are as before. *)
Theorem LoadManifest_success (fuel p : nat) (st st' : State) :
  LoadManifest E fuel p st = Ret (st', None) ->
  exists x x' data d,
    heap st !! p = Some x /\ heap st' !! p = Some x' /\
    ioutil_ReadFile E (world st) (load_file E x) = (data, None) /\
    yaml_parse E data = (d, None) /\
    world st' = world st /\ trace st' = trace st /\
    length (heap st) <= length (heap st') /\
    hasManifest x' = true /\
    Name x' = default (Name x) (doc_pkg d) /\
    Version x' = default (Version x) (doc_ver d) /\
    Reference x' = default (Reference x) (doc_ref d) /\
    URL x' = default (URL x) (doc_url d) /\
    (doc_deps d = None -> Dependencies x' = Dependencies x) /\
    path x' = path x.
Proof.
  unfold LoadManifest. intros H. inv_bind H. apply getPkg_Ret in Ha.
  rewrite (LoadManifest_reset p st a Ha) in H.
  inv_bind H. apply getPkg_Ret in Ha0. cbn [heap] in Ha0.
  pose proof (lookup_insert_same _ _ _ (manifest_reset a) Ha) as Hr.
  rewrite Hr in Ha0. injection Ha0 as <-.
  destruct (manifest_reset_fields a) as (Hp & Hm & _ & HN & HV & HR & HU & HD).
  cbn [world] in H. rewrite Hp, Hm in H. fold (load_file E a) in H.
  destruct (ioutil_ReadFile E (world st) (load_file E a)) as [data [er |]] eqn:Hrd;
    [discriminate |].
  destruct (yaml_parse E data) as [d [er |]] eqn:Hy; [discriminate |].
  inv_bind H. injection H as <-. cbn [heap world trace] in *.
  set (h2 := <[p := manifest_reset a]> (heap st)) in *.
  assert (Hlt : p < length h2) by (eapply lookup_lt_Some; eauto).
  destruct (Unmarshal_frame d p h2 Hlt) as (Hlen & _ & kids & Hq & Hk).
  rewrite Hr in Hq. cbn [fmap option_fmap option_map] in Hq.
  assert (H4 : alter (set_hasManifest true) p (Unmarshal d p h2) !! p
               = Some (set_hasManifest true (decodeFields d kids (manifest_reset a)))).
  { now rewrite list_lookup_alter_eq, Hq. }
  unfold modPkg, set_heap in Ha0. cbn [heap] in Ha0.
  destruct (updateDepsParents_only_parent _ _ _ _ Ha0) as (L & F).
  destruct (F p _ H4) as (q & Hx' & _).
  destruct (decodeFields_fields d kids (manifest_reset a))
    as (FN & FV & FR & FU & FD & _ & _ & _ & FP).
  exists a, (set_parent q (set_hasManifest true (decodeFields d kids (manifest_reset a)))),
    data, d.
  unfold set_heap, modPkg. cbn [heap world trace].
  split; [exact Ha |]. split; [exact Hx' |].
  split; [exact Hrd |]. split; [exact Hy |].
  split; [reflexivity |]. split; [reflexivity |].
  split.
  { rewrite L, length_alter. unfold h2 in Hlen. rewrite length_insert in Hlen. exact Hlen. }
  cbn [hasManifest Name Version Reference URL Dependencies path set_parent set_hasManifest].
  split; [reflexivity |].
  split; [now rewrite FN, HN |]. split; [now rewrite FV, HV |].
  split; [now rewrite FR, HR |]. split; [now rewrite FU, HU |].
  split; [| now rewrite FP, Hp].
  intros Hn. rewrite FD, (Hk Hn). exact HD.
Qed.

End LoadFacts.

(** ** Checkout of a dependency that has a manifest *)

Section FinishFacts.

Context {World Data : Type} (E : Env World Data).

Local Abbreviation State := (State World).

(** X17. When the manifest of the dependency loads, [Checkout] ends
    there: the parent is not initialised again and its [Meta] is not
    asked for, so the result is the state [LoadManifest] leaves, with
    the error of [repo.Version()], whatever [Init] would do. *)
Theorem Checkout_with_manifest_skips_Init
    (fuel p : nat) (init : nat -> Package -> State -> res State)
    (r : Repo) (st st2 : State) :
  LoadManifest E fuel p
    (modPkg p (fun x => set_path (LocalPath r)
                          (set_Reference (vcs_Version E (world st) r).1 x)) st)
  = Ret (st2, None) ->
  CheckoutFinish E fuel init p r st = Ret (st2, (vcs_Version E (world st) r).2).
Proof.
  intros H. unfold CheckoutFinish.
  destruct (vcs_Version E (world st) r) as [ref err]. cbn [fst snd] in *.
  rewrite H. cbn [bind fst].
  destruct (LoadManifest_success E _ _ _ _ H)
    as (x & x' & data & d & _ & Hx' & _ & _ & _ & _ & _ & Hm & _).
  rewrite (getPkg_Some _ _ _ Hx'). cbn [bind]. now rewrite Hm.
Qed.

End FinishFacts.

(** ** The import resolver: what it returns *)

Section ResolverExact.

Context {World Data : Type} (E : Env World Data).

Lemma unique_elem (r : list string) : forall (m : gset string) (u : list string),
  (forall x, x ∈ m <-> x ∈ u) ->
  forall x, x ∈ unique m u r <-> x ∈ u \/ x ∈ r.
Proof.
  induction r as [| i rest IH]; intros m u Hm x; simpl.
  - rewrite elem_of_nil. tauto.
  - rewrite elem_of_cons. destruct (decide (i ∈ m)) as [Hin | Hnin].
    + rewrite (IH m u Hm). apply Hm in Hin.
      split; [tauto |]. intros [? | [-> | ?]]; auto.
    + rewrite (IH ({[ i ]} ∪ m) (u ++ [i])).
      * rewrite elem_of_app, list_elem_of_singleton. tauto.
      * intros y. rewrite elem_of_union, elem_of_singleton, elem_of_app,
          list_elem_of_singleton, Hm. tauto.
Qed.

Lemma reached_cons (w : World) path i rest from j :
  reached E w path (i :: rest) from j <->
  (followed E i /\ from = path /\ j = i) \/
  (followed E i /\ (build_Import E w i (cwd E)).2 = None /\
   reached E w i (Imports (build_Import E w i (cwd E)).1) from j) \/
  reached E w path rest from j.
Proof.
  split.
  - intros H. inversion H as [pa im i0 Hin Hf | pa im i0 fr j0 Hin Hf Hb Hr]; subst.
    + apply elem_of_cons in Hin as [-> | Hin]; [now left |].
      right; right. now constructor.
    + apply elem_of_cons in Hin as [-> | Hin]; [right; left; auto |].
      right; right. eapply reached_below; eauto.
  - intros [(Hf & -> & ->) | [(Hf & Hb & Hr) | H]].
    + constructor; [left | exact Hf].
    + eapply reached_below; eauto. left.
    + inversion H as [pa im i0 Hin Hf | pa im i0 fr j0 Hin Hf Hb Hr]; subst.
      * constructor; [now right | exact Hf].
      * eapply reached_below; eauto. now right.
Qed.

Lemma resolveLoop_exact rec (w : World) path :
  vendoring E = true ->
  (forall i l v, rec i l = Ret v -> resolves E w i l v) ->
  forall imports r probes v,
    resolveLoop E rec w path imports r probes = Ret v ->
    (forall name, name ∈ v.1 <->
       name ∈ r \/
       exists from i, reached E w path imports from i /\ repoName E i = name /\
                      name <> from) /\
    (forall i, i ∈ v.2 <->
       i ∈ probes \/ exists from, reached E w path imports from i).
Proof.
  intros Hv Hrec. induction imports as [| i rest IH]; intros r probes v H.
  - simpl in H. injection H as <-. cbn [fst snd].
    split; intros x; (split; [auto |]);
      (intros [? | H]; [assumption |]).
    + destruct H as (from & j & H & _). inversion H; subst;
        match goal with Hin : _ ∈ [] |- _ => now apply elem_of_nil in Hin end.
    + destruct H as (from & H). inversion H; subst;
        match goal with Hin : _ ∈ [] |- _ => now apply elem_of_nil in Hin end.
  - cbn [resolveLoop] in H. rewrite Hv in H. cbn [negb orb] in H.
    assert (Hskip : ~ followed E i ->
              forall from j, reached E w path (i :: rest) from j <->
                             reached E w path rest from j).
    { intros Hn from j. rewrite reached_cons. tauto. }
    destruct (IsNative E i) eqn:Hnat.
    { assert (Hn : ~ followed E i) by (intros [? _]; congruence).
      destruct (IH _ _ _ H) as [H1 H2].
      split; intros x; [rewrite H1 | rewrite H2];
        (split; (intros [? | Hx]; [now left | right]));
        [destruct Hx as (from & j & Hx & ?); exists from, j; split; [| assumption]
        |destruct Hx as (from & j & Hx & ?); exists from, j; split; [| assumption]
        |destruct Hx as (from & Hx); exists from
        |destruct Hx as (from & Hx); exists from];
        now apply (Hskip Hn). }
    destruct (strings.Contains i "vendor") eqn:Hven.
    { assert (Hn : ~ followed E i) by (intros [_ ?]; congruence).
      destruct (IH _ _ _ H) as [H1 H2].
      split; intros x; [rewrite H1 | rewrite H2];
        (split; (intros [? | Hx]; [now left | right]));
        [destruct Hx as (from & j & Hx & ?); exists from, j; split; [| assumption]
        |destruct Hx as (from & j & Hx & ?); exists from, j; split; [| assumption]
        |destruct Hx as (from & Hx); exists from
        |destruct Hx as (from & Hx); exists from];
        now apply (Hskip Hn). }
    assert (Hf : followed E i) by (split; assumption).
    destruct (build_Import E w i (cwd E)) as [m err] eqn:Hb.
    inv_bind H.
    assert (Hbelow : forall from j,
              ((build_Import E w i (cwd E)).2 = None /\
               reached E w i (Imports (build_Import E w i (cwd E)).1) from j) <->
              (err = None /\ reached E w i (Imports m) from j)).
    { intros from j. rewrite Hb. reflexivity. }
    assert (Hnames : forall name, name ∈ a.1 <->
              exists from j, err = None /\ reached E w i (Imports m) from j /\
                             repoName E j = name /\ name <> from).
    { intros name. destruct err as [e |].
      - injection Ha as <-. cbn [fst]. rewrite elem_of_nil. split; [tauto |].
        intros (? & ? & [=] & _).
      - destruct (Hrec _ _ _ Ha) as [Hs _]. rewrite Hs.
        split; intros (from & j & Hx); exists from, j; tauto. }
    assert (Hprobes : forall j, j ∈ a.2 <->
              exists from, err = None /\ reached E w i (Imports m) from j).
    { intros j. destruct err as [e |].
      - injection Ha as <-. cbn [snd]. rewrite elem_of_nil. split; [tauto |].
        intros (? & [=] & _).
      - destruct (Hrec _ _ _ Ha) as [_ Hs]. rewrite Hs.
        split; intros (from & Hx); exists from; tauto. }
    clear Ha.
    assert (Hgoal2 : forall r2, resolveLoop E rec w path rest r2 (probes ++ i :: a.2) = Ret v ->
              forall j, j ∈ v.2 <->
                j ∈ probes \/ exists from, reached E w path (i :: rest) from j).
    { intros r2 H2 j. destruct (IH _ _ _ H2) as [_ H2'].
      rewrite H2', elem_of_app, elem_of_cons, Hprobes.
      split.
      - intros [[? | [-> | (from & He & Hr)]] | (from & Hr)].
        + now left.
        + right. exists path. apply reached_cons. left. auto.
        + right. exists from. apply reached_cons. right; left.
          split; [exact Hf |]. now apply Hbelow.
        + right. exists from. apply reached_cons. now right; right.
      - intros [? | (from & Hr)]; [now left; left |].
        apply reached_cons in Hr as [(_ & _ & ->) | [(_ & Hr) | Hr]].
        + left; right; now left.
        + apply Hbelow in Hr. left; right; right. exists from. exact Hr.
        + right. now exists from. }
    destruct (String.eqb (repoName E i) path) eqn:Heq.
    + apply String.eqb_eq in Heq.
      split; [| exact (Hgoal2 _ H)].
      intros name. destruct (IH _ _ _ H) as [H1 _].
      rewrite H1, elem_of_app, Hnames. split.
      * intros [[? | (from & j & He & Hr & Hn & Hne)] | (from & j & Hr & Hn & Hne)].
        -- now left.
        -- right. exists from, j. split; [| auto]. apply reached_cons. right; left.
           split; [exact Hf |]. now apply Hbelow.
        -- right. exists from, j. split; [| auto]. apply reached_cons. now right; right.
      * intros [? | (from & j & Hr & Hn & Hne)]; [now left; left |].
        apply reached_cons in Hr as [(_ & -> & ->) | [(_ & Hr) | Hr]].
        -- congruence.
        -- apply Hbelow in Hr. left; right. exists from, j. tauto.
        -- right. exists from, j. auto.
    + apply String.eqb_neq in Heq.
      split; [| exact (Hgoal2 _ H)].
      intros name. destruct (IH _ _ _ H) as [H1 _].
      rewrite H1, !elem_of_app, list_elem_of_singleton, Hnames. split.
      * intros [[[? | (from & j & He & Hr & Hn & Hne)] | ->] | (from & j & Hr & Hn & Hne)].
        -- now left.
        -- right. exists from, j. split; [| auto]. apply reached_cons. right; left.
           split; [exact Hf |]. now apply Hbelow.
        -- right. exists path, i. split; [| auto]. apply reached_cons. left. auto.
        -- right. exists from, j. split; [| auto]. apply reached_cons. now right; right.
      * intros [? | (from & j & Hr & Hn & Hne)]; [now left; left; left |].
        apply reached_cons in Hr as [(_ & -> & ->) | [(_ & Hr) | Hr]].
        -- left; right. now symmetry.
        -- apply Hbelow in Hr. left; left; right. exists from, j. tauto.
        -- right. exists from, j. auto.
Qed.

Lemma resolveImportsRecursive_exact (w : World) :
  vendoring E = true ->
  forall n path imports v,
    resolveImportsRecursive E n w path imports = Ret v -> resolves E w path imports v.
Proof.
  intros Hv. induction n as [| n IH]; intros path imports v H; [discriminate |].
  cbn [resolveImportsRecursive] in H. inv_bind H. injection H as <-.
  destruct (resolveLoop_exact (resolveImportsRecursive E n w) w path Hv
              (fun i l v => IH i l v) imports [] [] a Ha) as [H1 H2].
  split; cbn [fst snd].
  - intros name. rewrite sort_Strings_Permutation.
    rewrite (unique_elem a.1 ∅ []) by (intros x; rewrite elem_of_nil, elem_of_empty; tauto).
    rewrite H1, elem_of_nil. tauto.
  - intros i. rewrite H2, elem_of_nil. tauto.
Qed.

(** X18. With vendoring on, the resolver returns exactly the
    repository names of the imports it reaches: the imports given and,
    for each one that [build.Import] finds, the imports of that
    package, and so on, leaving out built-in packages and paths that
    contain [vendor], and leaving out a name equal to the path the
    call that met it was made for. [build.Import] is called on exactly
    the imports reached. *)
Theorem resolveImports_exact
    (w : World) (n : nat) (path : string) (imports u probes : list string) :
  vendoring E = true ->
  resolveImportsRecursive E n w path imports = Ret (u, probes) ->
  (forall name, name ∈ u <->
     exists from i, reached E w path imports from i /\ repoName E i = name /\
                    name <> from) /\
  (forall i, i ∈ probes <-> exists from, reached E w path imports from i).
Proof.
  intros Hv H. exact (resolveImportsRecursive_exact w Hv n path imports (u, probes) H).
Qed.

End ResolverExact.


(** ** [Init] with vendoring off, [Marshal] and [RelativeRepoPath] *)

Section InitOff.

Context {World Data : Type} (E : Env World Data).

Local Abbreviation State := (State World).

(** X19. With vendoring off, [Init] on a root sets its path to the
    directory of the package and, when that lies in the GOPATH, its
    name to the repository name of the import path; it adds no
    dependency, installs nothing and logs nothing. *)
Theorem Init_vendoring_off
    (fuel p : nat) (meta : Package) (st : State) (x : Pkg) :
  vendoring E = false -> heap st !! p = Some x -> parent x = None ->
  Init E (S fuel) p meta st =
    Ret (mkState (world st)
           (<[p := if strings.HasPrefix (Dir meta) (gosrcpath E)
                   then set_Name (repoName E (ImportPath meta)) (set_path (Dir meta) x)
                   else set_path (Dir meta) x]> (heap st))
           (trace st)).
Proof.
  intros Hv Hx Hp. cbn [Init].
  rewrite (getPkg_Some _ _ _ Hx). cbn [bind].
  rewrite (modPkg_insert st p _ x Hx).
  set (st1 := mkState (world st) (<[p := set_path (Dir meta) x]> (heap st)) (trace st)).
  assert (H1 : heap st1 !! p = Some (set_path (Dir meta) x))
    by (eapply lookup_insert_same; eauto).
  rewrite (getPkg_Some _ _ _ H1). cbn [bind].
  rewrite (IsInGoPath_root E) by exact Hp. cbn [bind path set_path].
  assert (Hres : forall w path,
            resolveImportsRecursive E (S fuel) w path (Imports meta) = Ret ([], [])).
  { intros w path. cbn [resolveImportsRecursive].
    now rewrite resolveLoop_vendoring_off. }
  destruct (strings.HasPrefix (Dir meta) (gosrcpath E)).
  - rewrite (modPkg_insert st1 p _ _ H1).
    erewrite getPkg_Some by (cbn [heap]; eapply lookup_insert_same; eauto).
    cbn [bind]. rewrite Hres. cbn [bind fst snd InitLoop Wait world heap trace].
    unfold st1. cbn [world heap trace]. now rewrite list_insert_insert_eq.
  - rewrite (getPkg_Some _ _ _ H1). cbn [bind]. rewrite Hres. reflexivity.
Qed.

End InitOff.

Lemma omitempty_clean s :
  match omitempty s with Some v => negb (String.eqb v "") | None => true end = true.
Proof. unfold omitempty. destruct s; reflexivity. Qed.

Lemma Marshal_clean : forall fuel h x d,
  Marshal fuel h x = Ret d -> doc_clean d = true.
Proof.
  induction fuel as [| n IH]; intros h x d H; [discriminate |].
  cbn [Marshal] in H. inv_bind H. injection H as <-.
  apply mapM_Ret in Ha. cbn [doc_clean].
  rewrite !omitempty_clean. cbn [andb].
  assert (Hall : forallb doc_clean a = true).
  { induction Ha as [| k b ks bs Hk _ IHks]; [reflexivity |].
    cbn [forallb]. rewrite IHks, andb_true_r.
    inv_bind Hk. eapply IH; eauto. }
  destruct a as [| b bs]; [reflexivity |]. rewrite Hall. reflexivity.
Qed.

(** X20. Whatever [yaml.Marshal] makes of a node through the
    [MarshalYAML] hook and the [omitempty] tags holds no empty value: a
    key that is present has a non-empty string, and [deps], when
    present, a non-empty list of documents of which the same is
    true. *)
Theorem Marshal_writes_no_empty_key (fuel : nat) (h : list Pkg) (x : Pkg) (d : Doc) :
  Marshal fuel h x = Ret d -> doc_clean d = true.
Proof. apply Marshal_clean. Qed.

Lemma substring_all s : String.substring 0 (String.length s) s = s.
Proof. induction s as [| c s IH]; simpl; [reflexivity | now rewrite IH]. Qed.

Lemma prefix_app a b : String.prefix a (a +:+ b) = true.
Proof.
  induction a as [| c a IH]; simpl; [now destruct b |].
  destruct (Ascii.ascii_dec c c); [exact IH | contradiction].
Qed.

Lemma substring_app a b :
  String.substring (String.length a) (String.length (a +:+ b) - String.length a) (a +:+ b)
  = b.
Proof.
  induction a as [| c a IH]; simpl.
  - rewrite Nat.sub_0_r. apply substring_all.
  - exact IH.
Qed.

Section RelativeFacts.

Context {World Data : Type} (E : Env World Data).

(** X21. For a node without an install path of its own, where
    [path.Join] puts one separator between the global install path and
    the name, [RelativeRepoPath] is the name with the separator before
    it: only the install path itself is trimmed. *)
Theorem RelativeRepoPath_keeps_separator (x : Pkg) :
  installPath x = "" ->
  path_Join E [main_installPath E; Name x] = main_installPath E +:+ "/" +:+ Name x ->
  RelativeRepoPath E x = "/" +:+ Name x.
Proof.
  intros Hi Hj. unfold RelativeRepoPath, RepoPath. rewrite Hi. cbn [String.length Nat.eqb].
  rewrite Hj. unfold strings.TrimPrefix. rewrite prefix_app. apply substring_app.
Qed.

End RelativeFacts.

(** ** The graph [Init] builds when no manifest is read *)

Lemma distinct_alter f d h :
  (forall x, Dependencies (f x) = Dependencies x) ->
  (d <> 0 -> forall x, Name (f x) = Name x) ->
  distinct h -> distinct (alter f d h).
Proof.
  intros Hdeps Hname [(x0 & H0 & Hl) Hn]. split.
  - unfold root_lists_all. rewrite length_alter. destruct (decide (d = 0)) as [-> | Hd].
    + exists (f x0). rewrite list_lookup_alter_eq, H0. split; [reflexivity |].
      now rewrite Hdeps.
    + exists x0. rewrite list_lookup_alter_ne by exact Hd. auto.
  - assert (Hlook : forall i xi, i <> 0 -> alter f d h !! i = Some xi ->
                      exists yi, h !! i = Some yi /\ Name xi = Name yi).
    { intros i xi Hi. destruct (decide (d = i)) as [<- | Hne].
      - rewrite list_lookup_alter_eq. destruct (h !! d) as [y |]; [| discriminate].
        simpl. intros [= <-]. exists y. split; [reflexivity |]. now apply Hname.
      - rewrite list_lookup_alter_ne by exact Hne. eauto. }
    intros i j xi xj Hi Hj Hxi Hxj Heq.
    destruct (Hlook i xi Hi Hxi) as (yi & Hyi & Ei).
    destruct (Hlook j xj Hj Hxj) as (yj & Hyj & Ej).
    apply (Hn i j yi yj); congruence.
Qed.

Lemma keeps_distinct f d h : keeps f -> distinct h -> distinct (alter f d h).
Proof.
  intros Hf. apply distinct_alter.
  - intros x. now destruct (Hf x) as (_ & ? & _).
  - intros _ x. now destruct (Hf x) as (_ & _ & ?).
Qed.

Section FlatFacts.

Context {World Data : Type} (E : Env World Data).
Variable m : Package.
Variable N : string.

Local Abbreviation State := (State World).
Local Abbreviation Settled := (Settled E m N).
Local Abbreviation Pre := (Pre E m N).

Hypothesis Hnm : no_manifest E.

Lemma distinct_modPkg f d (st : State) :
  keeps f -> distinct (heap st) -> distinct (heap (modPkg d f st)).
Proof. intros. now apply keeps_distinct. Qed.

Section WithInit.

Variable fuel : nat.
Variable init : nat -> Package -> State -> res State.
Hypothesis Hinit2 : init_distinct E m N init.

Lemma CheckoutFinish_distinct d r (st st' : State) e :
  d <> 0 -> Settled (heap st) -> distinct (heap st) ->
  CheckoutFinish E fuel init d r st = Ret (st', e) ->
  distinct (heap st').
Proof.
  intros Hd Hs Hdi. unfold CheckoutFinish.
  destruct (vcs_Version E (world st) r) as [ref err].
  intros H. inv_bind H. destruct a as [sl el].
  apply (LoadManifest_no_manifest E Hnm) in Ha. simpl in H.
  assert (Hs1 : Settled (heap sl)).
  { subst sl. repeat apply Settled_modPkg; auto with keeps. }
  assert (Hd1 : distinct (heap sl)).
  { subst sl. repeat apply distinct_modPkg; auto with keeps. }
  inv_bind H. apply getPkg_Ret in Ha0.
  assert (Hm : hasManifest a = false).
  { subst sl. simpl in Ha0. rewrite !list_lookup_alter_eq in Ha0.
    destruct (heap st !! d) as [y |]; [| discriminate].
    simpl in Ha0. injection Ha0 as <-.
    destruct (Nat.eqb _ 0); reflexivity. }
  rewrite Hm in H. simpl in H.
  destruct (parent a) as [par |] eqn:Hpar; [| discriminate].
  destruct (Settled_child E m N _ _ _ _ Hs1 Ha0 Hpar) as [_ ->].
  rewrite (Settled_Meta E m N _ Hs1) in H. simpl in H.
  inv_bind H. injection H as <- _.
  eapply Hinit2; [| exact Hd1 | exact Ha1]. now apply Settled_Pre.
Qed.

Lemma Checkout_distinct d (st st' : State) e :
  Settled (heap st) -> distinct (heap st) ->
  Checkout_ E fuel init d st = Ret (st', e) ->
  distinct (heap st').
Proof.
  intros Hs Hdi. unfold Checkout_. intros H. inv_bind H. apply getPkg_Ret in Ha.
  destruct (parent a) as [q |] eqn:Hq; [| now injection H as <- _].
  destruct (Settled_child E m N _ _ _ _ Hs Ha Hq) as [Hd ->].
  inv_bind H. destruct a0 as [[orepo err] st1].
  destruct (VCS_inv _ _ _ _ _ _ Ha0) as (x & Hx & ->).
  assert (Hs1 : Settled (heap (modPkg d (set_repo orepo) st)))
    by (apply Settled_modPkg; auto with keeps).
  assert (Hd1 : distinct (heap (modPkg d (set_repo orepo) st)))
    by (apply distinct_modPkg; auto with keeps).
  destruct err as [er |]; [now injection H as <- _ |].
  destruct orepo as [r |]; [| discriminate].
  inv_bind H.
  match type of H with
  | context [modPkg d (set_installed ?b) ?s] =>
      assert (Hs3 : Settled (heap (modPkg d (set_installed b) s)));
      [| assert (Hd3 : distinct (heap (modPkg d (set_installed b) s)))]
  end.
  { apply Settled_modPkg; auto with keeps.
    destruct (vcs_IsDirty E _ r); exact Hs1. }
  { apply distinct_modPkg; auto with keeps.
    destruct (vcs_IsDirty E _ r); exact Hd1. }
  match type of H with
  | (if ?c then _ else _) = _ => destruct c
  end; [| eapply CheckoutFinish_distinct; eauto].
  match type of H with
  | (if ?c then _ else _) = _ => destruct c
  end; [injection H as <- _; exact Hd3 |].
  match type of H with
  | context [vcs_UpdateVersion E ?w ?r ?v] =>
      destruct (vcs_UpdateVersion E w r v) as [w' [er |]]
  end; [injection H as <- _; exact Hd3 |].
  eapply CheckoutFinish_distinct; [exact Hd | | | exact H]; [exact Hs3 | exact Hd3].
Qed.

Lemma Install_distinct d (st st' : State) e :
  Settled (heap st) -> distinct (heap st) ->
  Install_ E fuel init d st = Ret (st', e) ->
  distinct (heap st').
Proof.
  intros Hs Hdi. unfold Install_. intros H. inv_bind H. apply getPkg_Ret in Ha.
  destruct (parent a) as [q |] eqn:Hq; [| now injection H as <- _].
  destruct (Settled_child E m N _ _ _ _ Hs Ha Hq) as [Hd ->].
  inv_bind H. destruct a0 as [[orepo err] st1].
  destruct (VCS_inv _ _ _ _ _ _ Ha0) as (x & Hx & ->).
  assert (Hd1 : distinct (heap (modPkg d (set_repo orepo) st)))
    by (apply distinct_modPkg; auto with keeps).
  destruct orepo as [r |]; [| inv_bind H; now injection H as <- _].
  inv_bind H.
  assert (Hs2 : forall b,
             Settled (heap (modPkg d (fun y => set_path (LocalPath r) (set_installed b y))
                              (modPkg d (set_repo (Some r)) st))))
    by (intros b; repeat apply Settled_modPkg; auto with keeps).
  assert (Hd2 : forall b,
             distinct (heap (modPkg d (fun y => set_path (LocalPath r) (set_installed b y))
                               (modPkg d (set_repo (Some r)) st))))
    by (intros b; apply distinct_modPkg; auto with keeps).
  match type of H with
  | context [if ?c then _ else _] => destruct c
  end.
  - inv_bind H. destruct a1 as [sc ec]. injection H as <- _.
    eapply Checkout_distinct; [| | exact Ha2]; [apply Hs2 | apply Hd2].
  - match type of H with
    | context [vcs_Get E ?w ?r] => destruct (vcs_Get E w r) as [w' [er |]]
    end; inv_bind H; destruct a1 as [sc ec]; injection H as <- _;
      (eapply Checkout_distinct; [| | exact Ha2]; [apply Hs2 | apply Hd2]).
Qed.

End WithInit.

Lemma seq_snoc a n : seq a n ++ [a + n] = seq a (S n).
Proof. now rewrite seq_S. Qed.

(** The step of [Init] that adds a node: the name is new. *)
Lemma distinct_append h x0 name :
  h !! 0 = Some x0 -> distinct h ->
  none_named h (Dependencies x0) name ->
  distinct (alter (fun y => set_Dependencies (Dependencies y ++ [length h]) y) 0
              (h ++ [set_parent (Some 0) (NewPkg name)])).
Proof.
  intros H0 [(x0' & H0' & Hl) Hn] Hnone.
  assert (x0' = x0) by congruence. subst x0'.
  assert (Hlen : 0 < length h) by (eapply lookup_lt_Some; eauto).
  split.
  - exists (set_Dependencies (Dependencies x0 ++ [length h]) x0).
    rewrite list_lookup_alter_eq, lookup_app_l, H0 by exact Hlen.
    split; [reflexivity |]. cbn [Dependencies set_Dependencies].
    rewrite length_alter, length_app, Hl. simpl length.
    replace (length h + 1 - 1) with (S (length h - 1)) by lia.
    rewrite seq_S. do 2 f_equal. lia.
  - assert (Hold : forall i xi, i <> 0 -> h !! i = Some xi -> Name xi <> name).
    { intros i xi Hi Hxi. unfold none_named in Hnone. rewrite Hl in Hnone.
      rewrite Forall_forall in Hnone.
      destruct (Hnone i) as (y & Hy & Hne).
      - apply elem_of_seq. apply lookup_lt_Some in Hxi. lia.
      - congruence. }
    assert (Hlook : forall i xi, i <> 0 ->
              alter (fun y => set_Dependencies (Dependencies y ++ [length h]) y) 0
                (h ++ [set_parent (Some 0) (NewPkg name)]) !! i = Some xi ->
              (h !! i = Some xi) \/ (i = length h /\ Name xi = name)).
    { intros i xi Hi. rewrite list_lookup_alter_ne by auto.
      intros Hx. apply lookup_app_Some in Hx as [Hx | [Hge Hx]]; [now left |].
      apply list_lookup_singleton_Some in Hx as [Hi0 <-]. right. split; [lia | reflexivity]. }
    intros i j xi xj Hi Hj Hxi Hxj Heq.
    destruct (Hlook i xi Hi Hxi) as [Hi' | [-> Ni]];
      destruct (Hlook j xj Hj Hxj) as [Hj' | [-> Nj]].
    + eapply Hn; eauto.
    + exfalso. apply (Hold i xi Hi Hi'). congruence.
    + exfalso. apply (Hold j xj Hj Hj'). congruence.
    + reflexivity.
Qed.

Section WithInitLoop.

Variable fuel : nat.
Variable init : nat -> Package -> State -> res State.
Hypothesis Hinit : init_ok E m N init.
Hypothesis Hinit2 : init_distinct E m N init.

Lemma InitStep_distinct i (st st' : State) pending pending' :
  Settled (heap st) -> distinct (heap st) ->
  InitStep E fuel init 0 i (st, pending) = Ret (st', pending') ->
  distinct (heap st').
Proof.
  intros Hs Hdi. unfold InitStep. intros H. inv_bind H. apply getPkg_Ret in Ha.
  assert (Hname : Name a = N).
  { destruct Hs as (x0 & H0 & _ & _ & Hname & _). congruence. }
  assert (Hroot : parent a = None).
  { destruct Hs as (x0 & H0 & (Hp0 & _) & _). congruence. }
  rewrite Hname in H.
  destruct (strings.HasPrefix (repoName E i) N) eqn:Hpre; [now injection H as <- _ |].
  inv_bind H. destruct a0 as [found |]; [now injection H as <- _ |].
  assert (Hnone : none_named (heap st) (Dependencies a) (repoName E i)).
  { apply Find_from_None in Ha0. inversion Ha0; subst; [assumption | congruence]. }
  pose proof (Settled_append E m N _ _ Hs Hpre) as Hs2.
  pose proof (distinct_append _ _ _ Ha Hdi Hnone) as Hd2.
  destruct (sched E (repoName E i)).
  - inv_bind H. destruct a0 as [si ei]. injection H as <- _.
    eapply Install_distinct; [exact Hinit2 | | | exact Ha1];
      [exact Hs2 | exact Hd2].
  - injection H as <- _. exact Hd2.
Qed.

Lemma InitLoop_distinct names : forall (st st' : State) pending pending',
  Settled (heap st) -> distinct (heap st) ->
  InitLoop E fuel init 0 names (st, pending) = Ret (st', pending') ->
  distinct (heap st').
Proof.
  induction names as [| i rest IH]; intros st st' pending pending' Hs Hdi H; simpl in H.
  - now injection H as <- _.
  - inv_bind H. destruct a as [s1 p1].
    eapply IH; [| | exact H].
    + eapply InitStep_Settled; eauto.
    + eapply InitStep_distinct; eauto.
Qed.

Lemma Wait_distinct pending : forall (st st' : State),
  Settled (heap st) -> distinct (heap st) ->
  Wait E fuel init pending st = Ret st' ->
  distinct (heap st').
Proof.
  induction pending as [| d rest IH]; intros st st' Hs Hdi H; simpl in H.
  - now injection H as <-.
  - inv_bind H. destruct a as [s1 e1].
    eapply IH; [| | exact H].
    + eapply Install_Settled; [exact Hnm | exact Hinit | exact Hs | exact Ha].
    + eapply Install_distinct; [exact Hinit2 | exact Hs | exact Hdi | exact Ha].
Qed.

End WithInitLoop.

Lemma Init_distinct : forall fuel, init_distinct E m N (Init E fuel).
Proof.
  induction fuel as [| n IH]; intros st st' Hpre Hdi H; [discriminate |].
  cbn [Init] in H.
  pose proof Hpre as (x0 & H0 & (Hp0 & _) & _).
  rewrite (getPkg_Some _ _ _ H0) in H. cbn [bind] in H.
  rewrite (getPkg_Some _ _ (set_path (Dir m) x0)) in H
    by (apply lookup_modPkg_eq; exact H0).
  cbn [bind] in H.
  rewrite (IsInGoPath_root E) in H by exact Hp0. cbn [bind path set_path] in H.
  pose proof (prelude_Settled E m N _ _ H0 Hpre) as Hs2.
  assert (Hd2 : distinct (heap (if strings.HasPrefix (Dir m) (gosrcpath E)
                 then modPkg 0 (set_Name (repoName E (ImportPath m)))
                        (modPkg 0 (set_path (Dir m)) st)
                 else modPkg 0 (set_path (Dir m)) st))).
  { destruct (strings.HasPrefix (Dir m) (gosrcpath E)); cbn [heap modPkg set_heap];
      repeat (apply distinct_alter; [reflexivity | congruence |]); exact Hdi. }
  inv_bind H. inv_bind H. inv_bind H. destruct a1 as [s3 pend].
  cbn [fst snd] in H.
  pose proof (Init_Settled E m N Hnm n) as HI.
  eapply Wait_distinct; [exact HI | exact IH | | | exact H].
  - eapply InitLoop_Settled; [exact Hnm | exact HI | | exact Ha1]. exact Hs2.
  - eapply InitLoop_distinct; [exact HI | exact IH | | | exact Ha1]; [exact Hs2 | exact Hd2].
Qed.

End FlatFacts.


(** ** [repoFromPath] *)

Section DiskFacts.

Context {World Data : Type} (E : Env World Data).

(** X23. The handle [repoFromPath] returns is the checkout at the first
    of the given paths where one is detected and can be opened; it is
    opened with an empty remote, and every path before it was passed
    over. *)
Theorem repoFromPath_first (w : World) (paths : list string) (r : Repo) :
  repoFromPath E w paths = Some r ->
  exists l1 pth l2 t,
    paths = l1 ++ pth :: l2 /\ Forall (path_skipped E w) l1 /\
    vcs_DetectVcsFromFS E w pth = (t, None) /\ t <> NoVCS /\
    vcs_New E w t "" pth = (Some r, None).
Proof.
  induction paths as [| pth rest IH]; [discriminate |].
  cbn [repoFromPath].
  assert (Hskip : path_skipped E w pth -> repoFromPath E w rest = Some r ->
            exists l1 pth0 l2 t,
              pth :: rest = l1 ++ pth0 :: l2 /\ Forall (path_skipped E w) l1 /\
              vcs_DetectVcsFromFS E w pth0 = (t, None) /\ t <> NoVCS /\
              vcs_New E w t "" pth0 = (Some r, None)).
  { intros Hs H. destruct (IH H) as (l1 & p0 & l2 & t & -> & Hl1 & Hd & Ht & Hn).
    exists (pth :: l1), p0, l2, t. split; [reflexivity |].
    split; [now constructor | auto]. }
  destruct (vcs_DetectVcsFromFS E w pth) as [t [e |]] eqn:Hd.
  - apply Hskip. left. rewrite Hd. discriminate.
  - assert (Hopen : t <> NoVCS ->
              match vcs_New E w t "" pth with
              | (_, Some _) => repoFromPath E w rest
              | (r0, None) => r0
              end = Some r ->
              exists l1 pth0 l2 t0,
                pth :: rest = l1 ++ pth0 :: l2 /\ Forall (path_skipped E w) l1 /\
                vcs_DetectVcsFromFS E w pth0 = (t0, None) /\ t0 <> NoVCS /\
                vcs_New E w t0 "" pth0 = (Some r, None)).
    { intros Ht. destruct (vcs_New E w t "" pth) as [r0 [e |]] eqn:Hn.
      - apply Hskip. right. exists t. rewrite Hn. repeat split; auto; discriminate.
      - intros ->. exists [], pth, rest, t. repeat split; auto. }
    destruct t; try (apply Hopen; discriminate). discriminate.
Qed.

End DiskFacts.

(** ** These properties at work on the sample world *)

Module ExtraRuns.

Import Sample.

Lemma treeHeap_ordered : heap_ordered treeHeap.
Proof.
  intros [| [| [| i]]] x q Hx Hq; simpl in Hx; try discriminate;
    injection Hx as <-; simpl in Hq; try discriminate; injection Hq as <-; lia.
Qed.

Lemma Find_returns_nearest_witness :
  Find treeHeap zNode "github.com/b/x" = Ret (Some 1) /\
  found_at treeHeap "github.com/b/x" zNode 1.
Proof.
  split; [vm_compute; reflexivity |].
  apply (Find_returns_nearest treeHeap "github.com/b/x" zNode 1).
  vm_compute. reflexivity.
Defined.

Lemma Find_nil_means_absent_witness :
  Find treeHeap zNode "github.com/q/none" = Ret None /\
  absent treeHeap "github.com/q/none" zNode.
Proof.
  split; [vm_compute; reflexivity |].
  apply (Find_nil_means_absent treeHeap "github.com/q/none" zNode).
  vm_compute. reflexivity.
Defined.

Lemma Find_complete_witness :
  heap_ordered treeHeap /\ treeHeap !! 2 = Some zNode /\
  (forall d, found_at treeHeap "github.com/b/x" zNode d ->
             Find treeHeap zNode "github.com/b/x" = Ret (Some d)) /\
  (absent treeHeap "github.com/b/x" zNode ->
   Find treeHeap zNode "github.com/b/x" = Ret None).
Proof.
  split; [exact treeHeap_ordered |]. split; [reflexivity |].
  exact (Find_complete_on_ordered_heap treeHeap "github.com/b/x" 2 zNode
           treeHeap_ordered eq_refl).
Defined.

Lemma Root_is_parentless_ancestor_witness :
  Root treeHeap 2 = Ret 0 /\
  (exists xr, treeHeap !! 0 = Some xr /\ parent xr = None) /\
  (0 = 2 \/ ancestor treeHeap 0 2).
Proof.
  split; [vm_compute; reflexivity |].
  apply (Root_is_parentless_ancestor treeHeap 2 0). vm_compute. reflexivity.
Defined.

Lemma IsInGoPath_is_that_of_Root_witness :
  Root treeHeap 2 = Ret 0 /\
  IsInGoPath (env true eager) treeHeap zNode = Ret false.
Proof.
  split; [vm_compute; reflexivity |].
  apply (IsInGoPath_is_that_of_Root (env true eager) treeHeap 2 0 zNode
           (set_manifestFile "vgo.yaml" (set_path "/work" (set_Version "1.*" appWithX))));
    vm_compute; reflexivity.
Defined.

Lemma Root_returns_witness :
  heap_ordered treeHeap /\ treeHeap !! 2 = Some zNode /\
  exists r, Root treeHeap 2 = Ret r /\ r <= 2.
Proof.
  split; [exact treeHeap_ordered |]. split; [reflexivity |].
  exact (Root_returns_on_ordered_heap treeHeap 2 zNode treeHeap_ordered eq_refl).
Defined.

Lemma Meta_is_memoised_witness :
  exists (m : Package) (st1 : State SWorld),
    Meta (env true eager) 1 stPinned = Ret (m, st1) /\
    Meta (env true eager) 1 st1 = Ret (m, st1) /\
    world st1 = world stPinned /\
    (exists x, heap stPinned !! 1 = Some x /\
               heap st1 = <[1 := set_meta (Some m) x]> (heap stPinned)) /\
    (trace st1 = trace stPinned \/
     exists fqn e, trace st1 = trace stPinned ++ [EvLog (LogImportFailed fqn e)] /\
                   forall d, e <> NoGoError d).
Proof.
  eexists _, _. split; [vm_compute; reflexivity |].
  apply (Meta_is_memoised (env true eager) 1 stPinned). vm_compute. reflexivity.
Defined.

Lemma VCS_is_memoised_witness :
  exists (st1 : State SWorld),
    VCS (env true eager) 1 stPinned = Ret (Some xRepo, None, st1) /\
    world st1 = world stPinned /\ trace st1 = trace stPinned /\
    (exists x, heap stPinned !! 1 = Some x /\
               heap st1 = <[1 := set_repo (Some xRepo) x]> (heap stPinned)) /\
    VCS (env true eager) 1 st1 = Ret (Some xRepo, None, st1).
Proof.
  eexists. split; [vm_compute; reflexivity |].
  apply (VCS_is_memoised (env true eager) 1 stPinned _ (Some xRepo) None).
  vm_compute. reflexivity.
Defined.

Lemma Install_short_name_panics_witness :
  not_on_disk (env true eager) (world stShort)
    (set_parent (Some 0) (NewPkg "gopkg.in/yaml.v2")) /\
  strings.Split "gopkg.in/yaml.v2" "/" = ["gopkg.in"; "yaml.v2"] /\
  RepoURL (env true eager) (world stShort)
    (set_parent (Some 0) (NewPkg "gopkg.in/yaml.v2")) = Panics /\
  Install (env true eager) 3 1 stShort = Panics /\
  Checkout (env true eager) 3 1 stShort = Panics.
Proof.
  split; [vm_compute; reflexivity |]. split; [vm_compute; reflexivity |].
  apply (Install_short_name_panics (env true eager) 3 1 0 stShort
           (set_parent (Some 0) (NewPkg "gopkg.in/yaml.v2")) "gopkg.in" ["yaml.v2"]);
    [reflexivity | reflexivity | reflexivity | reflexivity | vm_compute; reflexivity
    | vm_compute; reflexivity | right; right; reflexivity | simpl; lia].
Defined.

Lemma Install_unknown_host_witness :
  unknown_host "example.org" /\
  Install (env true eager) 3 1 stOther
  = Ret (stOther, Some (ResolveErr "example.org/a/b" None)).
Proof.
  assert (H : unknown_host "example.org") by (repeat split).
  split; [exact H |].
  apply (Install_unknown_host (env true eager) 3 1 0 stOther
           (set_URL "https://example.org/a/b.git"
              (set_parent (Some 0) (NewPkg "example.org/a/b")))
           "example.org" ["a"; "b"]);
    try (vm_compute; reflexivity). exact H.
Defined.

Lemma Checkout_unknown_host_panics_witness :
  unknown_host "example.org" /\
  Checkout (env true eager) 3 1 stOther = Panics.
Proof.
  assert (H : unknown_host "example.org") by (repeat split).
  split; [exact H |].
  apply (Checkout_unknown_host_panics (env true eager) 3 1 0 stOther
           (set_URL "https://example.org/a/b.git"
              (set_parent (Some 0) (NewPkg "example.org/a/b")))
           "example.org" ["a"; "b"]);
    try (vm_compute; reflexivity). exact H.
Defined.

Lemma Checkout_update_failure_witness :
  vcs_UpdateVersion (env true eager) (world (stCached "no-such-ref")) xLocalRepo
    "no-such-ref"
  = (wInstalled false, Some (ExtErr "unable to update checked out version")) /\
  Checkout (env true eager) 3 1 (stCached "no-such-ref")
  = Ret (mkState (wInstalled false)
           [appWithX; set_installed true (xCached "no-such-ref")]
           [EvUpdateVersion xLocalRepo "no-such-ref";
            EvLog (LogCheckoutFailed (ExtErr "unable to update checked out version"))],
         Some (ExtErr "unable to update checked out version")).
Proof.
  split; [vm_compute; reflexivity |].
  apply (Checkout_update_failure (env true eager) 3 1 0 (stCached "no-such-ref")
           (xCached "no-such-ref") xLocalRepo (wInstalled false)
           (ExtErr "unable to update checked out version"));
    vm_compute; reflexivity.
Defined.

Lemma Checkout_error_is_from_backend_witness :
  exists (st' : State SWorld) (oe : option error),
    Checkout (env true eager) 4 1 (stCached "v2") = Ret (st', oe) /\
    oe = checkout_error (env true eager) (world (stCached "v2")) xLocalRepo
           (target (xCached "v2")).
Proof.
  eexists _, _. split; [vm_compute; reflexivity |].
  eapply (Checkout_error_is_from_backend (env true eager) 4 1 0 (stCached "v2") _
            (xCached "v2") xLocalRepo);
    [reflexivity | reflexivity | reflexivity | vm_compute; reflexivity].
Defined.

Lemma updateDepsParents_witness :
  exists h', updateDepsParents 3 0 plainHeap = Ret h' /\ only_parent plainHeap h'.
Proof.
  eexists. split; [vm_compute; reflexivity |].
  apply (updateDepsParents_changes_parents_only 3 0 plainHeap). vm_compute. reflexivity.
Defined.


Lemma LoadManifest_success_witness :
  exists (st' : State SWorld),
    LoadManifest (env true eager) 3 1 stManifest = Ret (st', None) /\
    exists x x' data d,
      heap stManifest !! 1 = Some x /\ heap st' !! 1 = Some x' /\
      ioutil_ReadFile (env true eager) (world stManifest)
        (load_file (env true eager) x) = (data, None) /\
      yaml_parse (env true eager) data = (d, None) /\
      world st' = world stManifest /\ trace st' = trace stManifest /\
      length (heap stManifest) <= length (heap st') /\
      hasManifest x' = true /\
      Name x' = default (Name x) (doc_pkg d) /\
      Version x' = default (Version x) (doc_ver d) /\
      Reference x' = default (Reference x) (doc_ref d) /\
      URL x' = default (URL x) (doc_url d) /\
      (doc_deps d = None -> Dependencies x' = Dependencies x) /\
      path x' = path x.
Proof.
  eexists. split; [vm_compute; reflexivity |].
  apply (LoadManifest_success (env true eager) 3 1 stManifest). vm_compute. reflexivity.
Defined.

Lemma Checkout_with_manifest_witness :
  exists (st2 : State SWorld),
    LoadManifest (env true eager) 3 1
      (modPkg 1 (fun x => set_path (LocalPath xRepo)
                            (set_Reference
                               (vcs_Version (env true eager) (world stManifest) xRepo).1 x))
              stManifest)
    = Ret (st2, None) /\
    CheckoutFinish (env true eager) 3 (Init (env true eager) 3) 1 xRepo stManifest
    = Ret (st2, (vcs_Version (env true eager) (world stManifest) xRepo).2).
Proof.
  eexists. split; [vm_compute; reflexivity |].
  apply (Checkout_with_manifest_skips_Init (env true eager) 3 1
           (Init (env true eager) 3) xRepo stManifest).
  vm_compute. reflexivity.
Defined.

Lemma resolveImports_exact_witness :
  vendoring (env true eager) = true /\
  resolveImportsRecursive (env true eager) 3 wSources "github.com/a/app"
    ["fmt"; "github.com/b/x"]
  = Ret (["github.com/b/x"; "github.com/c/y"], ["github.com/b/x"; "github.com/c/y/sub"]) /\
  (forall name, name ∈ ["github.com/b/x"; "github.com/c/y"] <->
     exists from i,
       reached (env true eager) wSources "github.com/a/app" ["fmt"; "github.com/b/x"]
         from i /\
       repoName i = name /\ name <> from) /\
  (forall i, i ∈ ["github.com/b/x"; "github.com/c/y/sub"] <->
     exists from,
       reached (env true eager) wSources "github.com/a/app" ["fmt"; "github.com/b/x"]
         from i).
Proof.
  split; [reflexivity |]. split; [vm_compute; reflexivity |].
  apply (resolveImports_exact (env true eager) wSources 3 "github.com/a/app"
           ["fmt"; "github.com/b/x"]); [reflexivity | vm_compute; reflexivity].
Defined.

Lemma Init_vendoring_off_witness :
  vendoring (env false eager) = false /\
  Init (env false eager) 1 0 appMeta (stFresh wPlain)
  = Ret (mkState wPlain [set_path "/work" app] []).
Proof.
  split; [reflexivity |].
  apply (Init_vendoring_off (env false eager) 0 0 appMeta (stFresh wPlain) app);
    reflexivity.
Defined.

Lemma Marshal_writes_no_empty_key_witness :
  exists d,
    Marshal 3 treeHeap
      (set_manifestFile "vgo.yaml" (set_path "/work" (set_Version "1.*" appWithX)))
    = Ret d /\
    doc_clean d = true.
Proof.
  eexists. split; [vm_compute; reflexivity |].
  apply (Marshal_writes_no_empty_key 3 treeHeap
           (set_manifestFile "vgo.yaml" (set_path "/work" (set_Version "1.*" appWithX)))).
  vm_compute. reflexivity.
Defined.

Lemma RelativeRepoPath_witness :
  path_Join (env true eager) [main_installPath (env true eager); Name (depX "" "")]
  = main_installPath (env true eager) +:+ "/" +:+ Name (depX "" "") /\
  RelativeRepoPath (env true eager) (depX "" "") = "/github.com/b/x".
Proof.
  split; [vm_compute; reflexivity |].
  apply (RelativeRepoPath_keeps_separator (env true eager) (depX "" ""));
    vm_compute; reflexivity.
Defined.


Lemma repoFromPath_first_witness :
  repoFromPath (env true eager) (wInstalled false) ["/go/src/github.com/b/x"; xPath]
  = Some xLocalRepo /\
  exists l1 pth l2 t,
    ["/go/src/github.com/b/x"; xPath] = l1 ++ pth :: l2 /\
    Forall (path_skipped (env true eager) (wInstalled false)) l1 /\
    vcs_DetectVcsFromFS (env true eager) (wInstalled false) pth = (t, None) /\
    t <> NoVCS /\
    vcs_New (env true eager) (wInstalled false) t "" pth = (Some xLocalRepo, None).
Proof.
  split; [vm_compute; reflexivity |].
  apply (repoFromPath_first (env true eager) (wInstalled false)
           ["/go/src/github.com/b/x"; xPath] xLocalRepo).
  vm_compute. reflexivity.
Defined.

End ExtraRuns.
